(** * ring: a fixed-size circular deque (gammazero/ring, [ring.go])

  A shallow embedding of [ring.go] and the properties of its operations.

  - [Ring] is the Go struct, [ptr] a possibly nil [*Ring[T]].
  - Methods are computations in a small state-and-panic monad [M] whose
    state is the receiver; a panic keeps the state reached when it was
    raised, so that what a recovered caller observes can be stated.
  - Go's [int] is taken to be 64 bits wide: sums, differences and products
    wrap around ([Int.wrap]); [%] is the truncated remainder [Z.rem] and
    panics on a zero divisor.
  - A slice is a [list T]; indexing is bounds-checked as the Go runtime does
    it.  The slices of a ring are produced by [make([]T, n)] only, hence
    their capacity equals their length. *)

From Stdlib Require Import ZArith Lia.
From stdpp Require Import base tactics option list strings.

Local Open Scope Z_scope.

(** ** Machine integers *)

Module Int.
Definition wrap (z : Z) : Z := (z + 2 ^ 63) mod 2 ^ 64 - 2 ^ 63.
Definition add (a b : Z) : Z := wrap (a + b).
Definition sub (a b : Z) : Z := wrap (a - b).
Definition mul (a b : Z) : Z := wrap (a * b).
End Int.

(** ** Panics *)

Inductive runtime_error : Set :=
| IndexOutOfRange     (* index out of range [i] with length [n] *)
| SliceOutOfRange     (* slice bounds out of range *)
| DivideByZero        (* integer divide by zero *)
| NilDereference      (* invalid memory address or nil pointer dereference *)
| MakesliceLen.       (* makeslice: len out of range *)

Inductive panic : Set :=
| PanicString (msg : string)        (* panic("...") *)
| PanicOutOfRange (i n : Z)         (* panic(outOfRangeText(i, n)) *)
| PanicRuntime (e : runtime_error).

(** [outOfRangeText(i, len)] formats
  "ring: index out of range %d with length %d"; the message is kept as
  its two arguments. *)
Definition outOfRangeText (i n : Z) : panic := PanicOutOfRange i n.

Inductive res (A : Type) : Type :=
| Ok (a : A)
| Panic (p : panic).
Arguments Ok {A} a.
Arguments Panic {A} p.

Definition is_ok {A} (x : res A) : bool :=
match x with Ok _ => true | Panic _ => false end.

Definition len {A} (l : list A) : Z := Z.of_nat (length l).

Section ring.
Context {T : Type}.
(** [var zero T] *)
Variable zero : T.
(** The longest [[]T] the runtime allocates: [make([]T, n)] panics when
    [n] is negative or exceeds it ([maxAlloc] divided by the size of [T]). *)
Variable maxLen : Z.

Record Ring : Type := mkRing {
  buf : list T;
  head : Z;
  tail : Z;
  count : Z;
}.

(** [*Ring[T]]; [None] is the nil pointer. *)
Definition ptr : Type := option Ring.

Definition set_buf (b : list T) (r : Ring) : Ring :=
  mkRing b (head r) (tail r) (count r).
Definition set_head (h : Z) (r : Ring) : Ring :=
  mkRing (buf r) h (tail r) (count r).
Definition set_tail (t : Z) (r : Ring) : Ring :=
  mkRing (buf r) (head r) t (count r).
Definition set_count (c : Z) (r : Ring) : Ring :=
  mkRing (buf r) (head r) (tail r) c.

(** *** The monad of methods on a receiver *)

Definition M (A : Type) : Type := ptr → res A * ptr.

Definition ret {A} (a : A) : M A := λ p, (Ok a, p).
Definition throw {A} (e : panic) : M A := λ p, (Panic e, p).
Definition bind {A B} (m : M A) (k : A → M B) : M B :=
  λ p, match m p with
       | (Ok a, p') => k a p'
       | (Panic e, p') => (Panic e, p')
       end.

Notation "x <- m ;; k" := (bind m (λ x, k))
  (at level 100, m at next level, right associativity).
Notation "m ;; k" := (bind m (λ _, k))
  (at level 100, right associativity).

(** [r == nil] *)
Definition is_nil : M bool :=
  λ p, (Ok (match p with None => true | Some _ => false end), p).
(** Reading the field [r.f] dereferences [r]. *)
Definition load {A} (f : Ring → A) : M A :=
  λ p, match p with
       | Some r => (Ok (f r), p)
       | None => (Panic (PanicRuntime NilDereference), p)
       end.
(** Assigning a field of [r]. *)
Definition store (g : Ring → Ring) : M unit :=
  λ p, match p with
       | Some r => (Ok tt, Some (g r))
       | None => (Panic (PanicRuntime NilDereference), p)
       end.

(** [a % b] *)
Definition rem (a b : Z) : M Z :=
  if b =? 0 then throw (PanicRuntime DivideByZero) else ret (Z.rem a b).

(** [r.buf[i]] as a value *)
Definition buf_load (i : Z) : M T :=
  b <- load buf;;
  if (i <? 0) || (len b <=? i) then throw (PanicRuntime IndexOutOfRange)
  else match b !! Z.to_nat i with
       | Some x => ret x
       | None => throw (PanicRuntime IndexOutOfRange)
       end.

(** [r.buf[i] = x] *)
Definition buf_store (i : Z) (x : T) : M unit :=
  b <- load buf;;
  if (i <? 0) || (len b <=? i) then throw (PanicRuntime IndexOutOfRange)
  else store (set_buf (<[Z.to_nat i := x]> b)).

(** [r.buf[i], r.buf[j] = r.buf[j], r.buf[i]]: both operands are read
    before either slot is written. *)
Definition swap (i j : Z) : M unit :=
  x <- buf_load j;;
  y <- buf_load i;;
  buf_store i x;;
  buf_store j y.

(** A counted loop whose body threads its local variables [s]:
    [k] is the number of times the loop condition holds. *)
Fixpoint iterate {S} (k : nat) (body : S → M S) (s : S) : M S :=
  match k with
  | O => ret s
  | S k' => s' <- body s;; iterate k' body s'
  end.

(** [make([]T, n)] *)
Definition make (n : Z) : res (list T) :=
  if (n <? 0) || (maxLen <? n) then Panic (PanicRuntime MakesliceLen)
  else Ok (replicate (Z.to_nat n) zero).

(** [b[lo:hi]], for a slice whose capacity is its length *)
Definition slice (b : list T) (lo hi : Z) : M (list T) :=
  if (lo <? 0) || (hi <? lo) || (len b <? hi)
  then throw (PanicRuntime SliceOutOfRange)
  else ret (take (Z.to_nat (hi - lo)) (drop (Z.to_nat lo) b)).

(** [copy(dst, src)]: the updated [dst] and the number of elements copied *)
Definition copy (dst src : list T) : list T * Z :=
  let n := Nat.min (length dst) (length src) in
  (take n src ++ drop n dst, Z.of_nat n).

(** *** [ring.go] *)

Definition New (capacity : Z) : res Ring :=
  match make capacity with
  | Ok b => Ok (mkRing b 0 0 0)
  | Panic e => Panic e
  end.

Definition Cap : M Z :=
  n <- is_nil;;
  if n then ret 0 else b <- load buf;; ret (len b).

Definition Len : M Z :=
  n <- is_nil;;
  if n then ret 0 else load count.

Definition Full : M bool :=
  c <- load count;; b <- load buf;; ret (c =? len b).

Definition prev (i : Z) : M Z :=
  b <- load buf;;
  let l := len b in
  rem (Int.add (Int.sub i 1) l) l.

Definition next (i : Z) : M Z :=
  b <- load buf;;
  rem (Int.add i 1) (len b).

Definition PushBack (elem : T) : M unit :=
  t <- load tail;; buf_store t elem;;
  t <- load tail;; t' <- next t;; store (set_tail t');;
  c <- load count;; b <- load buf;;
  if c =? len b then
    h <- load head;; h' <- next h;; store (set_head h')
  else
    c <- load count;; store (set_count (Int.add c 1)).

Definition PushFront (elem : T) : M unit :=
  h <- load head;; h' <- prev h;; store (set_head h');;
  h <- load head;; buf_store h elem;;
  c <- load count;; b <- load buf;;
  if c =? len b then
    t <- load tail;; t' <- prev t;; store (set_tail t')
  else
    c <- load count;; store (set_count (Int.add c 1)).

Definition PopFront : M T :=
  c <- load count;;
  if c <=? 0 then throw (PanicString "PopFront called when empty") else
  h <- load head;; x <- buf_load h;;
  h <- load head;; buf_store h zero;;
  h <- load head;; h' <- next h;; store (set_head h');;
  c <- load count;; store (set_count (Int.sub c 1));;
  ret x.

Definition PopBack : M T :=
  c <- load count;;
  if c <=? 0 then throw (PanicString "PopBack called when empty") else
  t <- load tail;; t' <- prev t;; store (set_tail t');;
  t <- load tail;; x <- buf_load t;;
  t <- load tail;; buf_store t zero;;
  c <- load count;; store (set_count (Int.sub c 1));;
  ret x.

Definition Front : M T :=
  c <- load count;;
  if c <=? 0 then throw (PanicString "Front called when empty") else
  h <- load head;; buf_load h.

Definition Back : M T :=
  c <- load count;;
  if c <=? 0 then throw (PanicString "Back called when empty") else
  t <- load tail;; t' <- prev t;; buf_load t'.

(** [i < 0 || i >= r.Len()]; [Len] has no effect, so evaluating it when
    [i < 0] changes nothing. *)
Definition out_of_range (i : Z) : M bool :=
  n <- Len;; ret ((i <? 0) || (n <=? i)).

Definition At (i : Z) : M T :=
  oor <- out_of_range i;;
  if oor then n <- Len;; throw (outOfRangeText i n) else
  h <- load head;; b <- load buf;;
  s <- rem (Int.add h i) (len b);;
  buf_load s.

Definition Set_ (i : Z) (item : T) : M unit :=
  oor <- out_of_range i;;
  if oor then n <- Len;; throw (outOfRangeText i n) else
  h <- load head;; b <- load buf;;
  s <- rem (Int.add h i) (len b);;
  buf_store s item.

(** One pass of [for ; n < 0; n++] in [Rotate] *)
Definition rotate_back_step (l : Z) : M unit :=
  h <- load head;; h' <- rem (Int.add (Int.sub h 1) l) l;; store (set_head h');;
  t <- load tail;; t' <- rem (Int.add (Int.sub t 1) l) l;; store (set_tail t');;
  h <- load head;; t <- load tail;;
  x <- buf_load t;; buf_store h x;;
  t <- load tail;; buf_store t zero.

(** One pass of [for ; n > 0; n--] in [Rotate] *)
Definition rotate_fwd_step (l : Z) : M unit :=
  t <- load tail;; h <- load head;;
  x <- buf_load h;; buf_store t x;;
  h <- load head;; buf_store h zero;;
  h <- load head;; h' <- rem (Int.add h 1) l;; store (set_head h');;
  t <- load tail;; t' <- rem (Int.add t 1) l;; store (set_tail t').

Definition Rotate (n : Z) : M unit :=
  k <- Len;;
  if k <=? 1 then ret tt else
  c <- load count;; n <- rem n c;;
  if n =? 0 then ret tt else
  b <- load buf;;
  let l := len b in
  h <- load head;; t <- load tail;;
  if h =? t then
    h <- load head;; h' <- rem (Int.add (Int.add h n) l) l;;
    store (set_head h');;
    h <- load head;; store (set_tail h)
  else if n <? 0 then
    iterate (Z.to_nat (- n)) (λ _, rotate_back_step l) tt
  else
    iterate (Z.to_nat n) (λ _, rotate_fwd_step l) tt.

(** [for i := 0; i < r.count; i++ { if f(...) { return i } }; return -1],
    with [k] passes left *)
Fixpoint Index_loop (f : T → bool) (k : nat) (i : Z) : M Z :=
  match k with
  | O => ret (-1)
  | S k' =>
      h <- load head;; b <- load buf;;
      s <- rem (Int.add h i) (len b);;
      x <- buf_load s;;
      if f x then ret i else Index_loop f k' (Int.add i 1)
  end.

Definition Index (f : T → bool) : M Z :=
  n <- Len;;
  if 0 <? n then c <- load count;; Index_loop f (Z.to_nat c) 0
  else ret (-1).

(** [for i := r.count - 1; i >= 0; i-- { if f(...) { return i } }; return -1],
    with [k] passes left *)
Fixpoint RIndex_loop (f : T → bool) (l : Z) (k : nat) (i : Z) : M Z :=
  match k with
  | O => ret (-1)
  | S k' =>
      h <- load head;;
      s <- rem (Int.add h i) l;;
      x <- buf_load s;;
      if f x then ret i else RIndex_loop f l k' (Int.sub i 1)
  end.

Definition RIndex (f : T → bool) : M Z :=
  n <- Len;;
  if 0 <? n then
    l <- Len;;
    c <- load count;;
    RIndex_loop f l (Z.to_nat c) (Int.sub c 1)
  else ret (-1).

(** In [at < 0 || at > r.count] the field [r.count] is read only when
    [at >= 0]. *)
Definition Insert (at_ : Z) (item : T) : M unit :=
  oor <- (if at_ <? 0 then ret true else c <- load count;; ret (c <? at_));;
  if oor then n <- Len;; throw (outOfRangeText at_ n) else
  full <- Full;;
  if full then throw (PanicString "cannot insert into full ring") else
  c <- load count;;
  if Int.mul at_ 2 <? c then
    PushFront item;;
    front <- load head;;
    iterate (Z.to_nat at_)
      (λ front, nxt <- next front;; swap front nxt;; ret nxt) front;;
    ret tt
  else
    c <- load count;;
    let swaps := Int.sub c at_ in
    PushBack item;;
    t <- load tail;; back <- prev t;;
    iterate (Z.to_nat swaps)
      (λ back, prv <- prev back;; swap back prv;; ret prv) back;;
    ret tt.

Definition Remove (at_ : Z) : M T :=
  oor <- out_of_range at_;;
  if oor then n <- Len;; throw (outOfRangeText at_ n) else
  h <- load head;; b <- load buf;;
  rm <- rem (Int.add h at_) (len b);;
  c <- load count;;
  if Int.mul at_ 2 <? c then
    iterate (Z.to_nat at_)
      (λ rm, prv <- prev rm;; swap prv rm;; ret prv) rm;;
    PopFront
  else
    c <- load count;;
    let swaps := Int.sub (Int.sub c at_) 1 in
    iterate (Z.to_nat swaps)
      (λ rm, nxt <- next rm;; swap rm nxt;; ret nxt) rm;;
    PopBack.

Definition Reset : M unit :=
  b <- load buf;;
  let l := len b in
  h <- load head;;
  n <- Len;;
  iterate (Z.to_nat n)
    (λ i, s <- rem (Int.add h i) l;; buf_store s zero;; ret (Int.add i 1)) 0;;
  store (set_head 0);;
  store (set_tail 0);;
  store (set_count 0).

Definition lift {A} (x : res A) : M A :=
  match x with Ok a => ret a | Panic e => throw e end.

Definition Resize (newSize : Z) : M unit :=
  c <- load count;;
  if c =? newSize then ret tt else
  newBuf <- lift (make newSize);;
  t <- load tail;; h <- load head;;
  filled <-
    (if h <? t then
       b <- load buf;; src <- slice b h t;;
       ret (copy newBuf src)
     else
       b <- load buf;; src <- slice b h (len b);;
       let '(newBuf, n) := copy newBuf src in
       if n <? len b then
         t <- load tail;; src <- slice b 0 t;;
         rest <- slice newBuf n (len newBuf);;
         let '(rest, m) := copy rest src in
         ret (take (Z.to_nat n) newBuf ++ rest, Int.add n m)
       else ret (newBuf, n));;
  let '(newBuf, n) := filled in
  store (set_count n);;
  store (set_head 0);;
  store (set_tail n);;
  store (set_buf newBuf).


(** ** What a ring holds *)

#[local] Instance T_inhabited : Inhabited T := populate zero.

(** [len(r.buf)] *)
Definition cap (r : Ring) : Z := len (buf r).

(** The storage slot of logical position [i] *)
Definition slot (r : Ring) (i : Z) : Z := (head r + i) mod cap r.

(** The element stored at logical position [i] *)
Definition elem (r : Ring) (i : Z) : T := buf r !!! Z.to_nat (slot r i).

(** What [At(i)] returns, if it returns *)
Definition read (r : Ring) (i : Z) : option T :=
  match fst (At i (Some r)) with Ok x => Some x | Panic _ => None end.

(** The logical sequence [At(0), ..., At(Len()-1)], front to back *)
Definition contents (r : Ring) : list T := omap (read r) (seqZ 0 (count r)).

(** Slot [s] holds one of the logical elements. *)
Definition occupied (r : Ring) (s : Z) : Prop :=
  ∃ i, 0 <= i < count r ∧ slot r i = s.

(** Every slot that holds no logical element holds the zero value. *)
Definition zeroed (r : Ring) : Prop :=
  ∀ s, 0 <= s < cap r → ¬ occupied r s → buf r !! Z.to_nat s = Some zero.

(** The bookkeeping that every state the code produces satisfies: [tail]
    is [head + count] modulo the capacity.  [tail] may equal the capacity:
    [Resize] leaves it there when the resized ring is full. *)
Definition inv (r : Ring) : Prop :=
  cap r <= maxLen ∧
  0 <= count r <= cap r ∧
  0 <= head r ∧ (head r < cap r ∨ cap r = 0) ∧
  0 <= tail r <= cap r ∧
  (tail r = head r + count r ∨ tail r = head r + count r - cap r ∨
   tail r = head r + count r + cap r).

(** The invariants of the data model: [head] and [tail] are indices into
    the storage, and [tail] is one past the slot of the last element. *)
Definition wf (r : Ring) : Prop :=
  inv r ∧ (tail r < cap r ∨ cap r = 0).

(** A backing array that is not empty *)
Definition sized (r : Ring) : Prop := 0 < cap r ∧ cap r <= maxLen.

(** The calls a client can make *)
Inductive call : Type :=
  | CallCap | CallLen | CallFull
  | CallPushBack (x : T) | CallPushFront (x : T)
  | CallPopFront | CallPopBack | CallFront | CallBack
  | CallAt (i : Z) | CallSet (i : Z) (x : T)
  | CallRotate (n : Z)
  | CallIndex (f : T → bool) | CallRIndex (f : T → bool)
  | CallInsert (i : Z) (x : T) | CallRemove (i : Z)
  | CallReset | CallResize (n : Z).

Definition void {A} (m : M A) : M unit := bind m (λ _, ret tt).

Definition exec (c : call) : M unit :=
  match c with
  | CallCap => void Cap
  | CallLen => void Len
  | CallFull => void Full
  | CallPushBack x => PushBack x
  | CallPushFront x => PushFront x
  | CallPopFront => void PopFront
  | CallPopBack => void PopBack
  | CallFront => void Front
  | CallBack => void Back
  | CallAt i => void (At i)
  | CallSet i x => Set_ i x
  | CallRotate n => Rotate n
  | CallIndex f => void (Index f)
  | CallRIndex f => void (RIndex f)
  | CallInsert i x => Insert i x
  | CallRemove i => void (Remove i)
  | CallReset => Reset
  | CallResize n => Resize n
  end.

(** The states of a ring made by [New] after any sequence of calls,
    including calls that panicked and were recovered from. *)
Inductive reachable : Ring → Prop :=
  | reachable_New capacity r :
      New capacity = Ok r → reachable r
  | reachable_call c r r' :
      reachable r → snd (exec c (Some r)) = Some r' → reachable r'.

(** The array after [b[i], b[j] = b[j], b[i]] *)
Definition swapped (b : list T) (i j : Z) : list T :=
  <[Z.to_nat j := b !!! Z.to_nat i]> (<[Z.to_nat i := b !!! Z.to_nat j]> b).

(** The array after [k] swaps of a slot with its successor, starting with
    slot [f] of an array of length [c] and following the moved element *)
Fixpoint shift_fwd (c : Z) (k : nat) (f : Z) (b : list T) : list T :=
  match k with
  | O => b
  | S k' => shift_fwd c k' ((f + 1) mod c) (swapped b f ((f + 1) mod c))
  end.

(** The same with the predecessor *)
Fixpoint shift_bwd (c : Z) (k : nat) (f : Z) (b : list T) : list T :=
  match k with
  | O => b
  | S k' => shift_bwd c k' ((f - 1 + c) mod c) (swapped b f ((f - 1 + c) mod c))
  end.

(** Where the element at offset [d] of a window comes from when its
    first element is moved [k] places up *)
Definition moved (k d : Z) : Z :=
  if d <? k then d + 1 else if d =? k then 0 else d.

(** A call failed: it panicked instead of returning. *)
Definition failed {A} (o : res A * ptr) : Prop := is_ok (fst o) = false.

(** The array after the loop of [Reset] has run [k] more times, the loop
    variable being [i], for a ring with head [h] and capacity [c] *)
Fixpoint cleared (c h : Z) (k : nat) (i : Z) (b : list T) : list T :=
  match k with
  | O => b
  | S k' => cleared c h k' (i + 1) (<[Z.to_nat ((h + i) mod c) := zero]> b)
  end.

(** A computation that leaves the ring as it is, whether it returns or
    panics *)
Definition readonly {A} (m : M A) : Prop := ∀ p, snd (m p) = p.

(** The element that [RIndex] reads for logical position [i]: it reduces
    the slot modulo [Len()], where [Index] and [At] reduce it modulo
    [len(r.buf)]. *)
Definition relem (r : Ring) (i : Z) : T :=
  buf r !!! Z.to_nat ((head r + i) mod count r).

(** A call kept the capacity, and kept [tail] an index into the storage
    if it was one. *)
Definition steady (r r' : Ring) : Prop :=
  cap r' = cap r ∧ (tail r < cap r → tail r' < cap r').


(** ** Loops of callers *)

(** [for _, x := range items { r.PushBack(x) }] *)
Fixpoint PushBack_all (items : list T) : M unit :=
  match items with
  | [] => ret tt
  | x :: items' => PushBack x;; PushBack_all items'
  end.

(** [for i := 0; i < k; i++ { out = append(out, r.PopFront()) }]: the
    elements popped, in the order they were popped *)
Fixpoint PopFront_n (k : nat) : M (list T) :=
  match k with
  | O => ret []
  | S k' => x <- PopFront;; out <- PopFront_n k';; ret (x :: out)
  end.
(** ** Running the primitives on an allocated ring *)

Hypothesis maxLen_fits : maxLen < 2 ^ 61.

Lemma wrap_small z : - 2 ^ 63 <= z < 2 ^ 63 → Int.wrap z = z.
Proof. intros H. unfold Int.wrap. rewrite Z.mod_small; lia. Qed.

Lemma run_bind {A B} (m : M A) (k : A → M B) p a p' :
  m p = (Ok a, p') → bind m k p = k a p'.
Proof. intros H. unfold bind. by rewrite H. Qed.

Lemma run_bind_panic {A B} (m : M A) (k : A → M B) p e p' :
  m p = (Panic e, p') → bind m k p = (Panic e, p').
Proof. intros H. unfold bind. by rewrite H. Qed.

Lemma run_rem a b p : b ≠ 0 → rem a b p = (Ok (Z.rem a b), p).
Proof. intros H. unfold rem. by destruct (Z.eqb_spec b 0). Qed.

Lemma run_rem_add a b l p :
  0 < l → 0 <= a + b < 2 ^ 63 →
  rem (Int.add a b) l p = (Ok ((a + b) mod l), p).
Proof.
  intros Hl H. rewrite run_rem by lia. unfold Int.add.
  rewrite wrap_small by lia. by rewrite Z.rem_mod_nonneg by lia.
Qed.

Lemma run_rem_pred a l p :
  0 < l < 2 ^ 62 → 0 <= a <= l →
  rem (Int.add (Int.sub a 1) l) l p = (Ok ((a - 1 + l) mod l), p).
Proof.
  intros Hl H. rewrite run_rem by lia. unfold Int.add, Int.sub.
  rewrite !wrap_small by (rewrite ?wrap_small; lia).
  by rewrite Z.rem_mod_nonneg by lia.
Qed.

Lemma run_buf_load r i :
  0 <= i < cap r → buf_load i (Some r) = (Ok (buf r !!! Z.to_nat i), Some r).
Proof.
  intros H. unfold buf_load, bind, cap, len in *. cbn.
  destruct (Z.ltb_spec i 0); [lia|].
  destruct (Z.leb_spec (Z.of_nat (length (buf r))) i); [lia|]. cbn.
  rewrite (list_lookup_lookup_total_lt (buf r) (Z.to_nat i)) by lia. done.
Qed.

Lemma run_buf_store r i x :
  0 <= i < cap r →
  buf_store i x (Some r) = (Ok tt, Some (set_buf (<[Z.to_nat i := x]> (buf r)) r)).
Proof.
  intros H. unfold buf_store, bind, cap, len in *. cbn.
  destruct (Z.ltb_spec i 0); [lia|].
  destruct (Z.leb_spec (Z.of_nat (length (buf r))) i); [lia|]. done.
Qed.

Lemma run_next r i :
  sized r → 0 <= i <= cap r → next i (Some r) = (Ok ((i + 1) mod cap r), Some r).
Proof.
  intros [Hc Hm] Hi. unfold next, bind. cbn. fold (cap r).
  rewrite run_rem by lia. unfold Int.add. rewrite wrap_small by lia.
  rewrite Z.rem_mod_nonneg by lia. done.
Qed.

Lemma run_prev r i :
  sized r → 0 <= i <= cap r →
  prev i (Some r) = (Ok ((i - 1 + cap r) mod cap r), Some r).
Proof.
  intros [Hc Hm] Hi. unfold prev, bind. cbn. fold (cap r).
  rewrite run_rem by lia. unfold Int.add, Int.sub.
  rewrite !wrap_small by (rewrite ?wrap_small; lia).
  rewrite Z.rem_mod_nonneg by lia. done.
Qed.

(** ** Arithmetic modulo the capacity *)

Lemma mod_cases c x :
  0 < c → - c <= x < 3 * c →
  (x mod c = x + c ∧ x < 0) ∨ (x mod c = x ∧ 0 <= x < c) ∨
  (x mod c = x - c ∧ c <= x < 2 * c) ∨ (x mod c = x - 2 * c ∧ 2 * c <= x).
Proof.
  intros Hc Hx.
  destruct (Z.lt_ge_cases x 0).
  { left. split; [|done]. rewrite <- (Z.mod_small (x + c) c) by lia.
    rewrite <- (Z_mod_plus_full x 1 c). f_equal. lia. }
  destruct (Z.lt_ge_cases x c).
  { right; left. split; [|lia]. apply Z.mod_small. lia. }
  destruct (Z.lt_ge_cases x (2 * c)).
  { right; right; left. split; [|lia]. rewrite <- (Z.mod_small (x - c) c) by lia.
    rewrite <- (Z_mod_plus_full (x - c) 1 c). f_equal. lia. }
  right; right; right. split; [|lia]. rewrite <- (Z.mod_small (x - 2 * c) c) by lia.
  rewrite <- (Z_mod_plus_full (x - 2 * c) 2 c). f_equal. lia.
Qed.

(** Eliminates the remainders [x mod c] whose argument is known to lie
    in [[-c, 3c)]. *)
Ltac zmod1 :=
  match goal with
  | |- context [?x mod ?c] =>
      let H := fresh "Hm" in
      destruct (mod_cases c x ltac:(lia) ltac:(lia))
        as [[H ?]|[[H ?]|[[H ?]|[H ?]]]];
      rewrite !H in *; clear H; try lia
  | _ : context [?x mod ?c] |- _ =>
      let H := fresh "Hm" in
      destruct (mod_cases c x ltac:(lia) ltac:(lia))
        as [[H ?]|[[H ?]|[[H ?]|[H ?]]]];
      rewrite !H in *; clear H; try lia
  end.
Ltac zmod := repeat zmod1; try lia.

(** Case analysis on the integer comparisons of the goal *)
Ltac zcase1 :=
  match goal with
  | |- context [?a <? ?b] => destruct (Z.ltb_spec a b)
  | |- context [?a <=? ?b] => destruct (Z.leb_spec a b)
  | |- context [?a =? ?b] => destruct (Z.eqb_spec a b)
  | _ : context [?a <? ?b] |- _ => destruct (Z.ltb_spec a b)
  | _ : context [?a <=? ?b] |- _ => destruct (Z.leb_spec a b)
  | _ : context [?a =? ?b] |- _ => destruct (Z.eqb_spec a b)
  end; try lia.
Ltac zcase := repeat zcase1.

Lemma len_insert (b : list T) i x : len (<[i := x]> b) = len b.
Proof. unfold len. by rewrite length_insert. Qed.

Arguments rem : simpl never.
Arguments buf_load : simpl never.
Arguments buf_store : simpl never.
Arguments next : simpl never.
Arguments prev : simpl never.
Arguments swap : simpl never.
Arguments slice : simpl never.
Arguments copy : simpl never.
Arguments PushBack : simpl never.
Arguments PushFront : simpl never.
Arguments PopFront : simpl never.
Arguments PopBack : simpl never.

Ltac norm :=
  unfold sized, cap, set_buf, set_head, set_tail, set_count in *; cbn in *;
  rewrite ?len_insert in *.
(** Linear arithmetic over the fields of a ring *)
Ltac rlia :=
  unfold wf, inv, sized, cap, len in *; cbn [buf head tail count] in *; lia.
Ltac side :=
  norm; try split; solve [lia | apply Z.mod_pos_bound; lia | zmod].
Ltac run_with lem :=
  etrans; [ eapply run_bind; eapply lem; side | norm ].
Ltac run :=
  norm;
  repeat first
    [ run_with run_buf_store | run_with run_buf_load
    | run_with run_next | run_with run_prev
    | run_with run_rem_add | run_with run_rem_pred
    | rewrite run_rem_add by side | rewrite run_rem_pred by side
    | rewrite run_buf_load by side | rewrite run_buf_store by side
    | rewrite run_next by side | rewrite run_prev by side ].
Ltac unwrap :=
  unfold Int.add, Int.sub, Int.mul;
  rewrite ?wrap_small by (rewrite ?wrap_small; lia).

Lemma PushBack_run r x :
  sized r → 0 <= tail r < cap r → 0 <= head r < cap r → 0 <= count r <= cap r →
  PushBack x (Some r) =
    (Ok tt, Some (mkRing (<[Z.to_nat (tail r) := x]> (buf r))
                    (if count r =? cap r then (head r + 1) mod cap r else head r)
                    ((tail r + 1) mod cap r)
                    (if count r =? cap r then count r else count r + 1))).
Proof.
  intros Hs Ht Hh Hc. unfold PushBack. destruct r as [b h t c]. run.
  destruct (Z.eqb_spec c (len b)); run; by unwrap.
Qed.

Lemma PushFront_run r x :
  sized r → 0 <= tail r <= cap r → 0 <= head r < cap r → 0 <= count r <= cap r →
  let h' := (head r - 1 + cap r) mod cap r in
  PushFront x (Some r) =
    (Ok tt, Some (mkRing (<[Z.to_nat h' := x]> (buf r)) h'
                    (if count r =? cap r then (tail r - 1 + cap r) mod cap r
                     else tail r)
                    (if count r =? cap r then count r else count r + 1))).
Proof.
  intros Hs Ht Hh Hc. unfold PushFront. destruct r as [b h t c]. run.
  destruct (Z.eqb_spec c (len b)); run; by unwrap.
Qed.

Lemma PopFront_run r :
  sized r → 0 <= head r < cap r → 0 < count r <= cap r →
  PopFront (Some r) =
    (Ok (buf r !!! Z.to_nat (head r)),
     Some (mkRing (<[Z.to_nat (head r) := zero]> (buf r))
             ((head r + 1) mod cap r) (tail r) (count r - 1))).
Proof.
  intros Hs Hh Hc. unfold PopFront. destruct r as [b h t c]. run.
  destruct (Z.leb_spec c 0); [lia|]. run. by unwrap.
Qed.

Lemma PopBack_run r :
  sized r → 0 <= tail r <= cap r → 0 < count r <= cap r →
  let t' := (tail r - 1 + cap r) mod cap r in
  PopBack (Some r) =
    (Ok (buf r !!! Z.to_nat t'),
     Some (mkRing (<[Z.to_nat t' := zero]> (buf r)) (head r) t' (count r - 1))).
Proof.
  intros Hs Ht Hc. unfold PopBack. destruct r as [b h t c]. run.
  destruct (Z.leb_spec c 0); [lia|]. run. by unwrap.
Qed.

Lemma Front_run r :
  sized r → 0 <= head r < cap r → 0 < count r →
  Front (Some r) = (Ok (buf r !!! Z.to_nat (head r)), Some r).
Proof.
  intros Hs Hh Hc. unfold Front. destruct r as [b h t c]. run.
  destruct (Z.leb_spec c 0); [lia|]. by run.
Qed.

Lemma Back_run r :
  sized r → 0 <= tail r <= cap r → 0 < count r →
  Back (Some r) =
    (Ok (buf r !!! Z.to_nat ((tail r - 1 + cap r) mod cap r)), Some r).
Proof.
  intros Hs Ht Hc. unfold Back. destruct r as [b h t c]. run.
  destruct (Z.leb_spec c 0); [lia|]. by run.
Qed.

Lemma At_run r i :
  sized r → 0 <= head r < cap r → 0 <= i < count r → count r <= cap r →
  At i (Some r) = (Ok (buf r !!! Z.to_nat (slot r i)), Some r).
Proof.
  intros Hs Hh Hi Hc. unfold At, out_of_range, Len, slot. destruct r as [b h t c]. run.
  destruct (Z.ltb_spec i 0); [lia|]. destruct (Z.leb_spec c i); [lia|]. by run.
Qed.

Lemma Set_run r i x :
  sized r → 0 <= head r < cap r → 0 <= i < count r → count r <= cap r →
  Set_ i x (Some r) = (Ok tt, Some (set_buf (<[Z.to_nat (slot r i) := x]> (buf r)) r)).
Proof.
  intros Hs Hh Hi Hc. unfold Set_, out_of_range, Len, slot. destruct r as [b h t c]. run.
  destruct (Z.ltb_spec i 0); [lia|]. destruct (Z.leb_spec c i); [lia|]. by run.
Qed.

(** ** Swaps and the loops of [Insert] and [Remove] *)

Lemma get_insert (b : list T) s s' x :
  0 <= s < len b → 0 <= s' →
  <[Z.to_nat s := x]> b !!! Z.to_nat s' = if s' =? s then x else b !!! Z.to_nat s'.
Proof.
  intros Hs Hs'. unfold len in *. destruct (Z.eqb_spec s' s) as [->|Hne].
  - apply list_lookup_total_insert_eq. lia.
  - apply list_lookup_total_insert_ne. lia.
Qed.

Lemma len_swapped b i j : len (swapped b i j) = len b.
Proof. unfold swapped. by rewrite !len_insert. Qed.

Lemma get_swapped b i j s :
  0 <= i < len b → 0 <= j < len b → 0 <= s →
  swapped b i j !!! Z.to_nat s =
    if s =? j then b !!! Z.to_nat i
    else if s =? i then b !!! Z.to_nat j else b !!! Z.to_nat s.
Proof.
  intros Hi Hj Hs. unfold swapped.
  rewrite !get_insert by (rewrite ?len_insert; lia). done.
Qed.

Lemma swapped_comm b i j :
  0 <= i < len b → 0 <= j < len b → swapped b i j = swapped b j i.
Proof.
  intros Hi Hj. unfold swapped. destruct (decide (i = j)) as [->|Hne]; [done|].
  apply list_insert_insert_ne. lia.
Qed.

(** Goals about slots of updated arrays *)
Ltac zsolve :=
  repeat first
    [ rewrite get_insert by (rewrite ?len_insert; lia)
    | rewrite get_swapped by lia
    | zmod1 | zcase1 ];
  try lia; try done; try (do 2 f_equal; lia).

Lemma swap_run r i j :
  0 <= i < cap r → 0 <= j < cap r →
  swap i j (Some r) = (Ok tt, Some (set_buf (swapped (buf r) i j) r)).
Proof. intros Hi Hj. unfold swap, swapped. destruct r as [b h t c]. by run. Qed.

Lemma len_shift_fwd c k f b : len (shift_fwd c k f b) = len b.
Proof.
  revert f b. induction k as [|k IH]; intros f b; [done|].
  cbn. by rewrite IH, len_swapped.
Qed.

Lemma len_shift_bwd c k f b : len (shift_bwd c k f b) = len b.
Proof.
  revert f b. induction k as [|k IH]; intros f b; [done|].
  cbn. by rewrite IH, len_swapped.
Qed.

Lemma iterate_swap_next k r f :
  sized r → 0 <= f < cap r →
  iterate k (λ front, nxt <- next front;; swap front nxt;; ret nxt) f (Some r) =
    (Ok ((f + Z.of_nat k) mod cap r),
     Some (set_buf (shift_fwd (cap r) k f (buf r)) r)).
Proof.
  revert r f. induction k as [|k IH]; intros r f Hs Hf.
  - destruct r. norm. rewrite Z.add_0_r, Z.mod_small by lia. done.
  - cbn [iterate shift_fwd].
    etrans; [eapply run_bind|].
    { etrans; [eapply run_bind; by apply run_next; [|lia]|].
      etrans; [eapply run_bind; apply swap_run; [done|]|].
      { apply Z.mod_pos_bound. unfold sized in Hs. lia. }
      reflexivity. }
    rewrite IH.
    + destruct r. norm. rewrite len_swapped, Zplus_mod_idemp_l.
      by replace (f + 1 + Z.of_nat k) with (f + Z.of_nat (S k)) by lia.
    + destruct r. norm. by rewrite len_swapped.
    + destruct r. norm. rewrite len_swapped. apply Z.mod_pos_bound. lia.
Qed.


Lemma iterate_swap_prev k r f :
  sized r → 0 <= f < cap r →
  iterate k (λ back, prv <- prev back;; swap back prv;; ret prv) f (Some r) =
    (Ok ((f - Z.of_nat k) mod cap r),
     Some (set_buf (shift_bwd (cap r) k f (buf r)) r)).
Proof.
  revert r f. induction k as [|k IH]; intros r f Hs Hf.
  - destruct r. norm. rewrite Z.sub_0_r, Z.mod_small by lia. done.
  - cbn [iterate shift_bwd].
    etrans; [eapply run_bind|].
    { etrans; [eapply run_bind; by apply run_prev; [|lia]|].
      etrans; [eapply run_bind; apply swap_run; [done|]|].
      { apply Z.mod_pos_bound. unfold sized in Hs. lia. }
      reflexivity. }
    rewrite IH.
    + destruct r. norm. rewrite len_swapped, Zminus_mod_idemp_l.
      do 2 f_equal. rewrite <- (Z_mod_plus_full (f - Z.of_nat (S k)) 1).
      f_equal. lia.
    + destruct r. norm. by rewrite len_swapped.
    + destruct r. norm. rewrite len_swapped. apply Z.mod_pos_bound. lia.
Qed.

(** The first loop of [Remove] writes the swap with its operands in the
    other order. *)
Lemma iterate_swap_prev' k r f :
  sized r → 0 <= f < cap r →
  iterate k (λ rm, prv <- prev rm;; swap prv rm;; ret prv) f (Some r) =
    (Ok ((f - Z.of_nat k) mod cap r),
     Some (set_buf (shift_bwd (cap r) k f (buf r)) r)).
Proof.
  revert r f. induction k as [|k IH]; intros r f Hs Hf.
  - destruct r. norm. rewrite Z.sub_0_r, Z.mod_small by lia. done.
  - cbn [iterate shift_bwd].
    etrans; [eapply run_bind|].
    { etrans; [eapply run_bind; by apply run_prev; [|lia]|].
      etrans; [eapply run_bind; apply swap_run; [|done]|].
      { apply Z.mod_pos_bound. unfold sized in Hs. lia. }
      reflexivity. }
    assert (0 <= (f - 1 + cap r) mod cap r < cap r) as Hp
      by (apply Z.mod_pos_bound; unfold sized in Hs; lia).
    rewrite swapped_comm by done.
    rewrite IH.
    + destruct r. norm. rewrite len_swapped, Zminus_mod_idemp_l.
      do 2 f_equal. rewrite <- (Z_mod_plus_full (f - Z.of_nat (S k)) 1).
      f_equal. lia.
    + destruct r. norm. by rewrite len_swapped.
    + destruct r. norm. by rewrite len_swapped.
Qed.

Lemma shift_fwd_get c k f b d :
  len b = c → 0 <= f < c → Z.of_nat k < c → 0 <= d < c →
  shift_fwd c k f b !!! Z.to_nat ((f + d) mod c) =
    b !!! Z.to_nat ((f + moved (Z.of_nat k) d) mod c).
Proof.
  revert f b d. induction k as [|k IH]; intros f b d Hb Hf Hk Hd.
  - cbn. unfold moved. change (Z.of_nat 0) with 0.
    zsolve.
  - cbn [shift_fwd].
    assert (0 <= (f + 1) mod c < c) as Hn by (apply Z.mod_pos_bound; lia).
    replace ((f + d) mod c)
      with (((f + 1) mod c + (d - 1 + c) mod c) mod c) by zmod.
    rewrite IH; [|by rewrite len_swapped| done | lia | apply Z.mod_pos_bound; lia].
    rewrite get_swapped by (try apply Z.mod_pos_bound; lia).
    rewrite Nat2Z.inj_succ. unfold moved.
    zsolve.
Qed.

Lemma shift_bwd_get c k f b d :
  len b = c → 0 <= f < c → Z.of_nat k < c → 0 <= d < c →
  shift_bwd c k f b !!! Z.to_nat ((f - d) mod c) =
    b !!! Z.to_nat ((f - moved (Z.of_nat k) d) mod c).
Proof.
  revert f b d. induction k as [|k IH]; intros f b d Hb Hf Hk Hd.
  - cbn. unfold moved. change (Z.of_nat 0) with 0. zsolve.
  - cbn [shift_bwd].
    assert (0 <= (f - 1 + c) mod c < c) as Hn by (apply Z.mod_pos_bound; lia).
    replace ((f - d) mod c)
      with (((f - 1 + c) mod c - (d - 1 + c) mod c) mod c) by zmod.
    rewrite IH; [|by rewrite len_swapped| done | lia | apply Z.mod_pos_bound; lia].
    rewrite get_swapped by (try apply Z.mod_pos_bound; lia).
    rewrite Nat2Z.inj_succ. unfold moved.
    zsolve.
Qed.

(** ** [Insert] and [Remove] on an allocated ring *)

Lemma Insert_front_run r at_ x :
  sized r → 0 <= head r < cap r → 0 <= tail r <= cap r →
  0 <= at_ → at_ * 2 < count r → count r < cap r →
  let h' := (head r - 1 + cap r) mod cap r in
  Insert at_ x (Some r) =
    (Ok tt,
     Some (mkRing (shift_fwd (cap r) (Z.to_nat at_) h' (<[Z.to_nat h' := x]> (buf r)))
             h' (tail r) (count r + 1))).
Proof.
  intros Hs Hh Ht Ha Hc Hf h'. unfold Insert, Full. destruct r as [b h t c]. norm.
  destruct (Z.ltb_spec at_ 0); [lia|]. norm. destruct (Z.ltb_spec c at_); [lia|]. norm.
  destruct (Z.eqb_spec c (len b)); [lia|]. norm.
  unwrap. destruct (Z.ltb_spec (at_ * 2) c); [|lia].
  etrans; [eapply run_bind; apply PushFront_run; side|].
  norm. destruct (Z.eqb_spec c (len b)); [lia|].
  etrans; [eapply run_bind; apply iterate_swap_next; side|].
  norm. done.
Qed.

Lemma Insert_back_run r at_ x :
  sized r → 0 <= head r < cap r → 0 <= tail r < cap r →
  at_ <= count r → count r <= at_ * 2 → count r < cap r →
  Insert at_ x (Some r) =
    (Ok tt,
     Some (mkRing (shift_bwd (cap r) (Z.to_nat (count r - at_)) (tail r)
                     (<[Z.to_nat (tail r) := x]> (buf r)))
             (head r) ((tail r + 1) mod cap r) (count r + 1))).
Proof.
  intros Hs Hh Ht Ha Hc Hf. unfold Insert, Full. destruct r as [b h t c]. norm.
  destruct (Z.ltb_spec at_ 0); [lia|]. norm. destruct (Z.ltb_spec c at_); [lia|]. norm.
  destruct (Z.eqb_spec c (len b)); [lia|]. norm.
  unwrap. destruct (Z.ltb_spec (at_ * 2) c); [lia|]. norm.
  etrans; [eapply run_bind; apply PushBack_run; side|].
  norm. destruct (Z.eqb_spec c (len b)); [lia|].
  run.
  replace (((t + 1) mod len b - 1 + len b) mod len b) with t by zmod.
  etrans; [eapply run_bind; apply iterate_swap_prev; side|].
  norm. by unwrap.
Qed.

Lemma Remove_front_run r at_ :
  sized r → 0 <= head r < cap r →
  0 <= at_ → at_ * 2 < count r → count r <= cap r →
  let b' := shift_bwd (cap r) (Z.to_nat at_) (slot r at_) (buf r) in
  Remove at_ (Some r) =
    (Ok (b' !!! Z.to_nat (head r)),
     Some (mkRing (<[Z.to_nat (head r) := zero]> b')
             ((head r + 1) mod cap r) (tail r) (count r - 1))).
Proof.
  intros Hs Hh Ha Hc Hf b'. subst b'.
  unfold Remove, out_of_range, Len, slot. destruct r as [b h t c]. norm.
  destruct (Z.ltb_spec at_ 0); [lia|]. destruct (Z.leb_spec c at_); [lia|]. run.
  unwrap. destruct (Z.ltb_spec (at_ * 2) c); [|lia].
  etrans; [eapply run_bind; apply iterate_swap_prev'; side|].
  norm. rewrite PopFront_run by (norm; rewrite ?len_shift_bwd; side).
  norm. by rewrite len_shift_bwd.
Qed.

Lemma Remove_back_run r at_ :
  sized r → 0 <= head r < cap r → 0 <= tail r <= cap r →
  at_ < count r → count r <= at_ * 2 → count r <= cap r →
  let b' := shift_fwd (cap r) (Z.to_nat (count r - at_ - 1)) (slot r at_) (buf r) in
  let t' := (tail r - 1 + cap r) mod cap r in
  Remove at_ (Some r) =
    (Ok (b' !!! Z.to_nat t'),
     Some (mkRing (<[Z.to_nat t' := zero]> b') (head r) t' (count r - 1))).
Proof.
  intros Hs Hh Ht Ha Hc Hf b' t'. subst b' t'.
  unfold Remove, out_of_range, Len, slot. destruct r as [b h t c]. norm.
  destruct (Z.ltb_spec at_ 0); [lia|]. destruct (Z.leb_spec c at_); [lia|]. run.
  unwrap. destruct (Z.ltb_spec (at_ * 2) c); [lia|]. norm. unwrap.
  etrans; [eapply run_bind; apply iterate_swap_next; side|].
  norm. rewrite PopBack_run by (norm; rewrite ?len_shift_fwd; side).
  norm. by rewrite len_shift_fwd.
Qed.

(** ** The logical view of a ring *)

Lemma inv_sized r : inv r → 0 < count r → sized r.
Proof. unfold inv, sized. lia. Qed.

Lemma inv_sized' r : inv r → 0 < cap r → sized r.
Proof. unfold inv, sized. lia. Qed.

Lemma slot_range r i : 0 < cap r → 0 <= slot r i < cap r.
Proof. intros. unfold slot. by apply Z.mod_pos_bound. Qed.

Lemma slot_inj r i j :
  inv r → 0 <= i < cap r → 0 <= j < cap r → slot r i = slot r j → i = j.
Proof. unfold inv, slot. intros Hi ? ? H. zmod. Qed.

Lemma slot_surj r s :
  inv r → 0 <= s < cap r → ∃ d, 0 <= d < cap r ∧ slot r d = s.
Proof.
  unfold inv, slot. intros Hi Hs. exists ((s - head r) mod cap r).
  split; [apply Z.mod_pos_bound; lia|]. zmod.
Qed.

Lemma At_elem r i :
  inv r → 0 <= i < count r → At i (Some r) = (Ok (elem r i), Some r).
Proof.
  intros Hi Hr. apply At_run; [apply inv_sized; [done|lia] | | done |];
    unfold inv in Hi; lia.
Qed.

Lemma read_elem r i : inv r → 0 <= i < count r → read r i = Some (elem r i).
Proof. intros Hi Hr. unfold read. by rewrite At_elem. Qed.

Lemma omap_total {A B} (f : A → option B) (g : A → B) (l : list A) :
  (∀ x, x ∈ l → f x = Some (g x)) → omap f l = g <$> l.
Proof.
  induction l as [|a l IH]; intros H; [done|]. cbn.
  rewrite (H a) by left. cbn. f_equal. apply IH. intros x Hx. apply H. by right.
Qed.

Lemma contents_elems r : inv r → contents r = elem r <$> seqZ 0 (count r).
Proof.
  intros Hi. unfold contents. apply omap_total. intros i Hin.
  apply elem_of_seqZ in Hin. apply read_elem; [done|lia].
Qed.

Lemma length_contents r : inv r → length (contents r) = Z.to_nat (count r).
Proof. intros Hi. by rewrite contents_elems, length_fmap, length_seqZ. Qed.

Lemma lookup_contents r (i : nat) :
  inv r → Z.of_nat i < count r → contents r !! i = Some (elem r (Z.of_nat i)).
Proof.
  intros Hi Hr. rewrite contents_elems, list_lookup_fmap by done.
  by rewrite lookup_seqZ_lt by lia.
Qed.

Lemma contents_eq r (l : list T) :
  inv r → length l = Z.to_nat (count r) →
  (∀ i : nat, Z.of_nat i < count r → l !! i = Some (elem r (Z.of_nat i))) →
  contents r = l.
Proof.
  intros Hi Hl H. apply list_eq. intros i.
  destruct (decide (Z.of_nat i < count r)) as [Hlt|Hge].
  - by rewrite H, lookup_contents.
  - rewrite !lookup_ge_None_2; [done| |]; rewrite ?length_contents by done; lia.
Qed.

Lemma zeroed_elem r :
  inv r → (zeroed r ↔ ∀ d, count r <= d < cap r → elem r d = zero).
Proof.
  intros Hi. pose proof Hi as Hi'. unfold inv in Hi'. split.
  - intros Hz d Hd. unfold elem. apply list_lookup_total_correct.
    apply Hz; [apply slot_range; lia|].
    intros (i & Hr & Heq). apply slot_inj in Heq; [lia|done|lia|lia].
  - intros Hz s Hs Hocc.
    destruct (slot_surj r s Hi Hs) as (d & Hd & <-).
    destruct (decide (d < count r)) as [Hlt|Hge].
    { destruct Hocc. exists d. split; [lia|done]. }
    rewrite <- (Hz d) by lia. unfold elem.
    apply list_lookup_lookup_total_lt. pose proof (slot_range r d). unfold cap, len in *. lia.
Qed.

Lemma zeroed_full r : inv r → count r = cap r → zeroed r.
Proof. intros Hi Hc. apply zeroed_elem; [done|]. lia. Qed.

(** ** What each operation does to the logical view *)

Ltac open_ring r :=
  destruct r as [b h t c]; unfold wf, inv, elem, slot, cap in *; cbn in *;
  rewrite ?len_insert in *.
Ltac view :=
  intros; unfold elem, slot, cap; cbn; rewrite ?len_insert; zsolve.

Lemma Set_spec r i x :
  inv r → 0 <= i < count r →
  ∃ r', Set_ i x (Some r) = (Ok tt, Some r') ∧ inv r' ∧
    cap r' = cap r ∧ count r' = count r ∧ head r' = head r ∧ tail r' = tail r ∧
    ∀ d, 0 <= d < cap r → elem r' d = if d =? i then x else elem r d.
Proof.
  intros Hi Hr. rewrite Set_run; [|apply inv_sized; [done|lia]|unfold inv in Hi; lia..].
  eexists; split; [done|]. unfold slot. open_ring r. repeat split; try lia. view.
Qed.

Lemma PushBack_spec r x :
  inv r → 0 < cap r → tail r < cap r →
  ∃ r', PushBack x (Some r) = (Ok tt, Some r') ∧ inv r' ∧ tail r' < cap r' ∧
    cap r' = cap r ∧
    count r' = (if count r =? cap r then count r else count r + 1) ∧
    head r' = (if count r =? cap r then (head r + 1) mod cap r else head r) ∧
    tail r' = (tail r + 1) mod cap r ∧
    ∀ d, 0 <= d < cap r →
      elem r' d =
        if count r =? cap r then (if d =? cap r - 1 then x else elem r (d + 1))
        else (if d =? count r then x else elem r d).
Proof.
  intros Hi Hc Ht.
  rewrite PushBack_run; [|by apply inv_sized'|unfold inv in Hi; lia..].
  eexists; split; [done|]. open_ring r.
  repeat split; try done; try (zsolve; fail). view.
Qed.

Lemma PushFront_spec r x :
  inv r → 0 < cap r →
  ∃ r', PushFront x (Some r) = (Ok tt, Some r') ∧ inv r' ∧
    (tail r < cap r ∨ count r = cap r → tail r' < cap r') ∧
    cap r' = cap r ∧
    count r' = (if count r =? cap r then count r else count r + 1) ∧
    head r' = (head r - 1 + cap r) mod cap r ∧
    tail r' = (if count r =? cap r then (tail r - 1 + cap r) mod cap r else tail r) ∧
    ∀ d, 0 <= d < cap r → elem r' d = if d =? 0 then x else elem r (d - 1).
Proof.
  intros Hi Hc.
  rewrite PushFront_run; [|by apply inv_sized'|unfold inv in Hi; lia..].
  eexists; split; [done|]. open_ring r.
  repeat split; try done; try (zsolve; fail). view.
Qed.

Lemma PopFront_spec r :
  inv r → 0 < count r →
  ∃ r', PopFront (Some r) = (Ok (elem r 0), Some r') ∧ inv r' ∧
    (tail r < cap r → tail r' < cap r') ∧
    cap r' = cap r ∧ count r' = count r - 1 ∧
    head r' = (head r + 1) mod cap r ∧ tail r' = tail r ∧
    ∀ d, 0 <= d < cap r → elem r' d = if d =? cap r - 1 then zero else elem r (d + 1).
Proof.
  intros Hi Hc.
  rewrite PopFront_run; [|apply inv_sized; [done|lia]|unfold inv in Hi; lia..].
  eexists; split.
  { unfold elem, slot. rewrite Z.add_0_r, (Z.mod_small (head r)); [done|].
    unfold inv in Hi; lia. }
  open_ring r. repeat split; try done; try (zsolve; fail). view.
Qed.

Lemma PopBack_spec r :
  inv r → 0 < count r →
  ∃ r', PopBack (Some r) = (Ok (elem r (count r - 1)), Some r') ∧ inv r' ∧
    tail r' < cap r' ∧
    cap r' = cap r ∧ count r' = count r - 1 ∧
    head r' = head r ∧ tail r' = (tail r - 1 + cap r) mod cap r ∧
    ∀ d, 0 <= d < cap r → elem r' d = if d =? count r - 1 then zero else elem r d.
Proof.
  intros Hi Hc.
  rewrite PopBack_run; [|apply inv_sized; [done|lia]|unfold inv in Hi; lia..].
  eexists; split.
  { cbn zeta. unfold elem, slot. do 4 f_equal. unfold inv in Hi. zmod. }
  open_ring r. repeat split; try done; try (zsolve; fail). view.
Qed.


(** ** [Rotate] *)

Lemma rotate_fwd_step_run r :
  sized r → 0 <= head r < cap r → 0 <= tail r < cap r →
  rotate_fwd_step (cap r) (Some r) =
    (Ok tt,
     Some (mkRing (<[Z.to_nat (head r) := zero]>
                     (<[Z.to_nat (tail r) := buf r !!! Z.to_nat (head r)]> (buf r)))
             ((head r + 1) mod cap r) ((tail r + 1) mod cap r) (count r))).
Proof.
  intros Hs Hh Ht. unfold rotate_fwd_step. destruct r as [b h t c]. by run.
Qed.

(** With [tail] at the capacity the first assignment of the pass panics,
    before anything is written. *)
Lemma rotate_fwd_step_panic r :
  sized r → 0 <= head r < cap r → tail r = cap r →
  rotate_fwd_step (cap r) (Some r) = (Panic (PanicRuntime IndexOutOfRange), Some r).
Proof.
  intros Hs Hh Ht. unfold rotate_fwd_step. destruct r as [b h t c]. run.
  unfold buf_store, bind. cbn. subst t.
  destruct (Z.ltb_spec (len b) 0); [lia|].
  destruct (Z.leb_spec (len b) (len b)); [done|lia].
Qed.

Lemma rotate_back_step_run r :
  sized r → 0 <= head r < cap r → 0 <= tail r <= cap r →
  let h' := (head r - 1 + cap r) mod cap r in
  let t' := (tail r - 1 + cap r) mod cap r in
  rotate_back_step (cap r) (Some r) =
    (Ok tt,
     Some (mkRing (<[Z.to_nat t' := zero]>
                     (<[Z.to_nat h' := buf r !!! Z.to_nat t']> (buf r)))
             h' t' (count r))).
Proof.
  intros Hs Hh Ht h' t'. subst h' t'. unfold rotate_back_step.
  destruct r as [b h t c]. by run.
Qed.

Lemma rotate_fwd_step_spec r :
  inv r → 0 < cap r → tail r < cap r →
  ∃ r', rotate_fwd_step (cap r) (Some r) = (Ok tt, Some r') ∧ inv r' ∧
    tail r' < cap r' ∧ cap r' = cap r ∧ count r' = count r ∧
    head r' = (head r + 1) mod cap r ∧
    ∀ d, 0 <= d < cap r →
      elem r' d = if d =? cap r - 1 then zero
                  else if d + 1 =? count r then elem r 0 else elem r (d + 1).
Proof.
  intros Hi Hc Ht.
  rewrite rotate_fwd_step_run; [|by apply inv_sized'|unfold inv in Hi; lia..].
  eexists; split; [done|]. open_ring r.
  repeat split; try done; try (zsolve; fail). view.
Qed.

Lemma rotate_back_step_spec r :
  inv r → 0 < cap r →
  ∃ r', rotate_back_step (cap r) (Some r) = (Ok tt, Some r') ∧ inv r' ∧
    tail r' < cap r' ∧ cap r' = cap r ∧ count r' = count r ∧
    head r' = (head r - 1 + cap r) mod cap r ∧
    ∀ d, 0 <= d < cap r →
      elem r' d = if d =? count r mod cap r then zero
                  else if d =? 0 then elem r (count r - 1) else elem r (d - 1).
Proof.
  intros Hi Hc.
  rewrite rotate_back_step_run; [|by apply inv_sized'|unfold inv in Hi; lia..].
  eexists; split; [done|]. open_ring r.
  repeat split; try done; try (zsolve; fail). view.
Qed.

Lemma rem_range n c : 0 < c → - c < Z.rem n c < c.
Proof. intros Hc. pose proof (Z.rem_bound_abs n c). lia. Qed.

Lemma add_rem_mod i n c : 0 < c → (i + Z.rem n c) mod c = (i + n) mod c.
Proof.
  intros Hc. rewrite (Z.quot_rem' n c) at 2.
  replace (i + (c * (n ÷ c) + Z.rem n c)) with (i + Z.rem n c + (n ÷ c) * c) by lia.
  by rewrite Z_mod_plus_full.
Qed.

Lemma Rotate_small r n : count r <= 1 → Rotate n (Some r) = (Ok tt, Some r).
Proof.
  intros Hc. unfold Rotate, Len. destruct r as [b h t c]. norm.
  destruct (Z.leb_spec c 1); [done|lia].
Qed.

Lemma Rotate_run r n :
  inv r → 1 < count r →
  Rotate n (Some r) =
    let n' := Z.rem n (count r) in
    if n' =? 0 then (Ok tt, Some r)
    else if head r =? tail r then
      (Ok tt, Some (mkRing (buf r) ((head r + n' + cap r) mod cap r)
                      ((head r + n' + cap r) mod cap r) (count r)))
    else if n' <? 0 then
      iterate (Z.to_nat (- n')) (λ _, rotate_back_step (cap r)) tt (Some r)
    else
      iterate (Z.to_nat n') (λ _, rotate_fwd_step (cap r)) tt (Some r).
Proof.
  intros Hi Hc. unfold Rotate, Len. destruct r as [b h t c].
  unfold inv in Hi. norm.
  destruct (Z.leb_spec c 1); [lia|]. norm.
  rewrite (run_bind _ _ _ _ _ (run_rem n c _ ltac:(lia))).
  pose proof (rem_range n c ltac:(lia)).
  destruct (Z.eqb_spec (Z.rem n c) 0); [done|]. norm.
  destruct (Z.eqb_spec h t); [|by destruct (Z.ltb_spec (Z.rem n c) 0)]. norm.
  replace (Int.add h (Z.rem n c)) with (h + Z.rem n c)
    by (unfold Int.add; by rewrite wrap_small by lia).
  by run.
Qed.

Lemma rotate_fwd_loop k r :
  inv r → 0 < count r < cap r → tail r < cap r →
  ∃ r', iterate k (λ _, rotate_fwd_step (cap r)) tt (Some r) = (Ok tt, Some r') ∧
    inv r' ∧ tail r' < cap r' ∧ cap r' = cap r ∧ count r' = count r ∧
    ∀ i, 0 <= i < count r → elem r' i = elem r ((i + Z.of_nat k) mod count r).
Proof.
  revert r. induction k as [|k IH]; intros r Hi Hc Ht.
  - exists r. split_and!; try done. intros i Hr.
    by rewrite Z.add_0_r, Z.mod_small by lia.
  - destruct (rotate_fwd_step_spec r Hi ltac:(lia) Ht)
      as (r1 & Hrun & Hi1 & Ht1 & Hc1 & Hn1 & _ & Hv1).
    cbn [iterate]. rewrite (run_bind _ _ _ _ _ Hrun).
    destruct (IH r1 Hi1 ltac:(lia) Ht1) as (r' & Hrun' & Hi' & Ht' & Hc' & Hn' & Hv').
    rewrite <- Hc1. rewrite Hrun'. exists r'.
    split_and!; try done; try congruence. intros i Hr.
    rewrite Hv', Hn1 by lia.
    pose proof (Z.mod_pos_bound (i + Z.of_nat k) (count r) ltac:(lia)) as Hj.
    replace ((i + Z.of_nat (S k)) mod count r)
      with (((i + Z.of_nat k) mod count r + 1) mod count r)
      by (rewrite Zplus_mod_idemp_l; f_equal; lia).
    set (j := (i + Z.of_nat k) mod count r) in *.
    rewrite Hv1 by lia. zsolve.
Qed.

Lemma rotate_back_loop k r :
  inv r → 0 < count r < cap r →
  ∃ r', iterate k (λ _, rotate_back_step (cap r)) tt (Some r) = (Ok tt, Some r') ∧
    inv r' ∧ (tail r < cap r → tail r' < cap r') ∧ cap r' = cap r ∧
    count r' = count r ∧
    ∀ i, 0 <= i < count r → elem r' i = elem r ((i - Z.of_nat k) mod count r).
Proof.
  revert r. induction k as [|k IH]; intros r Hi Hc.
  - exists r. split_and!; try done. intros i Hr.
    by rewrite Z.sub_0_r, Z.mod_small by lia.
  - destruct (rotate_back_step_spec r Hi ltac:(lia))
      as (r1 & Hrun & Hi1 & Ht1 & Hc1 & Hn1 & _ & Hv1).
    cbn [iterate]. rewrite (run_bind _ _ _ _ _ Hrun).
    destruct (IH r1 Hi1 ltac:(lia)) as (r' & Hrun' & Hi' & Ht' & Hc' & Hn' & Hv').
    rewrite <- Hc1. rewrite Hrun'. exists r'.
    split_and!; try done; try congruence; [auto|]. intros i Hr.
    rewrite Hv', Hn1 by lia.
    pose proof (Z.mod_pos_bound (i - Z.of_nat k) (count r) ltac:(lia)) as Hj.
    replace ((i - Z.of_nat (S k)) mod count r)
      with (((i - Z.of_nat k) mod count r - 1) mod count r)
      by (rewrite Zminus_mod_idemp_l; f_equal; lia).
    set (j := (i - Z.of_nat k) mod count r) in *.
    rewrite Hv1 by lia. zsolve.
Qed.

Lemma wf_inv r : wf r → inv r.
Proof. by intros [? _]. Qed.

Lemma Rotate_spec r n :
  wf r →
  ∃ r', Rotate n (Some r) = (Ok tt, Some r') ∧ wf r' ∧
    cap r' = cap r ∧ count r' = count r ∧
    (count r <= 1 ∨ Z.rem n (count r) = 0 → r' = r) ∧
    ∀ i, 0 <= i < count r → elem r' i = elem r ((i + n) mod count r).
Proof.
  intros Hw. pose proof Hw as [Hi Ht].
  destruct (Z.le_gt_cases (count r) 1) as [Hc|Hc].
  { exists r. rewrite Rotate_small by done. split_and!; try done.
    intros i Hr. replace (count r) with 1 by lia. rewrite Z.mod_1_r.
    by replace i with 0 by lia. }
  rewrite Rotate_run by (done || lia). cbn zeta.
  pose proof (rem_range n (count r) ltac:(lia)) as Hn.
  destruct (Z.eqb_spec (Z.rem n (count r)) 0) as [Hz|Hz].
  { exists r. split_and!; try done. intros i Hr.
    rewrite <- (add_rem_mod i n), Hz, Z.add_0_r, Z.mod_small by lia. done. }
  destruct (Z.eqb_spec (head r) (tail r)) as [Hf|Hf].
  { eexists; split; [done|].
    assert (count r = cap r) as Hfull by (unfold inv in Hi; lia).
    split_and!; try done.
    - unfold wf, inv in *. cbn. unfold cap in *. cbn. split_and!; try lia; zsolve.
    - lia.
    - intros i Hr. rewrite <- (add_rem_mod i n) by lia. rewrite !Hfull in *.
      generalize dependent (Z.rem n (cap r)). intros n' Hn Hz.
      unfold inv in Hi. clear Hw. unfold elem, slot, cap in *. cbn. zsolve. }
  assert (count r < cap r) as Hlt by (unfold inv in Hi; lia).
  destruct (Z.ltb_spec (Z.rem n (count r)) 0) as [Hneg|Hpos].
  - destruct (rotate_back_loop (Z.to_nat (- Z.rem n (count r))) r Hi ltac:(lia))
      as (r' & -> & Hi' & Ht' & Hc' & Hn' & Hv').
    exists r'. split_and!; try done.
    + split; [done|]. lia.
    + lia.
    + intros i Hr. rewrite Hv' by done. rewrite <- (add_rem_mod i n) by lia.
      do 2 f_equal. lia.
  - destruct (rotate_fwd_loop (Z.to_nat (Z.rem n (count r))) r Hi ltac:(lia) ltac:(lia))
      as (r' & -> & Hi' & Ht' & Hc' & Hn' & Hv').
    exists r'. split_and!; try done.
    + split; [done|]. lia.
    + lia.
    + intros i Hr. rewrite Hv' by done. rewrite <- (add_rem_mod i n) by lia.
      do 2 f_equal. lia.
Qed.

Lemma Rotate_congr r n m :
  inv r → Z.rem n (count r) = Z.rem m (count r) →
  Rotate n (Some r) = Rotate m (Some r).
Proof.
  intros Hi Heq. destruct (Z.le_gt_cases (count r) 1) as [Hc|Hc].
  - by rewrite !Rotate_small.
  - rewrite !Rotate_run by done. cbn zeta. by rewrite Heq.
Qed.


(** ** [Insert] and [Remove] *)

Lemma shift_fwd_slot c k f b s :
  len b = c → 0 <= f < c → Z.of_nat k < c → 0 <= s < c →
  shift_fwd c k f b !!! Z.to_nat s =
    b !!! Z.to_nat ((f + moved (Z.of_nat k) ((s - f) mod c)) mod c).
Proof.
  intros Hb Hf Hk Hs.
  rewrite <- shift_fwd_get by (done || apply Z.mod_pos_bound; lia).
  do 2 f_equal. zmod.
Qed.

Lemma shift_bwd_slot c k f b s :
  len b = c → 0 <= f < c → Z.of_nat k < c → 0 <= s < c →
  shift_bwd c k f b !!! Z.to_nat s =
    b !!! Z.to_nat ((f - moved (Z.of_nat k) ((f - s) mod c)) mod c).
Proof.
  intros Hb Hf Hk Hs.
  rewrite <- shift_bwd_get by (done || apply Z.mod_pos_bound; lia).
  do 2 f_equal. zmod.
Qed.

Ltac shifts :=
  intros; unfold elem, slot, cap; cbn;
  rewrite ?len_insert, ?len_shift_fwd, ?len_shift_bwd, ?len_insert;
  rewrite ?get_insert
    by (rewrite ?len_insert, ?len_shift_fwd, ?len_shift_bwd, ?len_insert;
        solve [lia | zmod]);
  rewrite ?shift_fwd_slot, ?shift_bwd_slot
    by (rewrite ?len_insert; solve [lia | zmod]);
  rewrite ?Z2Nat.id by lia; unfold moved.

Lemma Insert_front_spec r at_ x :
  inv r → 0 <= at_ → at_ * 2 < count r → count r < cap r →
  ∃ r', Insert at_ x (Some r) = (Ok tt, Some r') ∧ inv r' ∧
    (tail r < cap r → tail r' < cap r') ∧
    cap r' = cap r ∧ count r' = count r + 1 ∧
    ∀ d, 0 <= d < cap r →
      elem r' d = if d <? at_ then elem r d
                  else if d =? at_ then x else elem r (d - 1).
Proof.
  intros Hi Ha Hh Hc.
  rewrite Insert_front_run; [|apply inv_sized; [done|lia]|unfold inv in Hi; lia..].
  eexists; split; [done|]. open_ring r.
  rewrite ?len_shift_fwd, ?len_insert.
  split_and!; try done; try (zsolve; fail).
  shifts. zsolve.
Qed.

Lemma Insert_back_spec r at_ x :
  inv r → tail r < cap r → at_ <= count r → count r <= at_ * 2 → count r < cap r →
  ∃ r', Insert at_ x (Some r) = (Ok tt, Some r') ∧ inv r' ∧
    tail r' < cap r' ∧ cap r' = cap r ∧ count r' = count r + 1 ∧
    ∀ d, 0 <= d < cap r →
      elem r' d = if d <? at_ then elem r d
                  else if d =? at_ then x
                  else if d <=? count r then elem r (d - 1) else elem r d.
Proof.
  intros Hi Ht Ha Hh Hc.
  rewrite Insert_back_run;
    [|apply inv_sized'; [done|unfold inv in Hi; lia]|unfold inv in Hi; lia..].
  eexists; split; [done|]. open_ring r.
  rewrite ?len_shift_bwd, ?len_insert.
  split_and!; try done; try (zsolve; fail).
  shifts. zsolve.
Qed.

Lemma Remove_front_spec r at_ :
  inv r → 0 <= at_ → at_ * 2 < count r →
  ∃ r', Remove at_ (Some r) = (Ok (elem r at_), Some r') ∧ inv r' ∧
    (tail r < cap r → tail r' < cap r') ∧
    cap r' = cap r ∧ count r' = count r - 1 ∧
    ∀ d, 0 <= d < cap r →
      elem r' d = if d =? cap r - 1 then zero
                  else if d <? at_ then elem r d else elem r (d + 1).
Proof.
  intros Hi Ha Hh.
  rewrite Remove_front_run; [|apply inv_sized; [done|lia]|unfold inv in Hi; lia..].
  cbn zeta. unfold slot. eexists; split.
  { do 2 f_equal. open_ring r. shifts. zsolve. }
  open_ring r. rewrite ?len_shift_bwd, ?len_insert.
  split_and!; try done; try (zsolve; fail).
  shifts. zsolve.
Qed.

Lemma Remove_back_spec r at_ :
  inv r → at_ < count r → count r <= at_ * 2 →
  ∃ r', Remove at_ (Some r) = (Ok (elem r at_), Some r') ∧ inv r' ∧
    tail r' < cap r' ∧ cap r' = cap r ∧ count r' = count r - 1 ∧
    ∀ d, 0 <= d < cap r →
      elem r' d = if d =? count r - 1 then zero
                  else if d <? at_ then elem r d
                  else if d <? count r - 1 then elem r (d + 1) else elem r d.
Proof.
  intros Hi Ha Hh.
  rewrite Remove_back_run;
    [|apply inv_sized; [done|unfold inv in Hi; lia]|unfold inv in Hi; lia..].
  cbn zeta. unfold slot. eexists; split.
  { do 2 f_equal. open_ring r. shifts. zsolve. }
  open_ring r. rewrite ?len_shift_fwd, ?len_insert.
  split_and!; try done; try (zsolve; fail).
  shifts. zsolve.
Qed.


Lemma zeroed_view r r' :
  inv r → inv r' → zeroed r →
  (∀ d, count r' <= d < cap r' →
     elem r' d = zero ∨ ∃ d', count r <= d' < cap r ∧ elem r' d = elem r d') →
  zeroed r'.
Proof.
  intros Hi Hi' Hz Hv. apply zeroed_elem; [done|]. intros d Hd.
  destruct (Hv d Hd) as [->|(d' & Hd' & ->)]; [done|].
  by apply (zeroed_elem r Hi).
Qed.

Lemma Insert_spec r at_ x :
  inv r → 0 <= at_ <= count r → count r < cap r →
  tail r < cap r ∨ at_ * 2 < count r →
  ∃ r', Insert at_ x (Some r) = (Ok tt, Some r') ∧ inv r' ∧
    (tail r < cap r → tail r' < cap r') ∧
    cap r' = cap r ∧ count r' = count r + 1 ∧
    (zeroed r → zeroed r') ∧
    ∀ d, 0 <= d <= count r →
      elem r' d = if d <? at_ then elem r d
                  else if d =? at_ then x else elem r (d - 1).
Proof.
  intros Hi Ha Hc Ht. destruct (Z.lt_ge_cases (at_ * 2) (count r)) as [Hlt|Hge].
  - destruct (Insert_front_spec r at_ x Hi ltac:(lia) Hlt Hc)
      as (r' & Hrun & Hi' & Ht' & Hc' & Hn' & Hv).
    exists r'. split_and!; try done; [|intros d Hd; apply Hv; lia].
    intros Hz. apply (zeroed_view r); try done. intros d Hd. right.
    exists (d - 1). split; [lia|]. rewrite Hv by lia. zsolve.
  - destruct (Insert_back_spec r at_ x Hi ltac:(lia) ltac:(lia) Hge Hc)
      as (r' & Hrun & Hi' & Ht' & Hc' & Hn' & Hv).
    exists r'. split_and!; try done.
    + intros Hz. apply (zeroed_view r); try done. intros d Hd. right.
      exists d. split; [lia|]. rewrite Hv by lia. zsolve.
    + intros d Hd. rewrite Hv by lia. zsolve.
Qed.

Lemma Remove_spec r at_ :
  inv r → 0 <= at_ < count r →
  ∃ r', Remove at_ (Some r) = (Ok (elem r at_), Some r') ∧ inv r' ∧
    (tail r < cap r → tail r' < cap r') ∧
    cap r' = cap r ∧ count r' = count r - 1 ∧
    (zeroed r → zeroed r') ∧
    ∀ d, 0 <= d < count r - 1 →
      elem r' d = if d <? at_ then elem r d else elem r (d + 1).
Proof.
  intros Hi Ha. assert (count r <= cap r) by (unfold inv in Hi; lia).
  destruct (Z.lt_ge_cases (at_ * 2) (count r)) as [Hlt|Hge].
  - destruct (Remove_front_spec r at_ Hi ltac:(lia) Hlt)
      as (r' & Hrun & Hi' & Ht' & Hc' & Hn' & Hv).
    exists r'. split_and!; try done.
    + intros Hz. apply (zeroed_view r); try done. intros d Hd.
      destruct (decide (d = cap r - 1)) as [->|Hne].
      { left. rewrite Hv by lia. by rewrite Z.eqb_refl. }
      right. exists (d + 1). split; [lia|]. rewrite Hv by lia. zsolve.
    + intros d Hd. rewrite Hv by lia. zsolve.
  - destruct (Remove_back_spec r at_ Hi ltac:(lia) Hge)
      as (r' & Hrun & Hi' & Ht' & Hc' & Hn' & Hv).
    exists r'. split_and!; try done.
    + intros Hz. apply (zeroed_view r); try done. intros d Hd.
      destruct (decide (d = count r - 1)) as [->|Hne].
      { left. rewrite Hv by lia. by rewrite Z.eqb_refl. }
      right. exists d. split; [lia|]. rewrite Hv by lia. zsolve.
    + intros d Hd. rewrite Hv by lia. zsolve.
Qed.


(** ** Properties of the operations *)

Lemma Len_run r : Len (Some r) = (Ok (count r), Some r).
Proof. done. Qed.

Lemma Cap_run r : Cap (Some r) = (Ok (cap r), Some r).
Proof. done. Qed.

(** C8: on a ring that satisfies the bookkeeping invariant, [Set(i, v)] with
    [0 <= i < Len()] returns, [At(i)] then returns [v], [At(j)] returns what
    it returned before for every other valid [j], and [Len()] and [Cap()]
    are unchanged. *)
Theorem Set_then_At r i v :
  inv r → 0 <= i < count r →
  ∃ r', Set_ i v (Some r) = (Ok tt, Some r') ∧
    At i (Some r') = (Ok v, Some r') ∧
    (∀ j, 0 <= j < count r → j ≠ i →
       ∃ y, At j (Some r) = (Ok y, Some r) ∧ At j (Some r') = (Ok y, Some r')) ∧
    Len (Some r') = (Ok (count r), Some r') ∧
    Cap (Some r') = (Ok (cap r), Some r').
Proof.
  intros Hi Hr.
  destruct (Set_spec r i v Hi Hr) as (r' & Hrun & Hi' & Hc' & Hn' & _ & _ & Hv).
  assert (count r <= cap r) by (unfold inv in Hi; lia).
  exists r'. split_and!; [done| | |by rewrite Len_run, Hn'|by rewrite Cap_run, Hc'].
  - rewrite At_elem, Hv by (done || lia). by rewrite Z.eqb_refl.
  - intros j Hj Hne. exists (elem r j). split; [by apply At_elem|].
    rewrite At_elem, Hv by (done || lia). by destruct (Z.eqb_spec j i).
Qed.

(** C10: on a nil ring, [At(i)] and [Set(i, item)] panic with the
    out-of-range message for index [i] and length 0, for every [i]; the
    nil pointer is not dereferenced (that would be the runtime's
    nil-dereference panic). *)
Theorem At_Set_nil i item :
  At i None = (Panic (outOfRangeText i 0), None) ∧
  Set_ i item None = (Panic (outOfRangeText i 0), None).
Proof.
  unfold At, Set_, out_of_range, Len, bind. cbn.
  destruct (Z.ltb_spec i 0), (Z.leb_spec 0 i); try lia; done.
Qed.

Lemma lookup_contents_Z r i :
  inv r → 0 <= i < count r → contents r !! Z.to_nat i = Some (elem r i).
Proof. intros Hi Hr. rewrite lookup_contents by (done || lia). by rewrite Z2Nat.id by lia. Qed.

Lemma PushBack_full_contents r r' v :
  inv r → inv r' → 0 < cap r → count r = cap r → count r' = count r →
  (∀ d, 0 <= d < cap r → elem r' d = if d =? cap r - 1 then v else elem r (d + 1)) →
  contents r' = drop 1 (contents r) ++ [v].
Proof.
  intros Hi Hi' Hc Hf Hn Hv. apply contents_eq; [done| |].
  - rewrite length_app, length_drop, length_contents by done. cbn. lia.
  - intros i Hr. rewrite Hv by lia.
    destruct (Z.eqb_spec (Z.of_nat i) (cap r - 1)) as [Heq|Hne].
    + rewrite lookup_app_r; rewrite length_drop, length_contents by done; [|lia].
      by replace (i - (Z.to_nat (count r) - 1))%nat with 0%nat by lia.
    + rewrite lookup_app_l by (rewrite length_drop, length_contents by done; lia).
      rewrite lookup_drop, lookup_contents by (done || lia). do 2 f_equal. lia.
Qed.

Lemma PushFront_contents r r' v n :
  inv r → inv r' → count r' = n + 1 → 0 <= n <= count r → n < cap r →
  (∀ d, 0 <= d < cap r → elem r' d = if d =? 0 then v else elem r (d - 1)) →
  contents r' = v :: take (Z.to_nat n) (contents r).
Proof.
  intros Hi Hi' Hn Hle Hc Hv. apply contents_eq; [done| |].
  - cbn. rewrite length_take, length_contents by done. lia.
  - intros i Hr. rewrite Hv by lia. destruct i as [|i]; [done|].
    destruct (Z.eqb_spec (Z.of_nat (S i)) 0); [lia|]. rewrite lookup_cons.
    rewrite lookup_take_lt, lookup_contents by (done || lia). do 2 f_equal. lia.
Qed.

(** X25: on a full ring of capacity at least one that satisfies the data-model
    invariants, [PushBack(v)] and [PushFront(v)] return and leave [Len()]
    unchanged; after [PushBack(v)] the logical sequence is the old one
    without its front element followed by [v], after [PushFront(v)] it is
    [v] followed by the old one without its back element; in both [head]
    and [tail] move by one slot, with wrap-around. *)
Theorem push_full_evicts r v :
  wf r → 0 < cap r → count r = cap r →
  (∃ r', PushBack v (Some r) = (Ok tt, Some r') ∧
     Len (Some r') = (Ok (count r), Some r') ∧
     contents r' = drop 1 (contents r) ++ [v] ∧
     next (head r) (Some r) = (Ok (head r'), Some r) ∧
     next (tail r) (Some r) = (Ok (tail r'), Some r)) ∧
  (∃ r', PushFront v (Some r) = (Ok tt, Some r') ∧
     Len (Some r') = (Ok (count r), Some r') ∧
     contents r' = v :: take (Z.to_nat (count r) - 1) (contents r) ∧
     prev (head r) (Some r) = (Ok (head r'), Some r) ∧
     prev (tail r) (Some r) = (Ok (tail r'), Some r)).
Proof.
  intros [Hi Ht] Hc Hf. pose proof (inv_sized' r Hi Hc) as Hs.
  assert (0 <= head r < cap r ∧ 0 <= tail r < cap r) as [Hh Ht']
    by (unfold inv in Hi; lia).
  split.
  - destruct (PushBack_spec r v Hi Hc ltac:(lia))
      as (r' & Hrun & Hi' & _ & Hc' & Hn' & Hh' & Ht'' & Hv).
    rewrite Hf, Z.eqb_refl in Hn', Hh', Hv.
    exists r'. split_and!; [done|by rewrite Len_run, Hn', Hf| | |].
    + apply PushBack_full_contents; (done || lia).
    + rewrite run_next by (done || lia). by rewrite Hh'.
    + rewrite run_next by (done || lia). by rewrite Ht''.
  - destruct (PushFront_spec r v Hi Hc)
      as (r' & Hrun & Hi' & _ & Hc' & Hn' & Hh' & Ht'' & Hv).
    rewrite Hf, Z.eqb_refl in Hn', Ht''.
    exists r'. split_and!; [done|by rewrite Len_run, Hn', Hf| | |].
    + replace (Z.to_nat (count r) - 1)%nat with (Z.to_nat (count r - 1)) by lia.
      apply PushFront_contents; (done || lia).
    + rewrite run_prev by (done || lia). by rewrite Hh'.
    + rewrite run_prev by (done || lia). by rewrite Ht''.
Qed.

Lemma PushBack_contents r r' v :
  inv r → inv r' → count r < cap r → count r' = count r + 1 →
  (∀ d, 0 <= d < cap r → elem r' d = if d =? count r then v else elem r d) →
  contents r' = contents r ++ [v].
Proof.
  intros Hi Hi' Hc Hn Hv. apply contents_eq; [done| |].
  - rewrite length_app, length_contents by done. cbn. rlia.
  - intros i Hr. rewrite Hv by rlia.
    destruct (Z.eqb_spec (Z.of_nat i) (count r)) as [Heq|Hne].
    + rewrite lookup_app_r; rewrite length_contents by done; [|lia].
      by replace (i - Z.to_nat (count r))%nat with 0%nat by lia.
    + rewrite lookup_app_l by (rewrite length_contents by done; lia).
      by rewrite lookup_contents by (done || lia).
Qed.

(** C5, amended: on a ring of capacity at least one whose bookkeeping
    holds (as it does in every reachable state), [PushFront(item)] returns
    for every item, and [PushBack(item)] returns for every item when
    [tail] is an index into the storage ([tail < capacity]).  Neither
    changes [Cap()].  On a ring that is not full the item is added at
    that end of the logical sequence and [Len()] grows by one; on a full
    ring [Len()] stays and the element at the opposite end is overwritten:
    the sequence loses its front element to a [PushBack] and its back
    element to a [PushFront].  The data-model invariants are kept. *)
Theorem push_never_fails r item :
  inv r → 0 < cap r →
  (tail r < cap r →
   ∃ r', PushBack item (Some r) = (Ok tt, Some r') ∧ wf r' ∧
     Cap (Some r') = (Ok (cap r), Some r') ∧
     Len (Some r')
       = (Ok (if count r =? cap r then count r else count r + 1), Some r') ∧
     contents r' =
       if count r =? cap r then drop 1 (contents r) ++ [item]
       else contents r ++ [item]) ∧
  (∃ r', PushFront item (Some r) = (Ok tt, Some r') ∧ inv r' ∧
     (wf r → wf r') ∧
     Cap (Some r') = (Ok (cap r), Some r') ∧
     Len (Some r')
       = (Ok (if count r =? cap r then count r else count r + 1), Some r') ∧
     contents r' =
       if count r =? cap r
       then item :: take (Z.to_nat (count r) - 1) (contents r)
       else item :: contents r).
Proof.
  intros Hi Hc. assert (0 <= count r <= cap r) as Hle by rlia. split.
  - intros Ht.
    destruct (PushBack_spec r item Hi Hc Ht)
      as (r' & Hrun & Hi' & Ht' & Hc' & Hn' & _ & _ & Hv).
    exists r'.
    split_and!; [done|by split; [|left]|by rewrite Cap_run, Hc'
                 |by rewrite Len_run, Hn'|].
    destruct (Z.eqb_spec (count r) (cap r)) as [Hf|Hf].
    + by apply PushBack_full_contents.
    + apply PushBack_contents; (done || lia).
  - destruct (PushFront_spec r item Hi Hc)
      as (r' & Hrun & Hi' & Ht' & Hc' & Hn' & _ & _ & Hv).
    exists r'.
    split_and!; [done|done| |by rewrite Cap_run, Hc'
                 |by rewrite Len_run, Hn'|].
    + intros [_ Hw]. split; [done|]. left. apply Ht'. lia.
    + destruct (Z.eqb_spec (count r) (cap r)) as [Hf|Hf].
      * replace (Z.to_nat (count r) - 1)%nat with (Z.to_nat (count r - 1))
          by lia.
        apply PushFront_contents; (done || lia).
      * rewrite (PushFront_contents r r' item (count r)) by (done || lia).
        by rewrite take_ge by (rewrite length_contents by done; lia).
Qed.

(** X26: on a ring that satisfies the data-model invariants, [Rotate(n)]
    returns for every [n] and leaves [Len()] and [Cap()] unchanged; for
    every [0 <= i < Len()], [At(i)] afterwards is [At((i + n) mod Len())]
    before.  [Rotate(n)] acts as [Rotate(n % count)], whose argument lies
    strictly between [-count] and [count]; it changes nothing when
    [Len() <= 1], when the reduced [n] is zero, and so when [n] is a
    multiple of [Len()]; on a full ring [Rotate(Cap()+1)] is [Rotate(1)];
    on a nil ring it returns without effect. *)
Theorem Rotate_shifts r n :
  wf r →
  (∃ r', Rotate n (Some r) = (Ok tt, Some r') ∧ wf r' ∧
     Len (Some r') = (Ok (count r), Some r') ∧
     Cap (Some r') = (Ok (cap r), Some r') ∧
     (∀ i, 0 <= i < count r →
        ∃ y, At i (Some r') = (Ok y, Some r') ∧
             At ((i + n) mod count r) (Some r) = (Ok y, Some r)) ∧
     (count r <= 1 → r' = r) ∧
     (Z.rem n (count r) = 0 → r' = r) ∧
     ((∃ k, n = k * count r) → r' = r)) ∧
  Rotate n (Some r) = Rotate (Z.rem n (count r)) (Some r) ∧
  (0 < count r → - count r < Z.rem n (count r) < count r) ∧
  (count r = cap r → Rotate (cap r + 1) (Some r) = Rotate 1 (Some r)) ∧
  Rotate n None = (Ok tt, None).
Proof.
  intros Hw. pose proof (wf_inv r Hw) as Hi.
  assert (0 <= count r) as Hc0 by (unfold inv in Hi; lia).
  split_and!.
  - destruct (Rotate_spec r n Hw) as (r' & Hrun & Hw' & Hc' & Hn' & Hid & Hv).
    exists r'. split_and!; try done.
    + by rewrite Len_run, Hn'.
    + by rewrite Cap_run, Hc'.
    + intros i Hr. exists (elem r' i). split.
      * apply At_elem; [by apply wf_inv|lia].
      * rewrite Hv by done. apply At_elem; [done|]. apply Z.mod_pos_bound. lia.
    + intros Hle. apply Hid. by left.
    + intros Hz. apply Hid. by right.
    + intros [k ->]. apply Hid.
      destruct (decide (count r = 0)) as [Hz|Hnz]; [left; lia|right].
      apply Z.rem_mod_eq_0; [done|]. apply Z_mod_mult.
  - apply Rotate_congr; [done|].
    destruct (decide (count r = 0)) as [->|Hnz]; [by destruct n|].
    symmetry. apply Z.rem_small_iff; [done|]. by apply Z.rem_bound_abs.
  - intros Hc. by apply rem_range.
  - intros Hf. apply Rotate_congr; [done|].
    destruct (decide (cap r <= 1)) as [Hle|Hgt].
    + assert (cap r = 0 ∨ cap r = 1) as [Hz|Hz] by lia; by rewrite Hf, Hz.
    + rewrite Hf, !Z.rem_mod_nonneg by lia.
      replace (cap r + 1) with (1 + 1 * cap r) by lia. by rewrite Z_mod_plus_full.
  - done.
Qed.

(** The panics of the operations that check their arguments *)

Lemma At_out_of_range r i :
  ¬ (0 <= i < count r) → At i (Some r) = (Panic (outOfRangeText i (count r)), Some r).
Proof.
  intros H. unfold At, out_of_range, Len, bind. cbn.
  destruct (Z.ltb_spec i 0), (Z.leb_spec (count r) i); try lia; done.
Qed.

Lemma Set_out_of_range r i x :
  ¬ (0 <= i < count r) →
  Set_ i x (Some r) = (Panic (outOfRangeText i (count r)), Some r).
Proof.
  intros H. unfold Set_, out_of_range, Len, bind. cbn.
  destruct (Z.ltb_spec i 0), (Z.leb_spec (count r) i); try lia; done.
Qed.

Lemma Remove_out_of_range r i :
  ¬ (0 <= i < count r) →
  Remove i (Some r) = (Panic (outOfRangeText i (count r)), Some r).
Proof.
  intros H. unfold Remove, out_of_range, Len, bind. cbn.
  destruct (Z.ltb_spec i 0), (Z.leb_spec (count r) i); try lia; done.
Qed.

Lemma Insert_out_of_range r i x :
  ¬ (0 <= i <= count r) →
  Insert i x (Some r) = (Panic (outOfRangeText i (count r)), Some r).
Proof.
  intros H. unfold Insert, Len, bind. cbn.
  destruct (Z.ltb_spec i 0); cbn; [done|].
  destruct (Z.ltb_spec (count r) i); [done|lia].
Qed.

Lemma Insert_full r i x :
  0 <= i <= count r → count r = cap r →
  Insert i x (Some r) = (Panic (PanicString "cannot insert into full ring"), Some r).
Proof.
  intros H Hf. unfold Insert, Full, Len, bind, cap in *. cbn.
  destruct (Z.ltb_spec i 0); [lia|]. cbn.
  destruct (Z.ltb_spec (count r) i); [lia|]. cbn.
  destruct (Z.eqb_spec (count r) (len (buf r))); [done|lia].
Qed.

Lemma Front_empty r :
  count r <= 0 → Front (Some r) = (Panic (PanicString "Front called when empty"), Some r).
Proof. intros H. unfold Front, bind. cbn. by destruct (Z.leb_spec (count r) 0); [|lia]. Qed.

Lemma Back_empty r :
  count r <= 0 → Back (Some r) = (Panic (PanicString "Back called when empty"), Some r).
Proof. intros H. unfold Back, bind. cbn. by destruct (Z.leb_spec (count r) 0); [|lia]. Qed.

Lemma PopFront_empty r :
  count r <= 0 →
  PopFront (Some r) = (Panic (PanicString "PopFront called when empty"), Some r).
Proof. intros H. unfold PopFront, bind. cbn. by destruct (Z.leb_spec (count r) 0); [|lia]. Qed.

Lemma PopBack_empty r :
  count r <= 0 →
  PopBack (Some r) = (Panic (PanicString "PopBack called when empty"), Some r).
Proof. intros H. unfold PopBack, bind. cbn. by destruct (Z.leb_spec (count r) 0); [|lia]. Qed.

Lemma Front_elem r : inv r → 0 < count r → Front (Some r) = (Ok (elem r 0), Some r).
Proof.
  intros Hi Hc. rewrite Front_run; [|by apply inv_sized|unfold inv in Hi; lia..].
  unfold elem, slot. rewrite Z.add_0_r, Z.mod_small; [done|unfold inv in Hi; lia].
Qed.

Lemma Back_elem r :
  inv r → 0 < count r → Back (Some r) = (Ok (elem r (count r - 1)), Some r).
Proof.
  intros Hi Hc. rewrite Back_run; [|by apply inv_sized|unfold inv in Hi; lia..].
  unfold elem, slot. do 4 f_equal. unfold inv in Hi. zmod.
Qed.

Lemma exact_failure {A} (o : res A * ptr) (P : Prop) `{!Decision P} r :
  (P → ∃ e, o = (Panic e, Some r)) →
  (¬ P → ∃ y p, o = (Ok y, p)) →
  (failed o ↔ P) ∧ (failed o → snd o = Some r).
Proof.
  intros Hfail Hok. unfold failed. destruct (decide P) as [HP|HP].
  - destruct (Hfail HP) as [e ->]. by split.
  - destruct (Hok HP) as (y & p & ->). by split.
Qed.

(** X27: on a ring that satisfies the data-model invariants, [At(i)],
    [Set(i, item)] and [Remove(i)] fail exactly when [i] is outside
    [[0, count)]; [Insert(at, item)] fails exactly when [at] is outside
    [[0, count]] or the ring is full; [Front], [Back], [PopFront] and
    [PopBack] fail exactly when [count] is 0; and a call that fails leaves
    the ring (storage, head, tail, count) as it was. *)
Theorem failures_exact_and_atomic r :
  wf r →
  (∀ i, (failed (At i (Some r)) ↔ ¬ (0 <= i < count r)) ∧
        (failed (At i (Some r)) → snd (At i (Some r)) = Some r)) ∧
  (∀ i item, (failed (Set_ i item (Some r)) ↔ ¬ (0 <= i < count r)) ∧
             (failed (Set_ i item (Some r)) → snd (Set_ i item (Some r)) = Some r)) ∧
  (∀ i, (failed (Remove i (Some r)) ↔ ¬ (0 <= i < count r)) ∧
        (failed (Remove i (Some r)) → snd (Remove i (Some r)) = Some r)) ∧
  (∀ i item,
     (failed (Insert i item (Some r)) ↔ ¬ (0 <= i <= count r) ∨ count r = cap r) ∧
     (failed (Insert i item (Some r)) → snd (Insert i item (Some r)) = Some r)) ∧
  ((failed (Front (Some r)) ↔ count r = 0) ∧
   (failed (Front (Some r)) → snd (Front (Some r)) = Some r)) ∧
  ((failed (Back (Some r)) ↔ count r = 0) ∧
   (failed (Back (Some r)) → snd (Back (Some r)) = Some r)) ∧
  ((failed (PopFront (Some r)) ↔ count r = 0) ∧
   (failed (PopFront (Some r)) → snd (PopFront (Some r)) = Some r)) ∧
  ((failed (PopBack (Some r)) ↔ count r = 0) ∧
   (failed (PopBack (Some r)) → snd (PopBack (Some r)) = Some r)).
Proof.
  intros [Hi Ht].
  assert (0 <= count r <= cap r) as Hc by (unfold inv in Hi; lia).
  split.
  { intros i. refine (exact_failure _ _ r _ _); intros HP.
    - eexists. by apply At_out_of_range.
    - eexists _, _. apply At_elem; [done|lia]. }
  split.
  { intros i item. refine (exact_failure _ _ r _ _); intros HP.
    - eexists. by apply Set_out_of_range.
    - destruct (Set_spec r i item Hi ltac:(lia)) as (r' & Hrun & _).
      by eexists _, _. }
  split.
  { intros i. refine (exact_failure _ _ r _ _); intros HP.
    - eexists. by apply Remove_out_of_range.
    - destruct (Remove_spec r i Hi ltac:(lia)) as (r' & Hrun & _).
      by eexists _, _. }
  split.
  { intros i item. refine (exact_failure _ _ r _ _); intros HP.
    - destruct (decide (0 <= i <= count r)).
      + eexists. apply Insert_full; [done|]. by destruct HP.
      + eexists. by apply Insert_out_of_range.
    - destruct (Insert_spec r i item Hi ltac:(lia) ltac:(lia) ltac:(lia))
        as (r' & Hrun & _).
      by eexists _, _. }
  split.
  { refine (exact_failure _ _ r _ _); intros HP.
    - eexists. apply Front_empty. lia.
    - eexists _, _. apply Front_elem; [done|lia]. }
  split.
  { refine (exact_failure _ _ r _ _); intros HP.
    - eexists. apply Back_empty. lia.
    - eexists _, _. apply Back_elem; [done|lia]. }
  split.
  { refine (exact_failure _ _ r _ _); intros HP.
    - eexists. apply PopFront_empty. lia.
    - destruct (PopFront_spec r Hi ltac:(lia)) as (r' & Hrun & _).
      by eexists _, _. }
  refine (exact_failure _ _ r _ _); intros HP.
  - eexists. apply PopBack_empty. lia.
  - destruct (PopBack_spec r Hi ltac:(lia)) as (r' & Hrun & _).
    by eexists _, _.
Qed.

Lemma Insert_contents r r' at_ v :
  inv r → inv r' → 0 <= at_ <= count r → count r' = count r + 1 →
  (∀ d, 0 <= d <= count r →
     elem r' d = if d <? at_ then elem r d
                 else if d =? at_ then v else elem r (d - 1)) →
  contents r' = take (Z.to_nat at_) (contents r) ++ v :: drop (Z.to_nat at_) (contents r).
Proof.
  intros Hi Hi' Ha Hn Hv. apply contents_eq; [done| |].
  - rewrite length_app, length_take. cbn. rewrite length_drop, length_contents by done.
    lia.
  - intros i Hr. rewrite Hv by lia.
    assert (length (take (Z.to_nat at_) (contents r)) = Z.to_nat at_) as Hlen
      by (rewrite length_take, length_contents by done; lia).
    destruct (Z.ltb_spec (Z.of_nat i) at_) as [Hlt|Hge].
    { rewrite lookup_app_l by lia.
      rewrite lookup_take_lt, lookup_contents by (done || lia). done. }
    rewrite lookup_app_r, Hlen by lia.
    destruct (Z.eqb_spec (Z.of_nat i) at_) as [Heq|Hne].
    { by replace (i - Z.to_nat at_)%nat with 0%nat by lia. }
    replace (i - Z.to_nat at_)%nat with (S (i - Z.to_nat at_ - 1)) by lia.
    rewrite lookup_cons, lookup_drop, lookup_contents by (done || lia).
    do 2 f_equal. lia.
Qed.

(** X28: on a ring that satisfies the data-model invariants and is not
    full, [Insert(at, v)] with [0 <= at <= Len()] returns; the logical
    sequence is then the old elements [0..at-1], [v], and the old elements
    [at..count-1]; [Remove(at)] then returns [v] and leaves the logical
    sequence and the length that the ring had before the [Insert]. *)
Theorem Insert_then_Remove r at_ v :
  wf r → count r < cap r → 0 <= at_ <= count r →
  ∃ r', Insert at_ v (Some r) = (Ok tt, Some r') ∧
    contents r' =
      take (Z.to_nat at_) (contents r) ++ v :: drop (Z.to_nat at_) (contents r) ∧
    ∃ r'', Remove at_ (Some r') = (Ok v, Some r'') ∧
      contents r'' = contents r ∧
      Len (Some r'') = (Ok (count r), Some r'').
Proof.
  intros [Hi Ht] Hc Ha.
  destruct (Insert_spec r at_ v Hi Ha Hc ltac:(lia))
    as (r' & Hrun & Hi' & Ht' & Hc' & Hn' & _ & Hv).
  exists r'. split_and!; [done|by apply Insert_contents|].
  destruct (Remove_spec r' at_ Hi' ltac:(lia))
    as (r'' & Hrun' & Hi'' & Ht'' & Hc'' & Hn'' & _ & Hv').
  exists r''. split_and!.
  - rewrite Hrun', Hv by lia. destruct (Z.ltb_spec at_ at_); [lia|].
    by rewrite Z.eqb_refl.
  - symmetry. apply contents_eq; [done| |].
    + rewrite length_contents by done. lia.
    + intros i Hr. rewrite lookup_contents by (done || lia). f_equal.
      rewrite Hv' by lia.
      destruct (Z.ltb_spec (Z.of_nat i) at_); rewrite Hv by lia; zsolve.
  - rewrite Len_run. do 2 f_equal. lia.
Qed.


(** ** Calls that only read the ring *)

Lemma readonly_ret {A} (a : A) : readonly (ret a).
Proof. by intros p. Qed.

Lemma readonly_throw {A} e : readonly (throw (A:=A) e).
Proof. by intros p. Qed.

Lemma readonly_load {A} (f : Ring → A) : readonly (load f).
Proof. by intros [r|]. Qed.

Lemma readonly_is_nil : readonly is_nil.
Proof. by intros p. Qed.

Lemma readonly_bind {A B} (m : M A) (k : A → M B) :
  readonly m → (∀ a, readonly (k a)) → readonly (bind m k).
Proof.
  intros Hm Hk p. unfold bind. specialize (Hm p).
  destruct (m p) as [[a|e] p']; cbn in *; subst p'; [apply Hk|done].
Qed.

Lemma readonly_rem a b : readonly (rem a b).
Proof. unfold rem. destruct (b =? 0); [apply readonly_throw|apply readonly_ret]. Qed.

Lemma readonly_buf_load i : readonly (buf_load i).
Proof.
  unfold buf_load. apply readonly_bind; [apply readonly_load|]. intros b.
  destruct ((i <? 0) || (len b <=? i)); [apply readonly_throw|].
  destruct (b !! Z.to_nat i); [apply readonly_ret|apply readonly_throw].
Qed.

Ltac readonly :=
  repeat first
    [ apply readonly_ret | apply readonly_throw | apply readonly_load
    | apply readonly_is_nil | apply readonly_rem | apply readonly_buf_load
    | apply readonly_bind; [|intros ?]
    | match goal with |- readonly (if ?c then _ else _) => destruct c end
    | match goal with |- readonly (match ?c with _ => _ end) => destruct c end ].

Lemma readonly_Len : readonly Len.
Proof. unfold Len. readonly. Qed.

Lemma readonly_Cap : readonly Cap.
Proof. unfold Cap. readonly. Qed.

Lemma readonly_Full : readonly Full.
Proof. unfold Full. readonly. Qed.

Lemma readonly_prev i : readonly (prev i).
Proof. unfold prev. readonly. Qed.

Lemma readonly_Front : readonly Front.
Proof. unfold Front. readonly. Qed.

Lemma readonly_Back : readonly Back.
Proof. unfold Back. readonly. Qed.

Lemma readonly_At i : readonly (At i).
Proof. unfold At, out_of_range. readonly; try apply readonly_Len. Qed.

Lemma readonly_Index_loop f k i : readonly (Index_loop f k i).
Proof. revert i. induction k as [|k IH]; intros i; cbn; readonly; try apply IH. Qed.

Lemma readonly_Index f : readonly (Index f).
Proof. unfold Index. readonly; first [apply readonly_Len|apply readonly_Index_loop]. Qed.

Lemma readonly_RIndex_loop f l k i : readonly (RIndex_loop f l k i).
Proof. revert i. induction k as [|k IH]; intros i; cbn; readonly; try apply IH. Qed.

Lemma readonly_RIndex f : readonly (RIndex f).
Proof.
  unfold RIndex. readonly; first [apply readonly_Len|apply readonly_RIndex_loop].
Qed.

Lemma readonly_void {A} (m : M A) : readonly m → readonly (void m).
Proof. intros Hm. unfold void. readonly; done. Qed.

(** ** Panics that precede every write *)

Lemma buf_store_panic r i x :
  ¬ (0 <= i < cap r) →
  buf_store i x (Some r) = (Panic (PanicRuntime IndexOutOfRange), Some r).
Proof.
  intros H. unfold buf_store, bind, cap in *. cbn.
  by destruct (Z.ltb_spec i 0), (Z.leb_spec (len (buf r)) i); try lia.
Qed.

Lemma PushBack_panic r x :
  ¬ (0 <= tail r < cap r) →
  PushBack x (Some r) = (Panic (PanicRuntime IndexOutOfRange), Some r).
Proof.
  intros H. unfold PushBack. destruct r as [b h t c]. norm.
  by rewrite (run_bind_panic _ _ _ _ _ (buf_store_panic (mkRing b h t c) t x H)).
Qed.

Lemma PushFront_panic r x :
  cap r = 0 → PushFront x (Some r) = (Panic (PanicRuntime DivideByZero), Some r).
Proof.
  intros H. unfold PushFront, prev, rem, bind, cap in *. cbn. by rewrite H.
Qed.

Lemma Insert_back_panic r at_ x :
  0 <= at_ <= count r → count r <= at_ * 2 → count r < cap r → cap r <= maxLen →
  ¬ (0 <= tail r < cap r) →
  Insert at_ x (Some r) = (Panic (PanicRuntime IndexOutOfRange), Some r).
Proof.
  intros Ha Hh Hc Hm Ht. unfold Insert, Full. destruct r as [b h t c]. norm.
  destruct (Z.ltb_spec at_ 0); [lia|]. norm. destruct (Z.ltb_spec c at_); [lia|]. norm.
  destruct (Z.eqb_spec c (len b)); [lia|]. norm.
  unwrap. destruct (Z.ltb_spec (at_ * 2) c); [lia|]. norm.
  by rewrite (run_bind_panic _ _ _ _ _ (PushBack_panic (mkRing b h t c) x Ht)).
Qed.

(** ** [Reset] *)

Lemma len_cleared c h k i b : len (cleared c h k i b) = len b.
Proof.
  revert i b. induction k as [|k IH]; intros i b; [done|].
  cbn. by rewrite IH, len_insert.
Qed.

Lemma cleared_get c h k i b d :
  len b = c → 0 <= h < c → 0 <= i → i + Z.of_nat k <= c → 0 <= d < c →
  cleared c h k i b !!! Z.to_nat ((h + d) mod c) =
    if (i <=? d) && (d <? i + Z.of_nat k) then zero
    else b !!! Z.to_nat ((h + d) mod c).
Proof.
  revert i b. induction k as [|k IH]; intros i b Hb Hh Hi Hk Hd.
  - cbn [cleared]. change (Z.of_nat 0) with 0.
    destruct (Z.leb_spec i d), (Z.ltb_spec d (i + 0)); try done; lia.
  - cbn [cleared]. rewrite IH by (rewrite ?len_insert; lia).
    rewrite Nat2Z.inj_succ.
    destruct (Z.leb_spec (i + 1) d), (Z.ltb_spec d (i + 1 + Z.of_nat k)),
      (Z.leb_spec i d), (Z.ltb_spec d (i + Z.succ (Z.of_nat k)));
      cbn; try lia; try done; zsolve.
Qed.

Lemma iterate_clear k r i :
  sized r → 0 <= head r < cap r → 0 <= i → i + Z.of_nat k <= cap r →
  iterate k
    (λ i, s <- rem (Int.add (head r) i) (cap r);; buf_store s zero;;
          ret (Int.add i 1)) i (Some r) =
    (Ok (i + Z.of_nat k),
     Some (set_buf (cleared (cap r) (head r) k i (buf r)) r)).
Proof.
  revert r i. induction k as [|k IH]; intros r i Hs Hh Hi Hk.
  - destruct r. norm. by rewrite Z.add_0_r.
  - cbn [iterate cleared]. destruct r as [b h t c].
    specialize (IH (mkRing (<[Z.to_nat ((h + i) mod len b) := zero]> b) h t c)
                  (i + 1)).
    etrans; [eapply run_bind|].
    { run. unwrap. reflexivity. }
    norm. rewrite IH by lia.
    do 2 f_equal. lia.
Qed.

Lemma Reset_spec r :
  inv r →
  ∃ r', Reset (Some r) = (Ok tt, Some r') ∧ inv r' ∧
    head r' = 0 ∧ tail r' = 0 ∧ count r' = 0 ∧ cap r' = cap r ∧
    (zeroed r → ∀ s, 0 <= s < cap r → buf r' !! Z.to_nat s = Some zero).
Proof.
  intros Hi. unfold Reset, Len.
  destruct (decide (count r = 0)) as [Hz|Hnz].
  { destruct r as [b h t c]. norm. subst c. norm.
    eexists; split; [done|]. split_and!; try rlia.
    intros Hz s Hs. apply Hz; [done|]. intros (i & Hr & _). cbn in Hr. lia. }
  assert (sized r ∧ 0 <= head r < cap r ∧ 0 < count r <= cap r) as (Hs & Hh & Hc)
    by (unfold inv, sized in *; lia).
  pose proof (iterate_clear (Z.to_nat (count r)) r 0 Hs Hh ltac:(lia) ltac:(lia)) as Hrun.
  destruct r as [b h t c]. norm.
  rewrite (run_bind _ _ _ _ _ Hrun). norm.
  eexists; split; [done|].
  split_and!; try (unfold inv, cap in *; cbn; rewrite ?len_cleared; lia).
  intros Hz s Hs'.
  set (r := mkRing b h t c) in *.
  assert (inv r) as Hir by done.
  destruct (slot_surj r s Hir Hs') as (d & Hd & <-).
  pose proof (cleared_get (len b) h (Z.to_nat c) 0 b d eq_refl
                ltac:(lia) ltac:(lia) ltac:(lia) Hd) as Hget.
  rewrite list_lookup_lookup_total_lt.
  2:{ pose proof (len_cleared (len b) h (Z.to_nat c) 0 b) as Hl.
      unfold len in *. cbn. lia. }
  f_equal. unfold slot, cap. cbn. rewrite Hget.
  destruct (Z.leb_spec 0 d), (Z.ltb_spec d (0 + Z.of_nat (Z.to_nat c)));
    cbn; try lia; [done|].
  pose proof (proj1 (zeroed_elem r Hir) Hz) as Hz'. apply (Hz' d). cbn. lia.
Qed.


(** ** [Resize] *)

Lemma copy_spec (dst src : list T) :
  ∃ d' k, copy dst src = (d', k) ∧ len d' = len dst ∧
    k = Z.min (len dst) (len src) ∧
    (∀ i, (i < Z.to_nat k)%nat → d' !! i = src !! i) ∧
    (∀ i, (Z.to_nat k <= i)%nat → d' !! i = dst !! i).
Proof.
  unfold copy, len. eexists _, _. split; [done|].
  set (n := Nat.min (length dst) (length src)).
  assert (length (take n src) = n) as Hl by (rewrite length_take; lia).
  split_and!.
  - rewrite length_app, Hl, length_drop. lia.
  - lia.
  - intros i Hi. rewrite lookup_app_l by lia. apply lookup_take_lt. lia.
  - intros i Hi. rewrite lookup_app_r by lia. rewrite lookup_drop, Hl.
    f_equal. lia.
Qed.

Lemma slice_run (b : list T) lo hi p :
  0 <= lo <= hi → hi <= len b →
  slice b lo hi p = (Ok (take (Z.to_nat (hi - lo)) (drop (Z.to_nat lo) b)), p).
Proof.
  intros H1 H2. unfold slice.
  by destruct (Z.ltb_spec lo 0), (Z.ltb_spec hi lo), (Z.ltb_spec (len b) hi); try lia.
Qed.

Lemma len_slice (b : list T) lo hi :
  0 <= lo <= hi → hi <= len b →
  len (take (Z.to_nat (hi - lo)) (drop (Z.to_nat lo) b)) = hi - lo.
Proof. intros H1 H2. unfold len in *. rewrite length_take, length_drop. lia. Qed.

Lemma lookup_slice (b : list T) lo hi i :
  0 <= lo <= hi → hi <= len b → (i < Z.to_nat (hi - lo))%nat →
  take (Z.to_nat (hi - lo)) (drop (Z.to_nat lo) b) !! i = b !! (Z.to_nat lo + i)%nat.
Proof. intros H1 H2 Hi. by rewrite lookup_take_lt, lookup_drop by lia. Qed.

Lemma bind_assoc {A B C} (m : M A) (k1 : A → M B) (k2 : B → M C) p :
  bind (bind m k1) k2 p = bind m (λ a, bind (k1 a) k2) p.
Proof. unfold bind. by destruct (m p) as [[a|e] p']. Qed.

Lemma make_run n :
  0 <= n <= maxLen → make n = Ok (replicate (Z.to_nat n) zero).
Proof. intros H. unfold make. by destruct (Z.ltb_spec n 0), (Z.ltb_spec maxLen n); try lia. Qed.

Lemma make_panic n :
  ¬ (0 <= n <= maxLen) → make n = Panic (PanicRuntime MakesliceLen).
Proof. intros H. unfold make. by destruct (Z.ltb_spec n 0), (Z.ltb_spec maxLen n); try lia. Qed.

(** The ring a successful [Resize] leaves: the first [k] slots of the new
    storage were copied from the old one, the others are as [make] left
    them. *)
Lemma Resize_run r n :
  inv r → count r ≠ n → 0 <= n <= maxLen →
  ∃ nb k, Resize n (Some r) = (Ok tt, Some (mkRing nb 0 k k)) ∧
    len nb = n ∧ 0 <= k <= n ∧
    (∀ s, k <= s < n → nb !! Z.to_nat s = Some zero) ∧
    k = (if head r <? tail r then Z.min n (tail r - head r)
         else Z.min n (cap r - head r) +
              (if Z.min n (cap r - head r) <? cap r
               then Z.min (n - Z.min n (cap r - head r)) (tail r) else 0)) ∧
    (∀ i, 0 <= i < k →
       nb !! Z.to_nat i =
         buf r !! Z.to_nat (if head r + i <? cap r then head r + i
                            else head r + i - cap r)).
Proof.
  intros Hi Hne Hn. unfold Resize. destruct r as [b h t c].
  unfold inv, cap in Hi. cbn in Hi. norm.
  destruct (Z.eqb_spec c n); [done|]. norm.
  rewrite make_run by done. cbn [lift]. norm.
  set (nb0 := replicate (Z.to_nat n) zero).
  assert (len nb0 = n) as Hl0 by (unfold len, nb0; rewrite length_replicate; lia).
  assert (∀ i, (i < Z.to_nat n)%nat → nb0 !! i = Some zero) as Hz0
    by (intros i Hlt; by apply lookup_replicate_2).
  destruct (Z.ltb_spec h t) as [Hlt|Hge].
  - pose proof (len_slice b h t ltac:(lia) ltac:(lia)) as Hls.
    pose proof (slice_run b h t) as Hsl.
    set (src := take _ _) in *.
    destruct (copy_spec nb0 src) as (d1 & k & Hcp & Hl1 & Hk & Hfst & Hrest).
    exists d1, k. split.
    { rewrite ?bind_assoc; norm; rewrite ?bind_assoc. rewrite (run_bind _ _ _ _ _ (Hsl _ ltac:(lia) ltac:(lia))).
      norm. by rewrite Hcp. }
    split_and!; try lia.
    + intros s Hs. rewrite Hrest by lia. apply Hz0. lia.
    + intros i Hr. rewrite Hfst by lia. unfold src.
      rewrite lookup_slice by lia.
      destruct (Z.ltb_spec (h + i) (len b)); [|lia]. f_equal. lia.
  - pose proof (len_slice b h (len b) ltac:(lia) ltac:(lia)) as Hls.
    pose proof (slice_run b h (len b)) as Hsl.
    set (src := take _ _) in *.
    destruct (copy_spec nb0 src) as (d1 & k1 & Hcp & Hl1 & Hk1 & Hfst & Hrest).
    rewrite ?Hls, ?Hl0 in *.
    destruct (Z.ltb_spec (Z.min n (len b - h)) (len b)) as [Hk|Hk].
    + pose proof (len_slice b 0 t ltac:(lia) ltac:(lia)) as Hls2.
      pose proof (len_slice d1 k1 (len d1) ltac:(lia) ltac:(lia)) as Hlr.
      pose proof (slice_run b 0 t) as Hsl2.
      pose proof (slice_run d1 k1 (len d1)) as Hslr.
      set (src2 := take _ (drop (Z.to_nat 0) b)) in *.
      set (rest := take _ (drop (Z.to_nat k1) d1)) in *.
      destruct (copy_spec rest src2) as (d2 & m & Hcp2 & Hl2 & Hm & Hfst2 & Hrest2).
      assert (length (take (Z.to_nat k1) d1) = Z.to_nat k1) as Hlt1
        by (rewrite length_take; unfold len in *; lia).
      exists (take (Z.to_nat k1) d1 ++ d2), (k1 + m). split.
      { rewrite ?bind_assoc; norm; rewrite ?bind_assoc.
        rewrite (run_bind _ _ _ _ _ (Hsl _ ltac:(lia) ltac:(lia))).
        norm. rewrite Hcp.
        destruct (Z.ltb_spec k1 (len b)); [|lia].
        rewrite ?bind_assoc; norm; rewrite ?bind_assoc.
        rewrite (run_bind _ _ _ _ _ (Hsl2 _ ltac:(lia) ltac:(lia))).
        norm; rewrite ?bind_assoc.
        rewrite (run_bind _ _ _ _ _ (Hslr _ ltac:(lia) ltac:(lia))). norm.
        rewrite Hcp2. norm. by unwrap. }
      split_and!.
      * unfold len in *. rewrite length_app, Hlt1. lia.
      * lia.
      * lia.
      * intros s Hs. rewrite lookup_app_r by lia. rewrite Hlt1, Hrest2 by lia.
        unfold rest. rewrite lookup_take_lt, lookup_drop by (unfold len in *; lia).
        rewrite Hrest by lia. apply Hz0. lia.
      * lia.
      * intros i Hr. destruct (Z.lt_ge_cases i k1) as [Hi1|Hi1].
        -- rewrite lookup_app_l by lia. rewrite lookup_take_lt, Hfst by lia.
           unfold src. rewrite lookup_slice by lia.
           destruct (Z.ltb_spec (h + i) (len b)); [|lia]. f_equal. lia.
        -- rewrite lookup_app_r by lia. rewrite Hlt1, Hfst2 by lia.
           unfold src2. rewrite lookup_slice by lia.
           destruct (Z.ltb_spec (h + i) (len b)); [lia|]. f_equal. lia.
    + exists d1, k1. split.
      { rewrite ?bind_assoc; norm; rewrite ?bind_assoc.
        rewrite (run_bind _ _ _ _ _ (Hsl _ ltac:(lia) ltac:(lia))).
        norm. rewrite Hcp.
        destruct (Z.ltb_spec k1 (len b)); [lia|]. done. }
      split_and!; try lia.
      * intros s Hs. rewrite Hrest by lia. apply Hz0. lia.
      * intros i Hr. rewrite Hfst by lia. unfold src.
        rewrite lookup_slice by lia.
        destruct (Z.ltb_spec (h + i) (len b)); [|lia]. f_equal. lia.
Qed.


(** ** The invariant of reachable states *)

Lemma New_spec capacity r :
  New capacity = Ok r →
  wf r ∧ zeroed r ∧ count r = 0 ∧ cap r = capacity ∧ 0 <= capacity <= maxLen.
Proof.
  unfold New, make.
  destruct (Z.ltb_spec capacity 0), (Z.ltb_spec maxLen capacity); cbn; try done.
  intros [= <-]. unfold wf, inv, zeroed, cap, len. cbn. rewrite length_replicate.
  split_and!; try lia. intros s Hs _. apply lookup_replicate_2. lia.
Qed.

Ltac zeroed_by Hi Hz Hv :=
  apply (zeroed_view _ _ Hi); [done|exact Hz|];
  let d := fresh "d" in let Hd := fresh "Hd" in
  intros d Hd; unfold inv in *; rewrite Hv by lia.

Lemma steady_refl r : steady r r.
Proof. by split. Qed.

Lemma steady_wf r r' : steady r r' → inv r' → wf r → wf r'.
Proof. intros [Hc Ht] Hi' [Hi Hw]. split; [done|]. rewrite Hc. lia. Qed.

Ltac steady :=
  match goal with
  | |- steady _ _ => split; [first [done|lia]|first [done|by auto|intros; rlia]]
  end.
Ltac unchanged r := exists r; split_and!; first [done|apply steady_refl].

Lemma PushBack_good r x :
  inv r → zeroed r →
  ∃ r', snd (PushBack x (Some r)) = Some r' ∧ inv r' ∧ zeroed r' ∧ steady r r'.
Proof.
  intros Hi Hz. destruct (decide (0 <= tail r < cap r)) as [Ht|Ht].
  - destruct (PushBack_spec r x Hi ltac:(lia) ltac:(lia))
      as (r' & Hrun & Hi' & Ht' & Hc' & Hn' & _ & _ & Hv).
    exists r'. rewrite Hrun. split_and!; try done; try steady.
    destruct (Z.eqb_spec (count r) (cap r)) as [Hf|Hf].
    { apply zeroed_full; [done|lia]. }
    zeroed_by Hi Hz Hv. right. exists d. split; [lia|]. zsolve.
  - rewrite PushBack_panic by done. unchanged r.
Qed.

Lemma PushFront_good r x :
  inv r → zeroed r →
  ∃ r', snd (PushFront x (Some r)) = Some r' ∧ inv r' ∧ zeroed r' ∧ steady r r'.
Proof.
  intros Hi Hz. destruct (decide (cap r = 0)) as [Hc|Hc].
  { rewrite PushFront_panic by done. unchanged r. }
  destruct (PushFront_spec r x Hi ltac:(rlia))
    as (r' & Hrun & Hi' & Ht' & Hc' & Hn' & _ & _ & Hv).
  exists r'. rewrite Hrun. split_and!; try done; try steady.
  destruct (Z.eqb_spec (count r) (cap r)) as [Hf|Hf].
  { apply zeroed_full; [done|lia]. }
  zeroed_by Hi Hz Hv. right. exists (d - 1). split; [lia|]. zsolve.
Qed.

Lemma PopFront_good r :
  inv r → zeroed r →
  ∃ r', snd (PopFront (Some r)) = Some r' ∧ inv r' ∧ zeroed r' ∧ steady r r'.
Proof.
  intros Hi Hz. destruct (decide (0 < count r)) as [Hc|Hc].
  - destruct (PopFront_spec r Hi Hc) as (r' & Hrun & Hi' & Ht' & Hc' & Hn' & _ & _ & Hv).
    exists r'. rewrite Hrun. split_and!; try done; try steady.
    zeroed_by Hi Hz Hv. destruct (Z.eqb_spec d (cap r - 1)); [by left|right].
    exists (d + 1). split; [lia|done].
  - rewrite PopFront_empty by lia. unchanged r.
Qed.

Lemma PopBack_good r :
  inv r → zeroed r →
  ∃ r', snd (PopBack (Some r)) = Some r' ∧ inv r' ∧ zeroed r' ∧ steady r r'.
Proof.
  intros Hi Hz. destruct (decide (0 < count r)) as [Hc|Hc].
  - destruct (PopBack_spec r Hi Hc) as (r' & Hrun & Hi' & Ht' & Hc' & Hn' & _ & _ & Hv).
    exists r'. rewrite Hrun. split_and!; try done; try steady.
    zeroed_by Hi Hz Hv. destruct (Z.eqb_spec d (count r - 1)); [by left|right].
    exists d. split; [lia|done].
  - rewrite PopBack_empty by lia. unchanged r.
Qed.

Lemma Set_good r i x :
  inv r → zeroed r →
  ∃ r', snd (Set_ i x (Some r)) = Some r' ∧ inv r' ∧ zeroed r' ∧ steady r r'.
Proof.
  intros Hi Hz. destruct (decide (0 <= i < count r)) as [Hr|Hr].
  - destruct (Set_spec r i x Hi Hr) as (r' & Hrun & Hi' & Hc' & Hn' & _ & Ht' & Hv).
    exists r'. rewrite Hrun. split_and!; try done; try steady.
    zeroed_by Hi Hz Hv. right. exists d. split; [lia|]. zsolve.
  - rewrite Set_out_of_range by done. unchanged r.
Qed.

Lemma Insert_good r i x :
  inv r → zeroed r →
  ∃ r', snd (Insert i x (Some r)) = Some r' ∧ inv r' ∧ zeroed r' ∧ steady r r'.
Proof.
  intros Hi Hz. destruct (decide (0 <= i <= count r)) as [Hr|Hr].
  2:{ rewrite Insert_out_of_range by done. unchanged r. }
  destruct (decide (count r = cap r)) as [Hf|Hf].
  { rewrite Insert_full by done. unchanged r. }
  destruct (decide (tail r < cap r ∨ i * 2 < count r)) as [Ht|Ht].
  - destruct (Insert_spec r i x Hi Hr ltac:(rlia) Ht)
      as (r' & Hrun & Hi' & Ht' & Hc' & _ & Hz' & _).
    exists r'. rewrite Hrun. split_and!; auto; steady.
  - rewrite Insert_back_panic by rlia. unchanged r.
Qed.

Lemma Remove_good r i :
  inv r → zeroed r →
  ∃ r', snd (Remove i (Some r)) = Some r' ∧ inv r' ∧ zeroed r' ∧ steady r r'.
Proof.
  intros Hi Hz. destruct (decide (0 <= i < count r)) as [Hr|Hr].
  - destruct (Remove_spec r i Hi Hr) as (r' & Hrun & Hi' & Ht' & Hc' & _ & Hz' & _).
    exists r'. rewrite Hrun. split_and!; auto; steady.
  - rewrite Remove_out_of_range by done. unchanged r.
Qed.

Lemma Reset_good r :
  inv r → zeroed r →
  ∃ r', snd (Reset (Some r)) = Some r' ∧ inv r' ∧ zeroed r' ∧ steady r r'.
Proof.
  intros Hi Hz.
  destruct (Reset_spec r Hi) as (r' & Hrun & Hi' & _ & Ht' & _ & Hc' & Hall).
  exists r'. rewrite Hrun. split_and!; try done; try steady.
  intros s Hs _. apply Hall; [done|lia].
Qed.

Lemma Resize_good r n :
  inv r → zeroed r →
  ∃ r', snd (Resize n (Some r)) = Some r' ∧ inv r' ∧ zeroed r'.
Proof.
  intros Hi Hz. destruct (decide (count r = n)) as [Hc|Hc].
  { exists r. split; [|done]. unfold Resize, bind. cbn.
    by destruct (Z.eqb_spec (count r) n). }
  destruct (decide (0 <= n <= maxLen)) as [Hn|Hn].
  - destruct (Resize_run r n Hi Hc Hn) as (nb & k & Hrun & Hl & Hk & Hzero & _).
    eexists. rewrite Hrun. split; [done|]. split.
    + unfold inv, cap. cbn. lia.
    + intros s Hs Hocc. unfold cap in Hs. cbn in Hs. apply Hzero.
      split; [|lia]. apply Z.nlt_ge. intros Hlt. apply Hocc. exists s.
      unfold slot, cap. cbn. split; [lia|]. rewrite Z.mod_small; lia.
  - exists r. split; [|done]. unfold Resize, bind. cbn.
    destruct (Z.eqb_spec (count r) n); [done|]. by rewrite make_panic.
Qed.

Lemma rotate_back_good k r :
  inv r → 0 < cap r → zeroed r →
  ∃ r', iterate k (λ _, rotate_back_step (cap r)) tt (Some r) = (Ok tt, Some r') ∧
    inv r' ∧ zeroed r' ∧ steady r r'.
Proof.
  revert r. induction k as [|k IH]; intros r Hi Hc Hz.
  { exists r. split_and!; first [done|apply steady_refl]. }
  destruct (rotate_back_step_spec r Hi Hc)
    as (r1 & Hrun & Hi1 & Ht1 & Hc1 & Hn1 & _ & Hv1).
  cbn [iterate]. rewrite (run_bind _ _ _ _ _ Hrun).
  assert (zeroed r1) as Hz1.
  { zeroed_by Hi Hz Hv1. rewrite (Z.mod_small (count r)) by lia.
    destruct (Z.eqb_spec d (count r)); [by left|right].
    exists (d - 1). split; [lia|]. zsolve. }
  rewrite <- Hc1.
  destruct (IH r1 Hi1 ltac:(lia) Hz1) as (r' & Hrun' & Hi' & Hz' & Hc' & Ht').
  exists r'. split_and!; try done. split; [lia|]. intros _. by apply Ht'.
Qed.

Lemma rotate_fwd_good k r :
  inv r → tail r < cap r → zeroed r →
  ∃ r', iterate k (λ _, rotate_fwd_step (cap r)) tt (Some r) = (Ok tt, Some r') ∧
    inv r' ∧ zeroed r' ∧ steady r r'.
Proof.
  revert r. induction k as [|k IH]; intros r Hi Ht Hz.
  { exists r. split_and!; first [done|apply steady_refl]. }
  destruct (rotate_fwd_step_spec r Hi ltac:(rlia) Ht)
    as (r1 & Hrun & Hi1 & Ht1 & Hc1 & Hn1 & _ & Hv1).
  cbn [iterate]. rewrite (run_bind _ _ _ _ _ Hrun).
  assert (zeroed r1) as Hz1.
  { zeroed_by Hi Hz Hv1.
    destruct (Z.eqb_spec d (cap r - 1)); [by left|right].
    exists (d + 1). split; [lia|]. zsolve. }
  rewrite <- Hc1.
  destruct (IH r1 Hi1 Ht1 Hz1) as (r' & Hrun' & Hi' & Hz' & Hc' & Ht').
  exists r'. split_and!; try done. split; [lia|]. intros _. by apply Ht'.
Qed.

Lemma Rotate_good r n :
  inv r → zeroed r →
  ∃ r', snd (Rotate n (Some r)) = Some r' ∧ inv r' ∧ zeroed r' ∧ steady r r'.
Proof.
  intros Hi Hz. destruct (Z.le_gt_cases (count r) 1) as [Hc|Hc].
  { rewrite Rotate_small by done. unchanged r. }
  rewrite Rotate_run by done. cbn zeta.
  pose proof (rem_range n (count r) ltac:(lia)) as Hn.
  destruct (Z.eqb_spec (Z.rem n (count r)) 0) as [Hz0|Hz0]; [unchanged r|].
  assert (0 < cap r) as Hcap by rlia.
  destruct (Z.eqb_spec (head r) (tail r)) as [Hf|Hf].
  { eexists; split; [done|].
    assert (count r = cap r) as Hfull by rlia.
    assert (inv (mkRing (buf r) ((head r + Z.rem n (count r) + cap r) mod cap r)
                   ((head r + Z.rem n (count r) + cap r) mod cap r) (count r))) as Hi'.
    { generalize dependent (Z.rem n (count r)). intros n' Hn Hz0.
      unfold inv, cap in *. cbn. split_and!; try lia; zsolve. }
    split_and!; [done|by apply zeroed_full|].
    split; [done|]. intros _. unfold cap. cbn. apply Z.mod_pos_bound. rlia. }
  destruct (Z.ltb_spec (Z.rem n (count r)) 0) as [Hneg|Hpos].
  - destruct (rotate_back_good (Z.to_nat (- Z.rem n (count r))) r Hi Hcap Hz)
      as (r' & -> & Hi' & Hz').
    by exists r'.
  - destruct (decide (tail r < cap r)) as [Ht|Ht].
    + destruct (rotate_fwd_good (Z.to_nat (Z.rem n (count r))) r Hi Ht Hz)
        as (r' & -> & Hi' & Hz').
      by exists r'.
    + destruct (Z.to_nat (Z.rem n (count r))) as [|k] eqn:Hk; [lia|].
      cbn [iterate].
      rewrite (run_bind_panic _ _ _ _ _
                 (rotate_fwd_step_panic r ltac:(rlia) ltac:(rlia) ltac:(rlia))).
      unchanged r.
Qed.

(** Every call keeps the bookkeeping invariant and the zero value in the
    free slots; every call other than [Resize] keeps the capacity and the
    invariants of the data model. *)
Lemma exec_good c r :
  inv r → zeroed r →
  ∃ r', snd (exec c (Some r)) = Some r' ∧ inv r' ∧ zeroed r' ∧
    ((∀ n, c ≠ CallResize n) → steady r r').
Proof.
  intros Hi Hz.
  assert (∀ A (m : M A), readonly m →
            ∃ r', snd (void m (Some r)) = Some r' ∧ inv r' ∧ zeroed r' ∧
              ((∀ n, c ≠ CallResize n) → steady r r')) as Hro.
  { intros A m Hm. exists r. rewrite (readonly_void m Hm).
    split_and!; try done. }
  assert (∀ A (m : M A),
            (∃ r', snd (m (Some r)) = Some r' ∧ inv r' ∧ zeroed r' ∧ steady r r') →
            ∃ r', snd (void m (Some r)) = Some r' ∧ inv r' ∧ zeroed r' ∧
              ((∀ n, c ≠ CallResize n) → steady r r')) as Hvoid.
  { intros A m (r' & Hrun & Hi' & Hz' & Hst). exists r'. split_and!; try done.
    unfold void, bind. by destruct (m (Some r)) as [[a|e] p]. }
  assert (∀ (m : M unit),
            (∃ r', snd (m (Some r)) = Some r' ∧ inv r' ∧ zeroed r' ∧ steady r r') →
            ∃ r', snd (m (Some r)) = Some r' ∧ inv r' ∧ zeroed r' ∧
              ((∀ n, c ≠ CallResize n) → steady r r')) as Hunit.
  { intros m (r' & Hrun & Hi' & Hz' & Hst). exists r'. by split_and!. }
  destruct c; cbn [exec].
  - apply Hro, readonly_Cap.
  - apply Hro, readonly_Len.
  - apply Hro, readonly_Full.
  - by apply Hunit, PushBack_good.
  - by apply Hunit, PushFront_good.
  - by apply Hvoid, PopFront_good.
  - by apply Hvoid, PopBack_good.
  - apply Hro, readonly_Front.
  - apply Hro, readonly_Back.
  - apply Hro, readonly_At.
  - by apply Hunit, Set_good.
  - by apply Hunit, Rotate_good.
  - apply Hro, readonly_Index.
  - apply Hro, readonly_RIndex.
  - by apply Hunit, Insert_good.
  - by apply Hvoid, Remove_good.
  - by apply Hunit, Reset_good.
  - destruct (Resize_good r n Hi Hz) as (r' & Hrun & Hi' & Hz').
    exists r'. split_and!; try done. intros Hne. by destruct (Hne n).
Qed.

Lemma exec_wf c r r' :
  wf r → zeroed r → (∀ n, c ≠ CallResize n) →
  snd (exec c (Some r)) = Some r' → wf r' ∧ zeroed r' ∧ cap r' = cap r.
Proof.
  intros Hw Hz Hne Hrun.
  destruct (exec_good c r (wf_inv r Hw) Hz) as (r'' & Hrun' & Hi' & Hz' & Hst).
  rewrite Hrun in Hrun'. injection Hrun' as ->.
  split_and!; [|done|apply Hst, Hne]. by apply (steady_wf r); [apply Hst| |].
Qed.

Lemma reachable_good r : reachable r → inv r ∧ zeroed r.
Proof.
  induction 1 as [capacity r Hnew|c r r' Hr [Hi Hz] Hrun].
  - destruct (New_spec capacity r Hnew) as ([Hi _] & Hz & _). done.
  - destruct (exec_good c r Hi Hz) as (r'' & Hrun' & Hi' & Hz' & _).
    rewrite Hrun in Hrun'. by injection Hrun' as ->.
Qed.

(** C9: in every state that a ring made by [New] reaches through calls
    (also calls that panicked), every storage slot that holds no logical
    element holds the zero value.  The slot vacated by a [PopFront], a
    [PopBack], a [Remove] or a pass of one of the loops of [Rotate] holds
    the zero value when the call returns; [Reset] returns and leaves
    every slot of the storage at the zero value, [Len()] at 0 and [Cap()]
    as it was. *)
Theorem vacated_slots_are_zero r :
  reachable r →
  zeroed r ∧
  (∀ x r', PopFront (Some r) = (Ok x, Some r') →
     buf r' !! Z.to_nat (head r) = Some zero) ∧
  (∀ x r', PopBack (Some r) = (Ok x, Some r') →
     buf r' !! Z.to_nat (tail r') = Some zero) ∧
  (∀ i x r', Remove i (Some r) = (Ok x, Some r') →
     buf r' !! Z.to_nat (if i * 2 <? count r then head r else tail r') = Some zero) ∧
  (∀ r', rotate_fwd_step (cap r) (Some r) = (Ok tt, Some r') →
     buf r' !! Z.to_nat (head r) = Some zero) ∧
  (∀ r', rotate_back_step (cap r) (Some r) = (Ok tt, Some r') →
     buf r' !! Z.to_nat (tail r') = Some zero) ∧
  (∃ r', Reset (Some r) = (Ok tt, Some r') ∧
     (∀ s, 0 <= s < cap r' → buf r' !! Z.to_nat s = Some zero) ∧
     Len (Some r') = (Ok 0, Some r') ∧
     Cap (Some r') = (Ok (cap r), Some r')).
Proof.
  intros Hr. destruct (reachable_good r Hr) as [Hi Hz].
  assert (∀ (b : list T) i, 0 <= i < len b →
            <[Z.to_nat i := zero]> b !! Z.to_nat i = Some zero) as Hins.
  { intros b i Hb. apply list_lookup_insert_eq. unfold len in Hb. lia. }
  split_and!; [done|..].
  - intros x r' Hrun. destruct (decide (0 < count r)) as [Hc|Hc].
    + rewrite PopFront_run in Hrun by rlia. injection Hrun as _ <-. cbn.
      apply Hins. rlia.
    + by rewrite PopFront_empty in Hrun by lia.
  - intros x r' Hrun. destruct (decide (0 < count r)) as [Hc|Hc].
    + rewrite PopBack_run in Hrun by rlia. injection Hrun as _ <-. cbn.
      apply Hins. apply Z.mod_pos_bound. rlia.
    + by rewrite PopBack_empty in Hrun by lia.
  - intros i x r' Hrun. destruct (decide (0 <= i < count r)) as [Hc|Hc].
    2:{ by rewrite Remove_out_of_range in Hrun. }
    destruct (Z.ltb_spec (i * 2) (count r)) as [Hlt|Hge].
    + rewrite Remove_front_run in Hrun by rlia. injection Hrun as _ <-. cbn.
      apply Hins. rewrite len_shift_bwd. rlia.
    + rewrite Remove_back_run in Hrun by rlia. injection Hrun as _ <-. cbn.
      apply Hins. rewrite len_shift_fwd. apply Z.mod_pos_bound. rlia.
  - intros r' Hrun. destruct (decide (0 < cap r ∧ tail r < cap r)) as [Hc|Hc].
    + rewrite rotate_fwd_step_run in Hrun by rlia. injection Hrun as <-. cbn.
      apply Hins. rewrite len_insert. rlia.
    + destruct (decide (cap r = 0)) as [Hc0|Hc0].
      * exfalso. unfold rotate_fwd_step, bind, buf_load, bind in Hrun.
        destruct r as [b h t c]. unfold cap in Hc0. cbn in *.
        rewrite Hc0 in Hrun.
        destruct (Z.ltb_spec h 0), (Z.leb_spec 0 h); try lia; cbn in Hrun; done.
      * by rewrite rotate_fwd_step_panic in Hrun by rlia.
  - intros r' Hrun. destruct (decide (0 < cap r)) as [Hc|Hc].
    + rewrite rotate_back_step_run in Hrun by rlia. injection Hrun as <-. cbn.
      apply Hins. rewrite len_insert. apply Z.mod_pos_bound. rlia.
    + exfalso. unfold rotate_back_step, bind, rem in Hrun.
      destruct r as [b h t c]. unfold cap in *. cbn in *.
      by replace (len b) with 0 in Hrun by (unfold len in *; lia).
  - destruct (Reset_spec r Hi) as (r' & Hrun & Hi' & _ & _ & Hn' & Hc' & Hall).
    exists r'. split_and!; [done| |by rewrite Len_run, Hn'|by rewrite Cap_run, Hc'].
    intros s Hs. apply Hall; [done|lia].
Qed.


(** ** [Index] and [RIndex] *)

Lemma Index_loop_spec f r k i :
  inv r → 0 <= i → i + Z.of_nat k = count r →
  ∃ z, Index_loop f k i (Some r) = (Ok z, Some r) ∧
    ((z = -1 ∧ ∀ j, i <= j < count r → f (elem r j) = false) ∨
     (i <= z < count r ∧ f (elem r z) = true ∧
      ∀ j, i <= j < z → f (elem r j) = false)).
Proof.
  revert i. induction k as [|k IH]; intros i Hi Hi0 Hk.
  - exists (-1). split; [done|]. left. split; [done|]. lia.
  - assert (sized r ∧ 0 <= head r < cap r ∧ count r <= cap r) as (Hs & Hh & Hc) by rlia.
    assert (Index_loop f (S k) i (Some r) =
              if f (elem r i) then (Ok i, Some r)
              else Index_loop f k (i + 1) (Some r)) as ->.
    { cbn [Index_loop]. unfold elem, slot. destruct r as [b h t c]. run.
      destruct (f _); [done|]. by unwrap. }
    destruct (f (elem r i)) eqn:Hf.
    + exists i. split; [done|]. right. split_and!; [lia|lia|done|lia].
    + destruct (IH (i + 1) Hi ltac:(lia) ltac:(lia)) as (z & Hrun & Hz).
      exists z. split; [done|]. destruct Hz as [[-> Hall]|(Hr & Hfz & Hall)].
      * left. split; [done|]. intros j Hj.
        destruct (decide (j = i)) as [->|]; [done|]. apply Hall. lia.
      * right. split_and!; [lia|lia|done|]. intros j Hj.
        destruct (decide (j = i)) as [->|]; [done|]. apply Hall. lia.
Qed.

(** [Index(f)] returns the least logical index whose element satisfies
    [f], or -1 when there is none. *)
Lemma Index_spec f r :
  inv r →
  ∃ z, Index f (Some r) = (Ok z, Some r) ∧
    ((z = -1 ∧ ∀ j, 0 <= j < count r → f (elem r j) = false) ∨
     (0 <= z < count r ∧ f (elem r z) = true ∧
      ∀ j, 0 <= j < z → f (elem r j) = false)).
Proof.
  intros Hi. unfold Index, Len. destruct (Z.ltb_spec 0 (count r)) as [Hc|Hc].
  - destruct (Index_loop_spec f r (Z.to_nat (count r)) 0 Hi ltac:(lia) ltac:(lia))
      as (z & Hrun & Hz).
    exists z. split; [|done]. destruct r as [b h t c]. norm.
    by destruct (Z.ltb_spec 0 c); [|lia].
  - exists (-1). split.
    + destruct r as [b h t c]. norm. by destruct (Z.ltb_spec 0 c); [lia|].
    + left. split; [done|]. lia.
Qed.

Lemma RIndex_loop_spec f r k i :
  inv r → Z.of_nat k = i + 1 → i < count r →
  ∃ z, RIndex_loop f (count r) k i (Some r) = (Ok z, Some r) ∧
    ((z = -1 ∧ ∀ j, 0 <= j <= i → f (relem r j) = false) ∨
     (0 <= z <= i ∧ f (relem r z) = true ∧
      ∀ j, z < j <= i → f (relem r j) = false)).
Proof.
  revert i. induction k as [|k IH]; intros i Hi Hk Hc.
  - exists (-1). split; [done|]. left. split; [done|]. lia.
  - assert (sized r ∧ 0 <= head r < cap r ∧ 0 < count r <= cap r) as (Hs & Hh & Hc') by rlia.
    assert (RIndex_loop f (count r) (S k) i (Some r) =
              if f (relem r i) then (Ok i, Some r)
              else RIndex_loop f (count r) k (i - 1) (Some r)) as ->.
    { cbn [RIndex_loop]. unfold relem.
      pose proof (Z.mod_pos_bound (head r + i) (count r) ltac:(lia)).
      destruct r as [b h t c]. run.
      destruct (f _); [done|]. by unwrap. }
    destruct (f (relem r i)) eqn:Hf.
    + exists i. split; [done|]. right. split_and!; [lia|lia|done|lia].
    + destruct (IH (i - 1) Hi ltac:(lia) ltac:(lia)) as (z & Hrun & Hz).
      exists z. split; [done|]. destruct Hz as [[-> Hall]|(Hr & Hfz & Hall)].
      * left. split; [done|]. intros j Hj.
        destruct (decide (j = i)) as [->|]; [done|]. apply Hall. lia.
      * right. split_and!; [lia|lia|done|]. intros j Hj.
        destruct (decide (j = i)) as [->|]; [done|]. apply Hall. lia.
Qed.

(** [RIndex(f)] returns the greatest logical index at which the element
    it reads satisfies [f], or -1 when there is none. *)
Lemma RIndex_spec f r :
  inv r →
  ∃ z, RIndex f (Some r) = (Ok z, Some r) ∧
    ((z = -1 ∧ ∀ j, 0 <= j < count r → f (relem r j) = false) ∨
     (0 <= z < count r ∧ f (relem r z) = true ∧
      ∀ j, z < j < count r → f (relem r j) = false)).
Proof.
  intros Hi. unfold RIndex, Len. destruct (Z.ltb_spec 0 (count r)) as [Hc|Hc].
  - destruct (RIndex_loop_spec f r (Z.to_nat (count r)) (count r - 1) Hi
                ltac:(lia) ltac:(lia)) as (z & Hrun & Hz).
    exists z. split.
    + destruct r as [b h t c]. norm. destruct (Z.ltb_spec 0 c); [|lia]. norm.
      unwrap. by rewrite wrap_small by rlia.
    + destruct Hz as [[-> Hall]|(Hr & Hfz & Hall)].
      * left. split; [done|]. intros j Hj. apply Hall. lia.
      * right. split_and!; [lia|lia|done|]. intros j Hj. apply Hall. lia.
  - exists (-1). split.
    + destruct r as [b h t c]. norm. by destruct (Z.ltb_spec 0 c); [lia|].
    + left. split; [done|]. lia.
Qed.

(** What [RIndex] reads is the logical element when the ring is full or
    its head is at slot 0. *)
Lemma relem_elem r i :
  inv r → 0 <= i < count r → head r = 0 ∨ count r = cap r → relem r i = elem r i.
Proof.
  intros Hi Hr [Hh|Hf]; unfold relem, elem, slot.
  - rewrite Hh. cbn. rewrite !Z.mod_small by rlia. done.
  - by rewrite Hf.
Qed.

(** ** What [Resize] keeps *)

Lemma Resize_same r n : count r = n → Resize n (Some r) = (Ok tt, Some r).
Proof. intros H. unfold Resize, bind. cbn. by destruct (Z.eqb_spec (count r) n). Qed.

(** On a ring that holds at least one element, [Resize(n)] keeps the
    first [min(Len(), n)] elements, in order. *)
Lemma Resize_keeps r n :
  inv r → 0 < count r → count r ≠ n → 0 <= n <= maxLen →
  ∃ r', Resize n (Some r) = (Ok tt, Some r') ∧ inv r' ∧
    cap r' = n ∧ count r' = Z.min (count r) n ∧
    head r' = 0 ∧ tail r' = count r' ∧
    contents r' = take (Z.to_nat (Z.min (count r) n)) (contents r).
Proof.
  intros Hi Hc Hne Hn.
  destruct (Resize_run r n Hi Hne Hn) as (nb & k & Hrun & Hl & Hk & _ & Hkv & Hget).
  assert (k = Z.min (count r) n) as Hkmin.
  { rewrite Hkv. clear Hget Hrun Hkv. unfold inv in Hi. zcase; lia. }
  set (r' := mkRing nb 0 k k).
  assert (inv r') as Hi' by (unfold inv, cap; cbn; lia).
  exists r'. split_and!; try done.
  apply contents_eq; [done| |].
  - rewrite length_take, length_contents by done. cbn. lia.
  - intros i Hr. cbn in Hr.
    rewrite lookup_take_lt, lookup_contents by (done || lia). f_equal.
    assert (elem r' (Z.of_nat i) = nb !!! i) as ->.
    { unfold elem, slot, cap, r'. cbn. f_equal. rewrite Hl, Z.mod_small by lia. lia. }
    unfold elem, slot. symmetry.
    apply list_lookup_total_correct.
    rewrite <- (Nat2Z.id i) at 1. rewrite Hget by lia.
    assert (0 <= head r < cap r) as Hh by rlia.
    replace ((head r + Z.of_nat i) mod cap r)
      with (if head r + Z.of_nat i <? cap r then head r + Z.of_nat i
            else head r + Z.of_nat i - cap r)
      by (unfold inv, cap in *; zsolve).
    apply list_lookup_lookup_total_lt. unfold inv, cap, len in *. zcase; lia.
Qed.

(** On an empty ring the test [r.tail > r.head] fails as it does on a full
    one, and [Resize(n)] copies the whole storage: the ring then holds
    [min(Cap(), n)] elements. *)
Lemma Resize_empty r n :
  wf r → count r = 0 → n ≠ 0 → 0 <= n <= maxLen →
  ∃ r', Resize n (Some r) = (Ok tt, Some r') ∧ count r' = Z.min (cap r) n.
Proof.
  intros [Hi Ht] Hc Hne Hn.
  destruct (Resize_run r n Hi ltac:(lia) Hn) as (nb & k & Hrun & Hl & Hk & _ & Hkv & _).
  eexists. split; [done|]. cbn. rewrite Hkv. clear Hrun Hkv. unfold inv in Hi.
  zcase; lia.
Qed.


(** * More of what the code does *)

(** ** Construction *)

(** X1: [New(capacity)] returns a ring exactly when [make] accepts the
    capacity; the ring is empty, its [Cap()] is the capacity, every slot
    of its storage holds the zero value, and it satisfies the data-model
    invariants.  [Full()] is true of it only for capacity zero, where the
    ring is empty and full at once.  For a negative capacity, or one
    beyond what [make] allocates, [New] panics. *)
Theorem New_makes_empty_ring capacity :
  (0 <= capacity <= maxLen →
   ∃ r, New capacity = Ok r ∧ wf r ∧
     Len (Some r) = (Ok 0, Some r) ∧
     Cap (Some r) = (Ok capacity, Some r) ∧
     Full (Some r) = (Ok (capacity =? 0), Some r) ∧
     contents r = [] ∧
     ∀ s, 0 <= s < capacity → buf r !! Z.to_nat s = Some zero) ∧
  (¬ (0 <= capacity <= maxLen) →
   New capacity = Panic (PanicRuntime MakesliceLen)).
Proof.
  split; intros Hc.
  - unfold New. rewrite make_run by done. eexists. split; [done|].
    assert (len (replicate (Z.to_nat capacity) zero) = capacity) as Hl
      by (unfold len; rewrite length_replicate; lia).
    split_and!.
    + unfold wf, inv, cap. cbn. rewrite Hl. lia.
    + done.
    + by rewrite Cap_run; unfold cap; cbn; rewrite Hl.
    + unfold Full, bind, load, ret. cbn. rewrite Hl. by destruct capacity.
    + done.
    + intros s Hs. cbn. apply lookup_replicate_2. lia.
  - unfold New. by rewrite make_panic.
Qed.

(** ** The nil ring *)

(** X2: on a nil ring [Len()] and [Cap()] return 0, [Index] and [RIndex]
    return -1 whatever the predicate, and [Remove(i)] panics with the
    out-of-range message for index [i] and length 0; none of them
    dereferences the pointer. *)
Theorem nil_ring_is_empty (f : T → bool) (i : Z) :
  Len None = (Ok 0, None) ∧
  Cap None = (Ok 0, None) ∧
  Index f None = (Ok (-1), None) ∧
  RIndex f None = (Ok (-1), None) ∧
  Remove i None = (Panic (outOfRangeText i 0), None).
Proof.
  split_and!; try reflexivity.
  unfold Remove, out_of_range, Len, bind. cbn.
  destruct (Z.ltb_spec i 0), (Z.leb_spec 0 i); try lia; done.
Qed.

(** X3: the other methods do not test for nil: on a nil ring [Full],
    [PushBack], [PushFront], [PopFront], [PopBack], [Front], [Back],
    [Reset] and [Resize] panic with the runtime's nil-pointer
    dereference. *)
Theorem nil_ring_is_dereferenced (x : T) (n : Z) :
  Full None = (Panic (PanicRuntime NilDereference), None) ∧
  PushBack x None = (Panic (PanicRuntime NilDereference), None) ∧
  PushFront x None = (Panic (PanicRuntime NilDereference), None) ∧
  PopFront None = (Panic (PanicRuntime NilDereference), None) ∧
  PopBack None = (Panic (PanicRuntime NilDereference), None) ∧
  Front None = (Panic (PanicRuntime NilDereference), None) ∧
  Back None = (Panic (PanicRuntime NilDereference), None) ∧
  Reset None = (Panic (PanicRuntime NilDereference), None) ∧
  Resize n None = (Panic (PanicRuntime NilDereference), None).
Proof. split_and!; reflexivity. Qed.

(** [Insert] tests [at < 0] before it reads [r.count]: on a nil ring a
    negative index is reported as out of range, any other dereferences
    the pointer. *)
Lemma Insert_nil (at_ : Z) (item : T) :
  Insert at_ item None =
    (Panic (if at_ <? 0 then outOfRangeText at_ 0
            else PanicRuntime NilDereference), None).
Proof. unfold Insert, bind. by destruct (at_ <? 0). Qed.

(** ** Queries *)

(** X4: [Len], [Cap], [Full], [Front], [Back], [At], [Index] and [RIndex]
    leave the ring as it was, whether they return or panic, whatever the
    receiver (nil, or any value of the struct). *)
Theorem queries_change_nothing (p : ptr) (i : Z) (f : T → bool) :
  snd (Len p) = p ∧ snd (Cap p) = p ∧ snd (Full p) = p ∧
  snd (Front p) = p ∧ snd (Back p) = p ∧ snd (At i p) = p ∧
  snd (Index f p) = p ∧ snd (RIndex f p) = p.
Proof.
  split_and!.
  - apply readonly_Len.
  - apply readonly_Cap.
  - apply readonly_Full.
  - apply readonly_Front.
  - apply readonly_Back.
  - apply readonly_At.
  - apply readonly_Index.
  - apply readonly_RIndex.
Qed.

(** X5: on a ring that holds an element, [Front()] returns what [At(0)]
    returns and [Back()] what [At(Len()-1)] returns. *)
Theorem Front_and_Back_are_At r :
  inv r → 0 < count r →
  ∃ x y,
    Front (Some r) = (Ok x, Some r) ∧ At 0 (Some r) = (Ok x, Some r) ∧
    Back (Some r) = (Ok y, Some r) ∧ At (count r - 1) (Some r) = (Ok y, Some r).
Proof.
  intros Hi Hc. exists (elem r 0), (elem r (count r - 1)). split_and!.
  - by apply Front_elem.
  - apply At_elem; [done|lia].
  - by apply Back_elem.
  - apply At_elem; [done|lia].
Qed.

(** ** The panics *)

(** X6: the value each checked failure panics with.  On an empty ring
    [Front], [Back], [PopFront] and [PopBack] panic with their own
    message; [At], [Set] and [Remove] with an index outside [[0, Len())],
    and [Insert] with an index outside [[0, Len()]], panic with the
    out-of-range message for that index and [Len()]; [Insert] with an
    index in range into a full ring panics with its own message.  The
    ring is as it was. *)
Theorem checked_failures r :
  (count r <= 0 →
   Front (Some r) = (Panic (PanicString "Front called when empty"), Some r) ∧
   Back (Some r) = (Panic (PanicString "Back called when empty"), Some r) ∧
   PopFront (Some r)
     = (Panic (PanicString "PopFront called when empty"), Some r) ∧
   PopBack (Some r)
     = (Panic (PanicString "PopBack called when empty"), Some r)) ∧
  (∀ i x, ¬ (0 <= i < count r) →
   At i (Some r) = (Panic (outOfRangeText i (count r)), Some r) ∧
   Set_ i x (Some r) = (Panic (outOfRangeText i (count r)), Some r) ∧
   Remove i (Some r) = (Panic (outOfRangeText i (count r)), Some r)) ∧
  (∀ i x, ¬ (0 <= i <= count r) →
   Insert i x (Some r) = (Panic (outOfRangeText i (count r)), Some r)) ∧
  (∀ i x, 0 <= i <= count r → count r = cap r →
   Insert i x (Some r)
     = (Panic (PanicString "cannot insert into full ring"), Some r)).
Proof.
  split_and!.
  - intros Hc. split_and!.
    + by apply Front_empty.
    + by apply Back_empty.
    + by apply PopFront_empty.
    + by apply PopBack_empty.
  - intros i x Hi. split_and!.
    + by apply At_out_of_range.
    + by apply Set_out_of_range.
    + by apply Remove_out_of_range.
  - intros i x Hi. by apply Insert_out_of_range.
  - intros i x Hi Hf. by apply Insert_full.
Qed.

(** ** Reachable states *)

(** X7: in every state that a ring made by [New] reaches,
    [0 <= Len() <= Cap()] and [Full()] tells whether they are equal; a
    call leaves a ring behind (the receiver is never lost), and a call
    other than [Resize] leaves [Cap()] as it was, whether it returns or
    panics. *)
Theorem capacity_is_kept r :
  reachable r →
  (∃ n c, Len (Some r) = (Ok n, Some r) ∧ Cap (Some r) = (Ok c, Some r) ∧
     0 <= n <= c ∧ c <= maxLen ∧ Full (Some r) = (Ok (n =? c), Some r)) ∧
  ∀ c, ∃ r', snd (exec c (Some r)) = Some r' ∧ reachable r' ∧
    ((∀ n, c ≠ CallResize n) → Cap (Some r') = (Ok (cap r), Some r')).
Proof.
  intros Hr. destruct (reachable_good r Hr) as [Hi Hz]. split.
  - exists (count r), (cap r). rewrite Len_run, Cap_run.
    split_and!; try done; rlia.
  - intros c. destruct (exec_good c r Hi Hz) as (r' & Hrun & _ & _ & Hst).
    exists r'. split_and!; [done|by apply (reachable_call c r)|].
    intros Hne. rewrite Cap_run. by destruct (Hst Hne) as [-> _].
Qed.

(** X8: in every reachable state, [Reset()] leaves exactly the ring that
    [New(Cap())] returns. *)
Theorem Reset_is_New r :
  reachable r →
  ∃ r', Reset (Some r) = (Ok tt, Some r') ∧ New (cap r) = Ok r'.
Proof.
  intros Hr. destruct (reachable_good r Hr) as [Hi Hz].
  destruct (Reset_spec r Hi) as (r' & Hrun & Hi' & Hh & Ht & Hn & Hc & Hb).
  exists r'. split; [done|].
  unfold New. rewrite make_run by rlia. f_equal.
  destruct r' as [b h t c]. cbn in *. subst h t c. f_equal.
  apply list_eq. intros i. unfold cap, len in *. cbn in Hc.
  destruct (decide (i < length b)%nat) as [Hlt|Hge].
  - rewrite <- (Nat2Z.id i), (Hb Hz) by lia.
    apply lookup_replicate_2. lia.
  - rewrite (lookup_ge_None_2 b) by lia. apply lookup_ge_None_2.
    rewrite length_replicate. lia.
Qed.

(** ** [Resize] *)

(** X9: on a ring that holds at least one element, [Resize(n)] with [n]
    other than [Len()] and a length that [make] accepts returns;
    [Cap()] is then [n], [Len()] is [min(Len(), n)], and the logical
    sequence is the first [min(Len(), n)] elements of the old one, in
    order.  When the ring grows beyond its length, the result satisfies
    the data-model invariants. *)
Theorem Resize_keeps_elements r n :
  inv r → 0 < count r → count r ≠ n → 0 <= n <= maxLen →
  ∃ r', Resize n (Some r) = (Ok tt, Some r') ∧
    Cap (Some r') = (Ok n, Some r') ∧
    Len (Some r') = (Ok (Z.min (count r) n), Some r') ∧
    contents r' = take (Z.to_nat (Z.min (count r) n)) (contents r) ∧
    (count r < n → wf r').
Proof.
  intros Hi Hc Hne Hn.
  destruct (Resize_keeps r n Hi Hc Hne Hn)
    as (r' & Hrun & Hi' & Hc' & Hn' & Hh' & Ht' & Hv).
  exists r'. split_and!; try done.
  - by rewrite Cap_run, Hc'.
  - by rewrite Len_run, Hn'.
  - intros Hlt. split; [done|]. lia.
Qed.

(** X10: [Resize(n)] with [n] other than [Len()] and a length that [make]
    rejects (negative, or too long) panics in [make], before the ring is
    touched. *)
Theorem Resize_bad_size r n :
  ¬ (0 <= n <= maxLen) → count r ≠ n →
  Resize n (Some r) = (Panic (PanicRuntime MakesliceLen), Some r).
Proof.
  intros Hn Hne. unfold Resize, bind, load. cbn.
  destruct (Z.eqb_spec (count r) n); [done|]. by rewrite make_panic.
Qed.

(** ** Searching *)

(** X11: [Index(f)] returns the least index [i] in [[0, Len())] for which
    [f(At(i))] holds, or -1 when there is none. *)
Theorem Index_first_match f r :
  inv r →
  ∃ z, Index f (Some r) = (Ok z, Some r) ∧
    ((z = -1 ∧
      ∀ j, 0 <= j < count r →
        ∃ y, At j (Some r) = (Ok y, Some r) ∧ f y = false) ∨
     (0 <= z < count r ∧
      (∃ y, At z (Some r) = (Ok y, Some r) ∧ f y = true) ∧
      ∀ j, 0 <= j < z →
        ∃ y, At j (Some r) = (Ok y, Some r) ∧ f y = false)).
Proof.
  intros Hi. destruct (Index_spec f r Hi) as (z & Hrun & Hz).
  exists z. split; [done|].
  destruct Hz as [[-> Hno]|(Hr & Hyes & Hno)]; [left|right].
  - split; [done|]. intros j Hj. exists (elem r j).
    split; [by apply At_elem|by apply Hno].
  - split_and!; [lia..| |].
    + exists (elem r z). split; [by apply At_elem|done].
    + intros j Hj. exists (elem r j).
      split; [apply At_elem; [done|lia]|by apply Hno].
Qed.

(** X12: on a ring whose head is at slot 0 of the storage, or which is
    full, [RIndex(f)] returns the greatest index [i] in [[0, Len())] for
    which [f(At(i))] holds, or -1 when there is none. *)
Theorem RIndex_last_match_aligned f r :
  inv r → head r = 0 ∨ count r = cap r →
  ∃ z, RIndex f (Some r) = (Ok z, Some r) ∧
    ((z = -1 ∧
      ∀ j, 0 <= j < count r →
        ∃ y, At j (Some r) = (Ok y, Some r) ∧ f y = false) ∨
     (0 <= z < count r ∧
      (∃ y, At z (Some r) = (Ok y, Some r) ∧ f y = true) ∧
      ∀ j, z < j < count r →
        ∃ y, At j (Some r) = (Ok y, Some r) ∧ f y = false)).
Proof.
  intros Hi Ha. destruct (RIndex_spec f r Hi) as (z & Hrun & Hz).
  exists z. split; [done|].
  destruct Hz as [[-> Hno]|(Hr & Hyes & Hno)]; [left|right].
  - split; [done|]. intros j Hj. exists (elem r j).
    split; [by apply At_elem|]. rewrite <- relem_elem by done. by apply Hno.
  - split_and!; [lia..| |].
    + exists (elem r z). split; [by apply At_elem|].
      by rewrite <- relem_elem by done.
    + intros j Hj. exists (elem r j).
      split; [apply At_elem; [done|lia]|].
      rewrite <- relem_elem by (done || lia). by apply Hno.
Qed.

(** ** The ends *)

(** X13: on a ring that satisfies the data-model invariants and is not
    full, [PushBack(v)] appends [v] to the logical sequence and
    [PushFront(v)] prepends it; [Len()] grows by one, and [v] is what
    [Back()], respectively [Front()], returns next. *)
Theorem push_appends r v :
  wf r → count r < cap r →
  (∃ r', PushBack v (Some r) = (Ok tt, Some r') ∧ wf r' ∧
     contents r' = contents r ++ [v] ∧
     Len (Some r') = (Ok (count r + 1), Some r') ∧
     Back (Some r') = (Ok v, Some r')) ∧
  (∃ r', PushFront v (Some r) = (Ok tt, Some r') ∧ wf r' ∧
     contents r' = v :: contents r ∧
     Len (Some r') = (Ok (count r + 1), Some r') ∧
     Front (Some r') = (Ok v, Some r')).
Proof.
  intros [Hi Ht] Hc.
  assert (0 <= count r ∧ 0 < cap r) as [Hc0 Hc1] by rlia.
  split.
  - destruct (PushBack_spec r v Hi Hc1 ltac:(lia))
      as (r' & Hrun & Hi' & Ht' & Hc' & Hn' & _ & _ & Hv).
    destruct (Z.eqb_spec (count r) (cap r)) as [?|_]; [lia|].
    exists r'. split_and!; [done|by split; [|left]| |by rewrite Len_run, Hn'|].
    + by apply PushBack_contents.
    + rewrite Back_elem by (done || lia). rewrite Hn', Hv by lia.
      replace (count r + 1 - 1) with (count r) by lia. by rewrite Z.eqb_refl.
  - destruct (PushFront_spec r v Hi Hc1)
      as (r' & Hrun & Hi' & Ht' & Hc' & Hn' & _ & _ & Hv).
    destruct (Z.eqb_spec (count r) (cap r)) as [?|_]; [lia|].
    exists r'. split_and!; [done| | |by rewrite Len_run, Hn'|].
    + split; [done|]. left. apply Ht'. lia.
    + rewrite (PushFront_contents r r' v (count r)) by (done || lia).
      by rewrite take_ge by (rewrite length_contents by done; lia).
    + rewrite Front_elem by (done || lia). by rewrite Hv by lia.
Qed.

Lemma PopFront_contents r r' :
  inv r → inv r' → 0 < count r → count r' = count r - 1 →
  (∀ d, 0 <= d < cap r →
     elem r' d = if d =? cap r - 1 then zero else elem r (d + 1)) →
  contents r = elem r 0 :: contents r'.
Proof.
  intros Hi Hi' Hc Hn Hv. assert (count r <= cap r) as Hle by rlia.
  apply contents_eq; [done| |].
  - cbn. rewrite length_contents by done. lia.
  - intros i Hr. destruct i as [|i]; [done|]. cbn.
    rewrite lookup_contents by (done || lia). f_equal. rewrite Hv by lia.
    destruct (Z.eqb_spec (Z.of_nat i) (cap r - 1)); [lia|]. f_equal. lia.
Qed.

Lemma PopBack_contents r r' :
  inv r → inv r' → 0 < count r → count r' = count r - 1 →
  (∀ d, 0 <= d < cap r →
     elem r' d = if d =? count r - 1 then zero else elem r d) →
  contents r = contents r' ++ [elem r (count r - 1)].
Proof.
  intros Hi Hi' Hc Hn Hv. assert (count r <= cap r) as Hle by rlia.
  apply contents_eq; [done| |].
  - rewrite length_app, length_contents by done. cbn. lia.
  - intros i Hr.
    destruct (decide (Z.of_nat i = count r - 1)) as [Heq|Hne].
    + rewrite lookup_app_r; rewrite length_contents by done; [|lia].
      replace (i - Z.to_nat (count r'))%nat with 0%nat by lia.
      cbn. by rewrite Heq.
    + rewrite lookup_app_l by (rewrite length_contents by done; lia).
      rewrite lookup_contents by (done || lia). f_equal. rewrite Hv by lia.
      by destruct (Z.eqb_spec (Z.of_nat i) (count r - 1)).
Qed.

(** X14: on a ring that holds an element, [PopFront()] returns and removes
    the first element of the logical sequence, which is what [Front()]
    returned, and [PopBack()] the last, which is what [Back()] returned;
    [Len()] shrinks by one and [Cap()] stays. *)
Theorem pop_takes_the_end r :
  inv r → 0 < count r →
  (∃ x r', PopFront (Some r) = (Ok x, Some r') ∧
     Front (Some r) = (Ok x, Some r) ∧
     contents r = x :: contents r' ∧
     Len (Some r') = (Ok (count r - 1), Some r') ∧
     Cap (Some r') = (Ok (cap r), Some r')) ∧
  (∃ x r', PopBack (Some r) = (Ok x, Some r') ∧
     Back (Some r) = (Ok x, Some r) ∧
     contents r = contents r' ++ [x] ∧
     Len (Some r') = (Ok (count r - 1), Some r') ∧
     Cap (Some r') = (Ok (cap r), Some r')).
Proof.
  intros Hi Hc. split.
  - destruct (PopFront_spec r Hi Hc)
      as (r' & Hrun & Hi' & _ & Hc' & Hn' & _ & _ & Hv).
    exists (elem r 0), r'.
    split_and!; [done|by apply Front_elem|by apply PopFront_contents
                 |by rewrite Len_run, Hn'|by rewrite Cap_run, Hc'].
  - destruct (PopBack_spec r Hi Hc)
      as (r' & Hrun & Hi' & _ & Hc' & Hn' & _ & _ & Hv).
    exists (elem r (count r - 1)), r'.
    split_and!; [done|by apply Back_elem|by apply PopBack_contents
                 |by rewrite Len_run, Hn'|by rewrite Cap_run, Hc'].
Qed.

(** The storage holds the zero value in the slot that the next push at
    either end writes. *)
Lemma zeroed_ends r :
  wf r → zeroed r → count r < cap r →
  buf r !! Z.to_nat (tail r) = Some zero ∧
  buf r !! Z.to_nat ((head r - 1 + cap r) mod cap r) = Some zero.
Proof.
  intros [Hi Ht] Hz Hc. pose proof (proj1 (zeroed_elem r Hi) Hz) as He.
  assert (0 < cap r ∧ 0 <= count r ∧ 0 <= head r < cap r ∧ 0 <= tail r < cap r)
    as (Hc0 & Hn0 & Hh & Ht') by rlia.
  split.
  - pose proof (He (count r) ltac:(lia)) as H. unfold elem, slot in H.
    replace ((head r + count r) mod cap r) with (tail r) in H
      by (unfold inv in Hi; zmod).
    rewrite <- H. apply list_lookup_lookup_total_lt. unfold cap, len in *. lia.
  - pose proof (He (cap r - 1) ltac:(lia)) as H. unfold elem, slot in H.
    replace ((head r + (cap r - 1)) mod cap r)
      with ((head r - 1 + cap r) mod cap r) in H by (f_equal; lia).
    rewrite <- H. apply list_lookup_lookup_total_lt.
    pose proof (Z.mod_pos_bound (head r - 1 + cap r) (cap r) Hc0).
    unfold cap, len in *. lia.
Qed.

(** X15: in a state whose unused slots hold the zero value (every
    reachable state) and which is not full, [PushBack(v)] followed by
    [PopBack()] returns [v] and leaves the ring exactly as it was, storage
    included; so does [PushFront(v)] followed by [PopFront()]. *)
Theorem push_then_pop_restores r v :
  wf r → zeroed r → count r < cap r →
  (PushBack v;; PopBack) (Some r) = (Ok v, Some r) ∧
  (PushFront v;; PopFront) (Some r) = (Ok v, Some r).
Proof.
  intros Hw Hz Hc. destruct (zeroed_ends r Hw Hz Hc) as [Hzt Hzh].
  destruct Hw as [Hi Ht].
  assert (sized r) as Hs by (apply inv_sized'; [done|rlia]).
  assert (0 < cap r ∧ 0 <= count r ∧ 0 <= head r < cap r ∧ 0 <= tail r < cap r)
    as (Hc0 & Hn0 & Hh & Ht') by rlia.
  assert ((count r =? cap r) = false) as Hfull by lia.
  split.
  - erewrite run_bind by (apply PushBack_run; (done || lia)).
    rewrite Hfull.
    set (r1 := mkRing _ _ _ _).
    assert (cap r1 = cap r) as Hc1 by (unfold cap, r1; cbn; apply len_insert).
    rewrite PopBack_run;
      [|by unfold sized in *; rewrite Hc1
       |rewrite Hc1; cbn; pose proof (Z.mod_pos_bound (tail r + 1) (cap r)); lia
       |rewrite Hc1; cbn; lia].
    rewrite Hc1. cbn [tail head count buf r1].
    replace (((tail r + 1) mod cap r - 1 + cap r) mod cap r) with (tail r)
      by zmod.
    rewrite list_lookup_total_insert_eq by (unfold cap, len in *; lia).
    rewrite list_insert_insert_eq, list_insert_id by done.
    destruct r. cbn. do 3 f_equal. lia.
  - erewrite run_bind by (apply PushFront_run; (done || lia)).
    cbn zeta. rewrite Hfull.
    set (h' := (head r - 1 + cap r) mod cap r) in *.
    assert (0 <= h' < cap r) as Hh' by (apply Z.mod_pos_bound; lia).
    set (r1 := mkRing _ _ _ _).
    assert (cap r1 = cap r) as Hc1 by (unfold cap, r1; cbn; apply len_insert).
    rewrite PopFront_run;
      [|by unfold sized in *; rewrite Hc1
       |rewrite Hc1; cbn; lia
       |rewrite Hc1; cbn; lia].
    rewrite Hc1. cbn [tail head count buf r1].
    replace ((h' + 1) mod cap r) with (head r) by (unfold h'; zmod).
    rewrite list_lookup_total_insert_eq by (unfold cap, len in *; lia).
    rewrite list_insert_insert_eq, list_insert_id by done.
    destruct r. cbn. do 3 f_equal. lia.
Qed.

(** ** [Remove] *)

(** X16: [Remove(i)] with [0 <= i < Len()] returns what [At(i)] returned
    and leaves the logical sequence without its element [i], the others
    in order; [Len()] shrinks by one and [Cap()] stays. *)
Theorem Remove_deletes r i :
  inv r → 0 <= i < count r →
  ∃ x r', Remove i (Some r) = (Ok x, Some r') ∧
    At i (Some r) = (Ok x, Some r) ∧
    contents r' =
      take (Z.to_nat i) (contents r) ++ drop (S (Z.to_nat i)) (contents r) ∧
    Len (Some r') = (Ok (count r - 1), Some r') ∧
    Cap (Some r') = (Ok (cap r), Some r').
Proof.
  intros Hi Hr.
  destruct (Remove_spec r i Hi Hr)
    as (r' & Hrun & Hi' & _ & Hc' & Hn' & _ & Hv).
  exists (elem r i), r'.
  split_and!; [done|by apply At_elem|
               |by rewrite Len_run, Hn'|by rewrite Cap_run, Hc'].
  apply contents_eq; [done| |].
  - rewrite length_app, length_take, length_drop, length_contents by done. lia.
  - intros j Hj. rewrite Hv by lia.
    assert (length (take (Z.to_nat i) (contents r)) = Z.to_nat i) as Hlen
      by (rewrite length_take, length_contents by done; lia).
    destruct (Z.ltb_spec (Z.of_nat j) i) as [Hlt|Hge].
    + rewrite lookup_app_l by lia.
      by rewrite lookup_take_lt, lookup_contents by (done || lia).
    + rewrite lookup_app_r, Hlen by lia.
      rewrite lookup_drop, lookup_contents by (done || lia).
      do 2 f_equal. lia.
Qed.

(** ** [Insert] and [Remove] at the ends *)

(** X17: on a ring that satisfies the data-model invariants and is not
    full, [Insert(Len(), v)] does exactly what [PushBack(v)] does, and on
    one that also holds an element [Insert(0, v)] does exactly what
    [PushFront(v)] does: the same ring results, storage included. *)
Theorem Insert_at_an_end_is_push r v :
  wf r → count r < cap r →
  Insert (count r) v (Some r) = PushBack v (Some r) ∧
  (0 < count r → Insert 0 v (Some r) = PushFront v (Some r)).
Proof.
  intros [Hi Ht] Hc.
  assert (sized r) as Hs by (apply inv_sized'; [done|rlia]).
  assert (0 <= count r ∧ 0 <= head r < cap r ∧ 0 <= tail r < cap r)
    as (Hn0 & Hh & Ht') by rlia.
  assert ((count r =? cap r) = false) as Hfull by lia.
  split.
  - rewrite Insert_back_run, PushBack_run by (done || lia).
    rewrite Hfull, Z.sub_diag. done.
  - intros Hpos. rewrite Insert_front_run, PushFront_run by (done || lia).
    cbn zeta. rewrite Hfull. done.
Qed.

(** X18: on a ring that holds an element, [Remove(0)] does exactly what
    [PopFront()] does, and on one that holds at least two,
    [Remove(Len()-1)] does exactly what [PopBack()] does: the same element
    is returned and the same ring results, storage included.  (On a ring
    of one element, [Remove(Len()-1)] is [Remove(0)].) *)
Theorem Remove_at_an_end_is_pop r :
  inv r →
  (0 < count r → Remove 0 (Some r) = PopFront (Some r)) ∧
  (2 <= count r → Remove (count r - 1) (Some r) = PopBack (Some r)).
Proof.
  intros Hi. split; intros Hc.
  - assert (sized r) as Hs by (by apply inv_sized).
    assert (0 <= head r < cap r ∧ count r <= cap r) as [Hh Hle] by rlia.
    rewrite Remove_front_run, PopFront_run by (done || lia). done.
  - assert (sized r) as Hs by (apply inv_sized; [done|lia]).
    assert (0 <= head r < cap r ∧ 0 <= tail r <= cap r ∧ count r <= cap r)
      as (Hh & Ht & Hle) by rlia.
    rewrite Remove_back_run, PopBack_run by (done || lia).
    cbn zeta. replace (count r - (count r - 1) - 1) with 0 by lia. done.
Qed.

(** ** [Rotate] *)

Lemma PopFront_PushBack_run r :
  sized r → 0 <= head r < cap r → 0 <= tail r < cap r → 0 < count r <= cap r →
  (x <- PopFront;; PushBack x) (Some r) =
    (Ok tt,
     Some (mkRing (<[Z.to_nat (tail r) := buf r !!! Z.to_nat (head r)]>
                     (<[Z.to_nat (head r) := zero]> (buf r)))
             ((head r + 1) mod cap r) ((tail r + 1) mod cap r) (count r))).
Proof.
  intros Hs Hh Ht Hc.
  erewrite run_bind by (apply PopFront_run; (done || lia)).
  set (r1 := mkRing _ _ _ _).
  assert (cap r1 = cap r) as Hc1 by (unfold cap, r1; cbn; apply len_insert).
  assert (0 <= (head r + 1) mod cap r < cap r) as Hh1
    by (apply Z.mod_pos_bound; unfold sized in Hs; lia).
  rewrite PushBack_run;
    [|by unfold sized in *; rewrite Hc1
     |rewrite Hc1; cbn; lia..].
  rewrite !Hc1. cbn [tail head count buf r1].
  assert ((count r - 1 =? cap r) = false) as -> by lia.
  do 3 f_equal. lia.
Qed.

Lemma PopBack_PushFront_run r :
  sized r → 0 <= head r < cap r → 0 <= tail r <= cap r → 0 < count r <= cap r →
  let h' := (head r - 1 + cap r) mod cap r in
  let t' := (tail r - 1 + cap r) mod cap r in
  (x <- PopBack;; PushFront x) (Some r) =
    (Ok tt,
     Some (mkRing (<[Z.to_nat h' := buf r !!! Z.to_nat t']>
                     (<[Z.to_nat t' := zero]> (buf r)))
             h' t' (count r))).
Proof.
  intros Hs Hh Ht Hc h' t'.
  erewrite run_bind by (apply PopBack_run; (done || lia)).
  cbn zeta. fold t'.
  assert (0 <= t' < cap r) as Ht1
    by (apply Z.mod_pos_bound; unfold sized in Hs; lia).
  set (r1 := mkRing _ _ _ _).
  assert (cap r1 = cap r) as Hc1 by (unfold cap, r1; cbn; apply len_insert).
  rewrite PushFront_run;
    [|by unfold sized in *; rewrite Hc1
     |rewrite Hc1; cbn; lia..].
  cbn zeta. rewrite !Hc1. cbn [tail head count buf r1]. fold h'.
  assert ((count r - 1 =? cap r) = false) as -> by lia.
  do 3 f_equal. lia.
Qed.

(** X19: on a ring that satisfies the data-model invariants and holds at
    least two elements, [Rotate(1)] does exactly what [PushBack(PopFront())]
    does and [Rotate(-1)] exactly what [PushFront(PopBack())] does: the
    same ring results, storage included. *)
Theorem Rotate_one_is_pop_then_push r :
  wf r → 2 <= count r →
  Rotate 1 (Some r) = (x <- PopFront;; PushBack x) (Some r) ∧
  Rotate (-1) (Some r) = (x <- PopBack;; PushFront x) (Some r).
Proof.
  intros [Hi Ht] Hc.
  assert (sized r) as Hs by (apply inv_sized; [done|lia]).
  assert (0 < cap r ∧ 0 <= head r < cap r ∧ 0 <= tail r < cap r ∧
          count r <= cap r) as (Hc0 & Hh & Ht' & Hle) by rlia.
  assert (Z.rem 1 (count r) = 1) as Hr1 by (apply Z.rem_small; lia).
  assert (Z.rem (-1) (count r) = -1) as Hr2.
  { change (-1) with (- (1)). rewrite Z.rem_opp_l by lia. by rewrite Hr1. }
  assert (length (buf r) = Z.to_nat (cap r)) as Hlen by (unfold cap, len; lia).
  split.
  - rewrite PopFront_PushBack_run by (done || lia).
    rewrite Rotate_run by (done || lia). cbn zeta. rewrite Hr1. cbn [Z.eqb].
    destruct (Z.eqb_spec (head r) (tail r)) as [Heq|Hne].
    + rewrite <- Heq.
      rewrite list_insert_insert_eq, list_insert_id
        by (apply list_lookup_lookup_total_lt; lia).
      replace ((head r + 1 + cap r) mod cap r) with ((head r + 1) mod cap r)
        by zmod.
      done.
    + assert ((1 <? 0) = false) as -> by done.
      change (Z.to_nat 1) with 1%nat. cbn [iterate].
      erewrite run_bind by (apply rotate_fwd_step_run; (done || lia)).
      unfold ret. do 3 f_equal.
      apply list_insert_insert_ne. lia.
  - rewrite PopBack_PushFront_run by (done || lia). cbn zeta.
    rewrite Rotate_run by (done || lia). cbn zeta. rewrite Hr2. cbn [Z.eqb].
    set (t' := (tail r - 1 + cap r) mod cap r).
    assert (0 <= t' < cap r) as Ht1 by (apply Z.mod_pos_bound; lia).
    set (h' := (head r - 1 + cap r) mod cap r).
    assert (0 <= h' < cap r) as Hh1 by (apply Z.mod_pos_bound; lia).
    destruct (Z.eqb_spec (head r) (tail r)) as [Heq|Hne].
    + assert (h' = t') as Hht by (unfold h', t'; by rewrite Heq).
      rewrite Hht.
      rewrite list_insert_insert_eq, list_insert_id
        by (apply list_lookup_lookup_total_lt; lia).
      replace ((head r + -1 + cap r) mod cap r) with t'
        by (rewrite <- Hht; unfold h'; f_equal; lia).
      done.
    + assert ((-1 <? 0) = true) as -> by done.
      change (Z.to_nat (- -1)) with 1%nat. cbn [iterate].
      erewrite run_bind by (apply rotate_back_step_run; (done || lia)).
      cbn zeta. fold h' t'. unfold ret. do 3 f_equal.
      apply list_insert_insert_ne.
      assert (h' ≠ t') by (unfold h', t'; zmod). lia.
Qed.


(** ** Loops of callers *)

Lemma PushBack_view r v :
  wf r → 0 < cap r →
  ∃ r', PushBack v (Some r) = (Ok tt, Some r') ∧ wf r' ∧ cap r' = cap r ∧
    contents r' =
      if count r =? cap r then drop 1 (contents r) ++ [v] else contents r ++ [v].
Proof.
  intros [Hi Ht] Hc.
  destruct (PushBack_spec r v Hi Hc ltac:(lia))
    as (r' & Hrun & Hi' & Ht' & Hc' & Hn' & _ & _ & Hv).
  exists r'. split_and!; [done|by split; [|left]|done|].
  destruct (Z.eqb_spec (count r) (cap r)) as [Hf|Hf].
  - by apply PushBack_full_contents.
  - apply PushBack_contents; (done || rlia).
Qed.

(** X21: on a ring of capacity at least one that satisfies the data-model
    invariants, pushing the elements of [items] at the back, one after the
    other, never fails and leaves the last [Cap()] elements of the old
    logical sequence followed by [items]: all of them when they fit, the
    most recent ones otherwise. *)
Theorem PushBack_all_keeps_the_latest items r :
  wf r → 0 < cap r →
  ∃ r', PushBack_all items (Some r) = (Ok tt, Some r') ∧ wf r' ∧
    Cap (Some r') = (Ok (cap r), Some r') ∧
    contents r' =
      drop (length (contents r ++ items) - Z.to_nat (cap r))
        (contents r ++ items).
Proof.
  revert r. induction items as [|x items IH]; intros r Hw Hc.
  - exists r. split_and!; [done|done|apply Cap_run|].
    rewrite app_nil_r.
    rewrite length_contents by (by apply wf_inv).
    replace (Z.to_nat (count r) - Z.to_nat (cap r))%nat with 0%nat
      by (destruct Hw as [Hi _]; rlia).
    done.
  - destruct (PushBack_view r x Hw Hc) as (r1 & Hrun1 & Hw1 & Hc1 & Hv1).
    destruct (IH r1 Hw1 ltac:(lia)) as (r' & Hrun & Hw' & Hc' & Hv).
    exists r'. cbn [PushBack_all]. erewrite run_bind by done.
    split_and!; [done|done|by rewrite Hc', Hc1|].
    rewrite Hv, Hv1, Hc1. clear Hv Hv1.
    pose proof (length_contents r (wf_inv r Hw)) as Hlen.
    assert (0 <= count r <= cap r) as Hle by (destruct Hw as [Hi _]; rlia).
    destruct (Z.eqb_spec (count r) (cap r)) as [Hf|Hf].
    + destruct (contents r) as [|a c]; [cbn in Hlen; lia|].
      cbn [drop]. rewrite drop_0. cbn in Hlen.
      rewrite <- !app_assoc. cbn [app].
      rewrite !length_app. cbn [length]. rewrite ?length_app. cbn [length].
      replace (length c + S (length items) - Z.to_nat (cap r))%nat
        with (length items) by lia.
      replace (S (length c + S (length items)) - Z.to_nat (cap r))%nat
        with (S (length items)) by lia.
      done.
    + rewrite <- !app_assoc. done.
Qed.

(** X22: on a ring that holds at least [k] elements, [k] calls of
    [PopFront()] return the first [k] elements of the logical sequence,
    in order, and leave the others. *)
Theorem PopFront_n_is_first_in_first_out k r :
  inv r → Z.of_nat k <= count r →
  ∃ r', PopFront_n k (Some r) = (Ok (take k (contents r)), Some r') ∧
    contents r' = drop k (contents r) ∧
    Len (Some r') = (Ok (count r - Z.of_nat k), Some r') ∧
    Cap (Some r') = (Ok (cap r), Some r').
Proof.
  revert r. induction k as [|k IH]; intros r Hi Hk.
  - exists r. rewrite Len_run, Cap_run, Z.sub_0_r. done.
  - destruct (PopFront_spec r Hi ltac:(lia))
      as (r1 & Hrun1 & Hi1 & _ & Hc1 & Hn1 & _ & _ & Hv1).
    pose proof (PopFront_contents r r1 Hi Hi1 ltac:(lia) Hn1 Hv1) as Hcont.
    destruct (IH r1 Hi1 ltac:(lia)) as (r' & Hrun & Hv & Hn & Hc).
    exists r'. cbn [PopFront_n].
    erewrite run_bind by done. erewrite run_bind by done.
    rewrite Hcont. cbn [take drop]. unfold ret.
    split_and!; [done|done| |by rewrite Hc, Hc1].
    rewrite Hn, Hn1. do 2 f_equal. lia.
Qed.

(** ** The other round trip of [Insert] and [Remove] *)

(** X23: on a ring that satisfies the data-model invariants, [Remove(i)]
    with [0 <= i < Len()] followed by [Insert(i, x)] of the element [x]
    that was removed leaves the logical sequence and the length the ring
    had. *)
Theorem Remove_then_Insert_restores r i :
  wf r → 0 <= i < count r →
  ∃ x r' r'',
    Remove i (Some r) = (Ok x, Some r') ∧
    Insert i x (Some r') = (Ok tt, Some r'') ∧
    contents r'' = contents r ∧
    Len (Some r'') = (Ok (count r), Some r'').
Proof.
  intros [Hi Ht] Hr. assert (count r <= cap r) as Hle by rlia.
  destruct (Remove_spec r i Hi Hr)
    as (r' & Hrun & Hi' & Ht' & Hc' & Hn' & _ & Hv).
  destruct (Insert_spec r' i (elem r i) Hi' ltac:(lia) ltac:(lia))
    as (r'' & Hrun' & Hi'' & _ & Hc'' & Hn'' & _ & Hv').
  { left. apply Ht'. lia. }
  exists (elem r i), r', r''. split_and!; [done|done| |].
  - symmetry. apply contents_eq; [done| |].
    + rewrite length_contents by done. lia.
    + intros j Hj. rewrite lookup_contents by (done || lia). f_equal.
      rewrite Hv' by lia.
      destruct (Z.ltb_spec (Z.of_nat j) i).
      { rewrite Hv by lia. zsolve. }
      destruct (Z.eqb_spec (Z.of_nat j) i) as [->|Hne]; [done|].
      rewrite Hv by lia. zsolve.
  - rewrite Len_run. do 2 f_equal. lia.
Qed.

(** ** [next] and [prev] *)

(** X24: on a ring with storage, [next] and [prev] map a slot to a slot
    and undo each other; on a ring of capacity zero both panic with an
    integer division by zero. *)
Theorem next_and_prev_are_inverse r i :
  (0 < cap r <= maxLen → 0 <= i < cap r →
   (∃ j, next i (Some r) = (Ok j, Some r) ∧ 0 <= j < cap r ∧
      prev j (Some r) = (Ok i, Some r)) ∧
   (∃ j, prev i (Some r) = (Ok j, Some r) ∧ 0 <= j < cap r ∧
      next j (Some r) = (Ok i, Some r))) ∧
  (cap r = 0 →
   next i (Some r) = (Panic (PanicRuntime DivideByZero), Some r) ∧
   prev i (Some r) = (Panic (PanicRuntime DivideByZero), Some r)).
Proof.
  split.
  - intros Hc Hr. assert (sized r) as Hs by done.
    split.
    + exists ((i + 1) mod cap r).
      assert (0 <= (i + 1) mod cap r < cap r) by (apply Z.mod_pos_bound; lia).
      rewrite !run_next, !run_prev by (done || lia).
      split_and!; [done|lia..|]. do 2 f_equal. zmod.
    + exists ((i - 1 + cap r) mod cap r).
      assert (0 <= (i - 1 + cap r) mod cap r < cap r)
        by (apply Z.mod_pos_bound; lia).
      rewrite !run_next, !run_prev by (done || lia).
      split_and!; [done|lia..|]. do 2 f_equal. zmod.
  - intros Hz. unfold next, prev, bind, load, rem, cap in *. cbn.
    by rewrite Hz.
Qed.

End ring.

(** * Runs of [Ring[int]]

    The elements are Go [int]s, the zero value is [0], and [make([]int, n)]
    allocates up to [2 ^ 45] elements ([maxAlloc] is [2 ^ 48] bytes on the
    64-bit platforms). *)

Local Abbreviation max_ints := (2 ^ 45) (only parsing).
Local Abbreviation is2 := (λ x : Z, x =? 2) (only parsing).

Local Ltac holds := unfold wf, inv, cap, len; cbn; lia.

(** ** [RIndex] *)

(** C1: [RIndex] does not return the largest logical index whose element
    satisfies the predicate.  After [New(4)], [PushBack(1)], [PushBack(2)],
    [PopFront()] the ring holds the single element [2] in slot 1 of its
    storage: [Len()] is 1, [At(0)] is 2 and [Index(x == 2)] is 0, but
    [RIndex(x == 2)] is -1, because it reads slot [(head + i) % Len()],
    which is slot 0, where [At] and [Index] read slot
    [(head + i) % len(buf)]. *)
Theorem RIndex_misses_the_match :
  New 0 max_ints 4 = Ok (mkRing [0; 0; 0; 0] 0 0 0) ∧
  PushBack 1 (Some (mkRing [0; 0; 0; 0] 0 0 0))
    = (Ok (), Some (mkRing [1; 0; 0; 0] 0 1 1)) ∧
  PushBack 2 (Some (mkRing [1; 0; 0; 0] 0 1 1))
    = (Ok (), Some (mkRing [1; 2; 0; 0] 0 2 2)) ∧
  PopFront 0 (Some (mkRing [1; 2; 0; 0] 0 2 2))
    = (Ok 1, Some (mkRing [0; 2; 0; 0] 1 2 1)) ∧
  Len (Some (mkRing [0; 2; 0; 0] 1 2 1))
    = (Ok 1, Some (mkRing [0; 2; 0; 0] 1 2 1)) ∧
  At 0 (Some (mkRing [0; 2; 0; 0] 1 2 1))
    = (Ok 2, Some (mkRing [0; 2; 0; 0] 1 2 1)) ∧
  Index is2 (Some (mkRing [0; 2; 0; 0] 1 2 1))
    = (Ok 0, Some (mkRing [0; 2; 0; 0] 1 2 1)) ∧
  RIndex is2 (Some (mkRing [0; 2; 0; 0] 1 2 1))
    = (Ok (-1), Some (mkRing [0; 2; 0; 0] 1 2 1)).
Proof. by vm_compute. Qed.

(** ** [Resize] *)

(** C2: [Resize] does not keep the length of an empty ring, and leaves
    [tail] outside the storage when the resized ring is full.  [Resize]
    takes the elements to lie in [buf[head:tail]] only if [tail > head];
    an empty ring has [tail == head], so [Resize(10)] of the empty ring
    made by [New(5)] copies the five slots of the storage and sets
    [count] to 5: [Len()] is 5 afterwards, not [min(0, 10)].  And
    [Resize(2)] of the full ring holding 1, 2, 3 sets [tail = 2], which is
    the new capacity: the following [PushBack(4)] panics with an index
    out of range. *)
Theorem Resize_of_empty_ring_fills_it :
  New 0 max_ints 5 = Ok (mkRing [0; 0; 0; 0; 0] 0 0 0) ∧
  Len (Some (mkRing [0; 0; 0; 0; 0] 0 0 0))
    = (Ok 0, Some (mkRing [0; 0; 0; 0; 0] 0 0 0)) ∧
  Resize 0 max_ints 10 (Some (mkRing [0; 0; 0; 0; 0] 0 0 0))
    = (Ok (), Some (mkRing [0; 0; 0; 0; 0; 0; 0; 0; 0; 0] 0 5 5)) ∧
  Len (Some (mkRing [0; 0; 0; 0; 0; 0; 0; 0; 0; 0] 0 5 5))
    = (Ok 5, Some (mkRing [0; 0; 0; 0; 0; 0; 0; 0; 0; 0] 0 5 5)) ∧
  Resize 0 max_ints 2 (Some (mkRing [1; 2; 3] 0 0 3))
    = (Ok (), Some (mkRing [1; 2] 0 2 2)) ∧
  Cap (Some (mkRing [1; 2] 0 2 2)) = (Ok 2, Some (mkRing [1; 2] 0 2 2)) ∧
  PushBack 4 (Some (mkRing [1; 2] 0 2 2))
    = (Panic (PanicRuntime IndexOutOfRange), Some (mkRing [1; 2] 0 2 2)).
Proof. by vm_compute. Qed.

(** ** After a [Resize] that fills the ring

    [Resize] sets [r.tail = n], the number of elements copied, also when
    that is the new capacity.  The ring that [New(3)], [PushBack(1)],
    [PushBack(2)], [PushBack(3)], [Resize(2)] leave is full, with [tail]
    one past the storage; [PopFront()] then leaves a ring of one element
    whose [tail] is still there. *)

Local Abbreviation resized := (mkRing [1; 2] 0 2 2) (only parsing).
Local Abbreviation popped := (mkRing [0; 2] 1 2 1) (only parsing).

Lemma run_to_resized :
  New 0 max_ints 3 = Ok (mkRing [0; 0; 0] 0 0 0) ∧
  PushBack 1 (Some (mkRing [0; 0; 0] 0 0 0))
    = (Ok (), Some (mkRing [1; 0; 0] 0 1 1)) ∧
  PushBack 2 (Some (mkRing [1; 0; 0] 0 1 1))
    = (Ok (), Some (mkRing [1; 2; 0] 0 2 2)) ∧
  PushBack 3 (Some (mkRing [1; 2; 0] 0 2 2))
    = (Ok (), Some (mkRing [1; 2; 3] 0 0 3)) ∧
  Resize 0 max_ints 2 (Some (mkRing [1; 2; 3] 0 0 3)) = (Ok (), Some resized) ∧
  PopFront 0 (Some resized) = (Ok 1, Some popped).
Proof. by vm_compute. Qed.

Lemma reachable_resized : reachable 0 max_ints resized.
Proof.
  apply (reachable_call 0 max_ints (CallResize 2) (mkRing [1; 2; 3] 0 0 3));
    [|done].
  apply (reachable_call 0 max_ints (CallPushBack 3) (mkRing [1; 2; 0] 0 2 2));
    [|done].
  apply (reachable_call 0 max_ints (CallPushBack 2) (mkRing [1; 0; 0] 0 1 1));
    [|done].
  apply (reachable_call 0 max_ints (CallPushBack 1) (mkRing [0; 0; 0] 0 0 0));
    [|done].
  by apply (reachable_New 0 max_ints 3).
Qed.

Lemma reachable_popped : reachable 0 max_ints popped.
Proof.
  by apply (reachable_call 0 max_ints CallPopFront resized);
    [apply reachable_resized|].
Qed.

(** C3: a push onto a full ring of capacity at least one does not always
    evict the element at the opposite end.  The ring left by [New(3)],
    [PushBack(1)], [PushBack(2)], [PushBack(3)], [Resize(2)] is reachable
    and full, with [Cap()] and [Len()] both 2 and the logical sequence
    1, 2; [PushBack(4)] on it panics with an index out of range at
    [r.buf[r.tail] = elem], where the claim has it leave 2, 4.
    ([PushFront(4)] on the same ring does evict the back element.) *)
Theorem PushBack_on_full_ring_after_Resize :
  reachable 0 max_ints resized ∧
  Cap (Some resized) = (Ok 2, Some resized) ∧
  Len (Some resized) = (Ok 2, Some resized) ∧
  Full (Some resized) = (Ok true, Some resized) ∧
  contents resized = [1; 2] ∧
  PushBack 4 (Some resized)
    = (Panic (PanicRuntime IndexOutOfRange), Some resized) ∧
  PushFront 4 (Some resized) = (Ok (), Some (mkRing [1; 4] 1 1 2)) ∧
  contents (mkRing [1; 4] 1 1 2) = [4; 1].
Proof. split; [exact reachable_resized|by vm_compute]. Qed.

(** C4: [Rotate] does not always shift the logical sequence.  On the
    reachable ring left by [New(3)], [PushBack(1)], [PushBack(2)],
    [PushBack(3)], [Resize(2)], whose [At(0)] and [At(1)] are 1 and 2,
    [Rotate(-1)] takes the ring to be partly filled (its [head] and
    [tail] differ) and overwrites the element 2 with the zero value:
    afterwards [At(0)] and [At(1)] are 0 and 1, where the claim has 2 and
    1.  [Rotate(1)] on the same ring panics with an index out of range. *)
Theorem Rotate_after_Resize_loses_an_element :
  reachable 0 max_ints resized ∧
  At 0 (Some resized) = (Ok 1, Some resized) ∧
  At 1 (Some resized) = (Ok 2, Some resized) ∧
  Rotate 0 (-1) (Some resized) = (Ok (), Some (mkRing [1; 0] 1 1 2)) ∧
  Len (Some (mkRing [1; 0] 1 1 2)) = (Ok 2, Some (mkRing [1; 0] 1 1 2)) ∧
  At 0 (Some (mkRing [1; 0] 1 1 2)) = (Ok 0, Some (mkRing [1; 0] 1 1 2)) ∧
  At 1 (Some (mkRing [1; 0] 1 1 2)) = (Ok 1, Some (mkRing [1; 0] 1 1 2)) ∧
  Rotate 0 1 (Some resized)
    = (Panic (PanicRuntime IndexOutOfRange), Some resized).
Proof. split; [exact reachable_resized|by vm_compute]. Qed.

(** C6: [Insert] also fails where its preconditions hold.  On the
    reachable ring left by [New(3)], [PushBack(1)], [PushBack(2)],
    [PushBack(3)], [Resize(2)], [PopFront()], which holds one element in a
    storage of two, [Insert(1, 9)] has its index in [[0, Len()]] and the
    ring is not full, but the call panics with an index out of range, in
    the [PushBack] it makes.  The ring is left as it was. *)
Theorem Insert_after_Resize_fails_in_range :
  reachable 0 max_ints popped ∧
  Len (Some popped) = (Ok 1, Some popped) ∧
  Cap (Some popped) = (Ok 2, Some popped) ∧
  Full (Some popped) = (Ok false, Some popped) ∧
  0 <= 1 <= count popped ∧ count popped ≠ cap popped ∧
  failed (Insert 1 9 (Some popped)) ∧
  Insert 1 9 (Some popped)
    = (Panic (PanicRuntime IndexOutOfRange), Some popped).
Proof. split; [exact reachable_popped|by vm_compute]. Qed.

(** C7: [Insert] followed by [Remove] is not a round trip on every ring
    that is not full.  On the reachable ring left by [New(3)],
    [PushBack(1)], [PushBack(2)], [PushBack(3)], [Resize(2)],
    [PopFront()], whose logical sequence is the single element 2,
    [Insert(1, 9)] with [1 = Len()] panics and inserts nothing, so that no
    [Remove(1)] can return 9: [Remove(1)] is then out of range. *)
Theorem Insert_after_Resize_has_no_round_trip :
  reachable 0 max_ints popped ∧
  contents popped = [2] ∧
  count popped < cap popped ∧ 0 <= 1 <= count popped ∧
  Insert 1 9 (Some popped)
    = (Panic (PanicRuntime IndexOutOfRange), Some popped) ∧
  Remove 0 1 (Some popped) = (Panic (outOfRangeText 1 1), Some popped).
Proof. split; [exact reachable_popped|by vm_compute]. Qed.

(** ** Pushing *)

(** C5, for every ring state: [New(0)] returns a ring, and both pushes
    panic on it, [PushBack] when it stores into the empty storage and
    [PushFront] when [prev] divides by [len(r.buf)]. *)
Lemma push_fails_on_capacity_zero :
  New 0 max_ints 0 = Ok (mkRing [] 0 0 0) ∧
  PushBack 1 (Some (mkRing [] 0 0 0))
    = (Panic (PanicRuntime IndexOutOfRange), Some (mkRing [] 0 0 0)) ∧
  PushFront 1 (Some (mkRing [] 0 0 0))
    = (Panic (PanicRuntime DivideByZero), Some (mkRing [] 0 0 0)).
Proof. by vm_compute. Qed.

Lemma push_never_fails_witness :
  inv max_ints (mkRing [1; 2; 3] 1 1 3) ∧
  0 < cap (mkRing [1; 2; 3] 1 1 3) ∧
  tail (mkRing [1; 2; 3] 1 1 3) < cap (mkRing [1; 2; 3] 1 1 3) ∧
  (∃ r', PushBack 4 (Some (mkRing [1; 2; 3] 1 1 3)) = (Ok (), Some r') ∧
     Len (Some r') = (Ok 3, Some r') ∧ contents r' = [3; 1; 4]) ∧
  (∃ r', PushFront 4 (Some (mkRing [1; 2; 3] 1 1 3)) = (Ok (), Some r') ∧
     Len (Some r') = (Ok 3, Some r') ∧ contents r' = [4; 2; 3]).
Proof.
  split; [holds|]. split; [done|]. split; [done|].
  destruct (push_never_fails 0 max_ints eq_refl (mkRing [1; 2; 3] 1 1 3) 4)
    as [HB (r2 & H2 & _ & _ & _ & L2 & C2)]; [holds|done|].
  destruct (HB ltac:(done)) as (r1 & H1 & _ & _ & L1 & C1).
  split; [exists r1|exists r2]; (split; [done|]); (split; [done|]).
  - rewrite C1. by vm_compute.
  - rewrite C2. by vm_compute.
Defined.

Lemma push_full_evicts_witness :
  wf max_ints (mkRing [1; 2; 3] 1 1 3) ∧
  count (mkRing [1; 2; 3] 1 1 3) = cap (mkRing [1; 2; 3] 1 1 3) ∧
  contents (mkRing [1; 2; 3] 1 1 3) = [2; 3; 1] ∧
  (∃ r', PushBack 4 (Some (mkRing [1; 2; 3] 1 1 3)) = (Ok (), Some r')
         ∧ contents r' = [3; 1; 4]) ∧
  (∃ r', PushFront 4 (Some (mkRing [1; 2; 3] 1 1 3)) = (Ok (), Some r')
         ∧ contents r' = [4; 2; 3]).
Proof.
  split; [holds|]. split; [done|]. split; [done|].
  destruct (push_full_evicts 0 max_ints eq_refl (mkRing [1; 2; 3] 1 1 3) 4)
    as [(r1 & H1 & _ & C1 & _) (r2 & H2 & _ & C2 & _)]; [holds|done|done|].
  split; [exists r1|exists r2]; done.
Defined.

(** ** [Set] and [At] *)

Lemma Set_then_At_witness :
  inv max_ints (mkRing [1; 2; 3; 0] 0 3 3) ∧
  ∃ r', Set_ 1 7 (Some (mkRing [1; 2; 3; 0] 0 3 3)) = (Ok (), Some r')
        ∧ At 1 (Some r') = (Ok 7, Some r').
Proof.
  split; [holds|].
  destruct (Set_then_At 0 max_ints eq_refl (mkRing [1; 2; 3; 0] 0 3 3) 1 7)
    as (r' & H1 & H2 & _); [holds|done|].
  by exists r'.
Defined.

(** ** [Rotate] *)

Lemma Rotate_shifts_witness :
  wf max_ints (mkRing [0; 1; 2; 3; 0] 1 4 3) ∧
  ∃ r', Rotate 0 (-4) (Some (mkRing [0; 1; 2; 3; 0] 1 4 3)) = (Ok (), Some r')
        ∧ Len (Some r') = (Ok 3, Some r')
        ∧ Cap (Some r') = (Ok 5, Some r').
Proof.
  split; [holds|].
  destruct (Rotate_shifts 0 max_ints eq_refl (mkRing [0; 1; 2; 3; 0] 1 4 3) (-4))
    as [(r' & H1 & _ & H2 & H3 & _) _]; [holds|].
  by exists r'.
Defined.

(** ** Failures *)

Lemma failures_exact_and_atomic_witness :
  wf max_ints (mkRing [0; 1; 2; 3; 0] 1 4 3) ∧
  (failed (At 3 (Some (mkRing [0; 1; 2; 3; 0] 1 4 3))) ↔ ¬ 0 <= 3 < 3) ∧
  (failed (Front (Some (mkRing [0; 1; 2; 3; 0] 1 4 3))) ↔ 3 = 0).
Proof.
  split; [holds|].
  destruct (failures_exact_and_atomic 0 max_ints eq_refl
              (mkRing [0; 1; 2; 3; 0] 1 4 3))
    as (HAt & _ & _ & _ & [HFront _] & _); [holds|].
  split; [exact (proj1 (HAt 3))|exact HFront].
Defined.

(** ** [Insert] and [Remove] *)

Lemma Insert_then_Remove_witness :
  wf max_ints (mkRing [0; 1; 2; 3; 0] 1 4 3) ∧
  contents (mkRing [0; 1; 2; 3; 0] 1 4 3) = [1; 2; 3] ∧
  ∃ r', Insert 1 9 (Some (mkRing [0; 1; 2; 3; 0] 1 4 3)) = (Ok (), Some r')
        ∧ contents r' = [1; 9; 2; 3]
        ∧ ∃ r'', Remove 0 1 (Some r') = (Ok 9, Some r'')
                 ∧ contents r'' = [1; 2; 3].
Proof.
  split; [holds|]. split; [done|].
  destruct (Insert_then_Remove 0 max_ints eq_refl
              (mkRing [0; 1; 2; 3; 0] 1 4 3) 1 9)
    as (r' & H1 & C1 & r'' & H2 & C2 & _); [holds|done|done|].
  exists r'. split; [done|]. split; [done|]. by exists r''.
Defined.

(** ** Zeroing *)

Lemma reachable_run :
  reachable 0 max_ints (mkRing [0; 2; 0; 0] 1 2 1).
Proof.
  apply (reachable_call 0 max_ints CallPopFront (mkRing [1; 2; 0; 0] 0 2 2));
    [|done].
  apply (reachable_call 0 max_ints (CallPushBack 2) (mkRing [1; 0; 0; 0] 0 1 1));
    [|done].
  apply (reachable_call 0 max_ints (CallPushBack 1) (mkRing [0; 0; 0; 0] 0 0 0));
    [|done].
  by apply (reachable_New 0 max_ints 4).
Defined.

Lemma vacated_slots_are_zero_witness :
  reachable 0 max_ints (mkRing [0; 2; 0; 0] 1 2 1) ∧
  zeroed 0 (mkRing [0; 2; 0; 0] 1 2 1) ∧
  ∃ r', Reset 0 (Some (mkRing [0; 2; 0; 0] 1 2 1)) = (Ok (), Some r')
        ∧ Len (Some r') = (Ok 0, Some r').
Proof.
  split; [exact reachable_run|].
  destruct (vacated_slots_are_zero 0 max_ints eq_refl
              (mkRing [0; 2; 0; 0] 1 2 1) reachable_run)
    as (HZ & _ & _ & _ & _ & _ & r' & H1 & _ & H2 & _).
  split; [exact HZ|]. by exists r'.
Defined.

(** ** More runs *)

Local Abbreviation ring3 := (mkRing [0; 1; 2; 3; 0] 1 4 3) (only parsing).
Local Abbreviation ring1 := (mkRing [0; 2; 0; 0] 1 2 1) (only parsing).

Lemma Front_and_Back_are_At_witness :
  inv max_ints ring3 ∧ 0 < count ring3 ∧
  ∃ x y, Front (Some ring3) = (Ok x, Some ring3) ∧
    At 0 (Some ring3) = (Ok x, Some ring3) ∧
    Back (Some ring3) = (Ok y, Some ring3) ∧
    At (count ring3 - 1) (Some ring3) = (Ok y, Some ring3).
Proof.
  split; [holds|]. split; [done|].
  apply (Front_and_Back_are_At 0 max_ints eq_refl ring3); [holds|done].
Defined.

Lemma capacity_is_kept_witness :
  reachable 0 max_ints ring1 ∧
  ∃ r', snd (exec 0 max_ints (CallPushBack 5) (Some ring1)) = Some r' ∧
    Cap (Some r') = (Ok 4, Some r').
Proof.
  split; [exact reachable_run|].
  destruct (capacity_is_kept 0 max_ints eq_refl ring1 reachable_run) as [_ H].
  destruct (H (CallPushBack 5)) as (r' & H1 & _ & H2).
  exists r'. split; [exact H1|]. apply H2. intros n. discriminate.
Defined.

Lemma Reset_is_New_witness :
  reachable 0 max_ints ring1 ∧
  ∃ r', Reset 0 (Some ring1) = (Ok (), Some r') ∧ New 0 max_ints 4 = Ok r'.
Proof.
  split; [exact reachable_run|].
  apply (Reset_is_New 0 max_ints eq_refl ring1 reachable_run).
Defined.

Lemma Resize_keeps_elements_witness :
  inv max_ints ring3 ∧ 0 < count ring3 ∧ count ring3 ≠ 2 ∧ 0 <= 2 <= max_ints ∧
  ∃ r', Resize 0 max_ints 2 (Some ring3) = (Ok (), Some r') ∧
    Cap (Some r') = (Ok 2, Some r') ∧ contents r' = [1; 2].
Proof.
  split; [holds|]. split; [done|]. split; [done|]. split; [done|].
  destruct (Resize_keeps_elements 0 max_ints eq_refl ring3 2)
    as (r' & H1 & H2 & _ & H3 & _); [holds|done|done|done|].
  exists r'. split; [exact H1|]. split; [exact H2|exact H3].
Defined.

Lemma Resize_bad_size_witness :
  ¬ (0 <= -1 <= max_ints) ∧ count ring3 ≠ -1 ∧
  Resize 0 max_ints (-1) (Some ring3)
    = (Panic (PanicRuntime MakesliceLen), Some ring3).
Proof.
  assert (¬ (0 <= -1 <= max_ints)) as H by lia.
  split; [exact H|]. split; [done|].
  apply (Resize_bad_size 0 max_ints ring3 (-1) H). done.
Defined.

Lemma Index_first_match_witness :
  inv max_ints ring3 ∧
  ∃ z, Index is2 (Some ring3) = (Ok z, Some ring3) ∧ 0 <= z < count ring3.
Proof.
  split; [holds|].
  destruct (Index_first_match 0 max_ints eq_refl is2 ring3)
    as (z & H1 & [[-> H2]|(H2 & _)]); [holds| |by exists z].
  destruct (H2 1) as (y & Hy & Hf); [done|].
  vm_compute in Hy. injection Hy as <-. discriminate Hf.
Defined.

Lemma RIndex_last_match_aligned_witness :
  inv max_ints (mkRing [1; 2; 3; 0] 0 3 3) ∧
  head (mkRing [1; 2; 3; 0] 0 3 3) = 0 ∧
  ∃ z, RIndex is2 (Some (mkRing [1; 2; 3; 0] 0 3 3))
       = (Ok z, Some (mkRing [1; 2; 3; 0] 0 3 3)).
Proof.
  split; [holds|]. split; [done|].
  destruct (RIndex_last_match_aligned 0 max_ints eq_refl is2
              (mkRing [1; 2; 3; 0] 0 3 3))
    as (z & H1 & _); [holds|by left|].
  by exists z.
Defined.

Lemma push_appends_witness :
  wf max_ints ring3 ∧ count ring3 < cap ring3 ∧
  (∃ r', PushBack 4 (Some ring3) = (Ok (), Some r') ∧
     contents r' = [1; 2; 3; 4]) ∧
  (∃ r', PushFront 4 (Some ring3) = (Ok (), Some r') ∧
     contents r' = [4; 1; 2; 3]).
Proof.
  split; [holds|]. split; [done|].
  destruct (push_appends 0 max_ints eq_refl ring3 4)
    as [(r1 & H1 & _ & C1 & _) (r2 & H2 & _ & C2 & _)]; [holds|done|].
  split; [exists r1|exists r2]; (split; [done|]).
  - rewrite C1. by vm_compute.
  - rewrite C2. by vm_compute.
Defined.

Lemma pop_takes_the_end_witness :
  inv max_ints ring3 ∧ 0 < count ring3 ∧
  (∃ x r', PopFront 0 (Some ring3) = (Ok x, Some r') ∧
     [1; 2; 3] = x :: contents r') ∧
  (∃ x r', PopBack 0 (Some ring3) = (Ok x, Some r') ∧
     [1; 2; 3] = contents r' ++ [x]).
Proof.
  split; [holds|]. split; [done|].
  destruct (pop_takes_the_end 0 max_ints eq_refl ring3)
    as [(x1 & r1 & H1 & _ & C1 & _) (x2 & r2 & H2 & _ & C2 & _)]; [holds|done|].
  split; [exists x1, r1|exists x2, r2]; (split; [done|]).
  - rewrite <- C1. by vm_compute.
  - rewrite <- C2. by vm_compute.
Defined.

Lemma push_then_pop_restores_witness :
  wf max_ints ring1 ∧ zeroed 0 ring1 ∧ count ring1 < cap ring1 ∧
  bind (PushBack 7) (λ _, PopBack 0) (Some ring1) = (Ok 7, Some ring1) ∧
  bind (PushFront 7) (λ _, PopFront 0) (Some ring1) = (Ok 7, Some ring1).
Proof.
  assert (zeroed 0 ring1) as Hz
    by exact (proj2 (reachable_good 0 max_ints eq_refl ring1 reachable_run)).
  split; [holds|]. split; [exact Hz|]. split; [done|].
  apply (push_then_pop_restores 0 max_ints eq_refl ring1 7); [holds|exact Hz|done].
Defined.

Lemma Remove_deletes_witness :
  inv max_ints ring3 ∧ 0 <= 1 < count ring3 ∧
  ∃ x r', Remove 0 1 (Some ring3) = (Ok x, Some r') ∧
    At 1 (Some ring3) = (Ok x, Some ring3) ∧ contents r' = [1; 3].
Proof.
  split; [holds|]. split; [done|].
  destruct (Remove_deletes 0 max_ints eq_refl ring3 1)
    as (x & r' & H1 & H2 & H3 & _); [holds|done|].
  exists x, r'. split; [exact H1|]. split; [exact H2|].
  rewrite H3. by vm_compute.
Defined.

Lemma Insert_at_an_end_is_push_witness :
  wf max_ints ring3 ∧ count ring3 < cap ring3 ∧
  Insert (count ring3) 4 (Some ring3) = PushBack 4 (Some ring3) ∧
  (0 < count ring3 → Insert 0 4 (Some ring3) = PushFront 4 (Some ring3)).
Proof.
  split; [holds|]. split; [done|].
  apply (Insert_at_an_end_is_push 0 max_ints eq_refl ring3 4); [holds|done].
Defined.

Lemma Remove_at_an_end_is_pop_witness :
  inv max_ints ring3 ∧
  Remove 0 0 (Some ring3) = PopFront 0 (Some ring3) ∧
  Remove 0 (count ring3 - 1) (Some ring3) = PopBack 0 (Some ring3).
Proof.
  split; [holds|].
  destruct (Remove_at_an_end_is_pop 0 max_ints eq_refl ring3) as [H1 H2];
    [holds|].
  split; [by apply H1|by apply H2].
Defined.

Lemma Rotate_one_is_pop_then_push_witness :
  wf max_ints ring3 ∧ 2 <= count ring3 ∧
  Rotate 0 1 (Some ring3)
    = bind (PopFront 0) (λ x, PushBack x) (Some ring3) ∧
  Rotate 0 (-1) (Some ring3)
    = bind (PopBack 0) (λ x, PushFront x) (Some ring3).
Proof.
  split; [holds|]. split; [done|].
  apply (Rotate_one_is_pop_then_push 0 max_ints eq_refl ring3); [holds|done].
Defined.


Lemma PushBack_all_keeps_the_latest_witness :
  wf max_ints ring3 ∧ 0 < cap ring3 ∧
  ∃ r', PushBack_all [4; 5; 6] (Some ring3) = (Ok (), Some r') ∧
    contents r' = [2; 3; 4; 5; 6].
Proof.
  split; [holds|]. split; [done|].
  destruct (PushBack_all_keeps_the_latest 0 max_ints eq_refl [4; 5; 6] ring3)
    as (r' & H1 & _ & _ & H2); [holds|done|].
  exists r'. split; [exact H1|]. rewrite H2. by vm_compute.
Defined.

Lemma PopFront_n_is_first_in_first_out_witness :
  inv max_ints ring3 ∧ Z.of_nat 2 <= count ring3 ∧
  ∃ r', PopFront_n 0 2 (Some ring3) = (Ok [1; 2], Some r') ∧
    contents r' = [3].
Proof.
  split; [holds|]. split; [done|].
  destruct (PopFront_n_is_first_in_first_out 0 max_ints eq_refl 2%nat ring3)
    as (r' & H1 & H2 & _); [holds|done|].
  exists r'. split; [rewrite H1|rewrite H2]; by vm_compute.
Defined.

Lemma Remove_then_Insert_restores_witness :
  wf max_ints ring3 ∧ 0 <= 1 < count ring3 ∧
  ∃ x r' r'', Remove 0 1 (Some ring3) = (Ok x, Some r') ∧
    Insert 1 x (Some r') = (Ok (), Some r'') ∧
    contents r'' = [1; 2; 3].
Proof.
  split; [holds|]. split; [done|].
  destruct (Remove_then_Insert_restores 0 max_ints eq_refl ring3 1)
    as (x & r' & r'' & H1 & H2 & H3 & _); [holds|done|].
  exists x, r', r''. split; [exact H1|]. split; [exact H2|].
  rewrite H3. by vm_compute.
Defined.

Lemma next_and_prev_are_inverse_witness :
  0 < cap ring3 <= max_ints ∧ 0 <= 4 < cap ring3 ∧
  (∃ j, next 4 (Some ring3) = (Ok j, Some ring3) ∧
     prev j (Some ring3) = (Ok 4, Some ring3)) ∧
  (∃ j, prev 0 (Some ring3) = (Ok j, Some ring3) ∧
     next j (Some ring3) = (Ok 0, Some ring3)).
Proof.
  split; [done|]. split; [done|].
  destruct (next_and_prev_are_inverse max_ints eq_refl ring3 4) as [H4 _].
  destruct (next_and_prev_are_inverse max_ints eq_refl ring3 0) as [H0 _].
  destruct (H4 ltac:(done) ltac:(done)) as [(j & Hn & _ & Hp) _].
  destruct (H0 ltac:(done) ltac:(done)) as [_ (k & Hp' & _ & Hn')].
  split; [by exists j|by exists k].
Defined.
